(** * node-sync-to-github: a shallow embedding of [lib/sync.js]

    The development follows the final variant of the file (the one that
    exports [syncToGitHub] and [existingTreesForPath]).

    - The remote object store and the local file system are external
      collaborators: they appear as records of response functions
      ([GitHubApi], [FileSystem]) over which every theorem is universally
      quantified.
    - A promise is a computation in a state and error monad [M]; the state
      ([World]) holds the store, the heap, the log of completed calls and
      the console.
    - Tree records are JavaScript objects that the path resolver, its cache
      and the tree rebuilder hand around by reference and change in place:
      they live in an explicit heap, so that aliasing is visible.
    - The statements speak of the calls a run completes ([calls],
      [requests_since]) and of what came back from the store.

    Layout: the model of the program; the vocabulary of the statements; a
    small in-memory store and example runs; the proofs; the example runs
    checked against the theorems. *)

From Stdlib Require Import ZArith String Ascii List.
From stdpp Require Import gmap strings list pretty.

Local Open Scope string_scope.

(** ** JavaScript values *)

(** The option object is untyped: a field may hold any value.  Numbers are
    integers here; [NaN] and fractions do not occur in any option this
    program reads otherwise than through truthiness. *)
Inductive Js : Type :=
| undefined
| null
| boolean (b : bool)
| number (z : Z)
| str (s : string)
| object (id : nat).

#[global] Instance Js_eq_dec : EqDecision Js.
Proof. solve_decision. Defined.

(** [typeof(v) === 'string'] *)
Definition is_string (v : Js) : bool :=
  match v with str _ => true | _ => false end.

(** Truthiness, as used by [||], [&&], [if] and [!]. *)
Definition truthy (v : Js) : bool :=
  match v with
  | undefined | null => false
  | boolean b => b
  | number z => negb (Z.eqb z 0)
  | str s => negb (String.eqb s "")
  | object _ => true
  end.

(** [a || b] *)
Definition js_or (a b : Js) : Js := if truthy a then a else b.

(** [a === b]: by value on primitives, by identity on objects. *)
Definition strict_eq (a b : Js) : bool := bool_decide (a = b).

(** [String(v)], the coercion applied by [+] on strings and by the [%s]
    directive of [util.format]. *)
Definition to_string (v : Js) : string :=
  match v with
  | undefined => "undefined"
  | null => "null"
  | boolean true => "true"
  | boolean false => "false"
  | number z => pretty z
  | str s => s
  | object _ => "[object Object]"
  end.

(** ** Strings *)

(** [s.split(sep)] for a one-character separator. *)
Fixpoint split (sep : ascii) (s : string) : list string :=
  match s with
  | EmptyString => [EmptyString]
  | String c s' =>
      if Ascii.eqb c sep then EmptyString :: split sep s'
      else match split sep s' with
           | h :: t => String c h :: t
           | [] => [String c EmptyString]
           end
  end.

(** [_.compact] on an array of strings: the empty string is the only falsy
    string. *)
Definition compact (l : list string) : list string :=
  filter (fun s => s <> "") l.

(** [l.join(sep)] *)
Fixpoint join (sep : string) (l : list string) : string :=
  match l with
  | [] => ""
  | [s] => s
  | s :: l' => s +:+ sep +:+ join sep l'
  end.

(** [/needle/.test(hay)] for a pattern without metacharacters. *)
Fixpoint regexp_test (needle hay : string) : bool :=
  String.prefix needle hay ||
  match hay with
  | EmptyString => false
  | String _ hay' => regexp_test needle hay'
  end.

Definition slash : ascii := "/"%char.
Definition newline : ascii := Ascii.ascii_of_nat 10.

(** ** Errors *)

(** A rejection reason or thrown value, also the error a callback is
    given.  [ErrorObject] covers [Error] instances and the client's HTTP
    errors (an object with an optional numeric [code] and an optional
    [message]).  [ErrorPrimitive c s] is a primitive given as the error of
    a callback, by its string conversion [String c s]: the promisified
    wrappers take the error branch only for a truthy value ([if (err)]),
    and the string conversion of a truthy primitive is never empty. *)
Inductive JsError : Type :=
| ErrorObject (code : option Z) (message : option string)
| ErrorPrimitive (c : ascii) (s : string).

#[global] Instance JsError_eq_dec : EqDecision JsError.
Proof. solve_decision. Defined.

(** [new Error(msg)] *)
Definition Error (msg : string) : JsError := ErrorObject None (Some msg).

(** The engine's [TypeError] on reading a property of [undefined]. *)
Definition TypeError (msg : string) : JsError := ErrorObject None (Some msg).

Definition err_code (e : JsError) : option Z :=
  match e with ErrorObject c _ => c | ErrorPrimitive _ _ => None end.

Definition err_message (e : JsError) : option string :=
  match e with ErrorObject _ m => m | ErrorPrimitive _ _ => None end.

Definition err_is_object (e : JsError) : bool :=
  match e with ErrorObject _ _ => true | ErrorPrimitive _ _ => false end.

(** The reason with which a promisified function rejects when its callback
    is given the error [e].  [Promise.promisify] and [Promise.promisifyAll]
    pass an object on and wrap a primitive: [new Error(String(e))]. *)
Definition promisified (e : JsError) : JsError :=
  match e with
  | ErrorObject _ _ => e
  | ErrorPrimitive c s => Error (String c s)
  end.

(** ** Data model of the object store *)

(** A content hash.  The store prints hashes as 40 hexadecimal digits; the
    number is what the digits denote.  In particular a hash is never the
    name of a property inherited from [Object.prototype], so the cache
    object keyed by hashes behaves as a finite map. *)
Definition Sha : Type := N.

(** One entry of a tree as the store returns it: the four canonical fields
    and whatever else the store attaches on read ([url], [size]). *)
Record TreeEntry : Type := mkEntry {
  e_path : string;
  e_mode : string;
  e_type : string;
  e_sha : Sha;
  e_extra : list (string * string)
}.

#[global] Instance TreeEntry_eq_dec : EqDecision TreeEntry.
Proof. solve_decision. Defined.

(** A tree record.  The entry array and the entry objects belong to one
    tree record only (they come from one parsed response or one deep copy),
    so they are stored inline; tree records themselves are shared by
    reference and live in the heap. *)
Record Tree : Type := mkTree {
  t_sha : Sha;
  t_tree : list TreeEntry
}.

#[global] Instance Tree_eq_dec : EqDecision Tree.
Proof. solve_decision. Defined.

(** [commit.sha] and [commit.tree.sha] *)
Record Commit : Type := mkCommit {
  c_sha : Sha;
  c_tree_sha : Sha
}.

(** [branch.object.sha] *)
Record Reference : Type := mkReference {
  r_ref : string;
  r_object_sha : Sha
}.

(** ** Requests and the call log *)

Inductive Request : Type :=
| GetReference (ref : string)
| CreateReference (ref : string) (sha : Sha)
| GetCommit (sha : Sha)
| CreateCommit (message : Js) (tree : Sha) (parents : list Sha)
| UpdateReference (ref : string) (sha : Sha)
| GetTree (sha : Sha)
| CreateTree (tree : list (option TreeEntry))
| CreateBlob (content : string) (encoding : string)
| PullRequestsCreate (title body : string) (base head : Js).

Inductive Response : Type :=
| ReferenceResponse (r : Reference)
| CommitResponse (c : Commit)
| TreeResponse (t : Tree)
| BlobResponse (sha : Sha)
| PullRequestResponse.

(** One completed call: who it was made for, what was asked and what came
    back. *)
Record Event : Type := mkEvent {
  ev_user : Js;
  ev_repo : Js;
  ev_request : Request;
  ev_outcome : JsError + Response
}.

(** Lines written to the console. *)
Inductive ConsoleLine : Type :=
| Log (format : string) (args : list string)
| LogGitdata (name : string) (loggedParams : Request)
| Warn (msg : string).

Definition request_name (rq : Request) : string :=
  match rq with
  | GetReference _ => "getReference"
  | CreateReference _ _ => "createReference"
  | GetCommit _ => "getCommit"
  | CreateCommit _ _ _ => "createCommit"
  | UpdateReference _ _ => "updateReference"
  | GetTree _ => "getTree"
  | CreateTree _ => "createTree"
  | CreateBlob _ _ => "createBlob"
  | PullRequestsCreate _ _ _ _ => "pullRequests.create"
  end.

(** ** Options of a sync request *)

Record Options : Type := mkOptions {
  opt_user : Js;
  opt_repo : Js;
  opt_localPath : Js;
  opt_repoPath : Js;
  opt_message : Js;
  opt_preserveRepoFiles : Js;
  opt_branch : Js;
  opt_baseBranch : Js;
  opt_createBranch : Js;
  opt_createPullRequest : Js;
  opt_debug : Js
}.

(** ** Plain objects used as sets of names *)

(** Property names every object literal inherits from [Object.prototype]
    under Node: a lookup [obj[name]] of one of these yields a function (or
    the prototype itself), which is truthy, whether or not the name was
    ever assigned. *)
Definition Object_prototype_names : list string :=
  [ "constructor"; "hasOwnProperty"; "isPrototypeOf"; "propertyIsEnumerable";
    "toLocaleString"; "toString"; "valueOf"; "__proto__";
    "__defineGetter__"; "__defineSetter__"; "__lookupGetter__";
    "__lookupSetter__" ].

(** [!!obj[name]] where [own] holds the names assigned [true]. *)
Definition has_truthy (own : gset string) (name : string) : bool :=
  bool_decide (name ∈ own) || bool_decide (name ∈ Object_prototype_names).

(** [_.pick(child, ['path', 'mode', 'type', 'sha'])] *)
Definition pick (child : TreeEntry) : TreeEntry :=
  {| e_path := e_path child; e_mode := e_mode child; e_type := e_type child;
     e_sha := e_sha child; e_extra := [] |}.

(** [treeChildrenForCreateRequest(tree)] *)
Definition treeChildrenForCreateRequest (tree : Tree) : list TreeEntry :=
  map pick (t_tree tree).

(** ** External collaborators *)

(** The client of the object store, one response function per operation.
    Each takes the [user] and [repo] the wrapper merges into the
    parameters, then the parameters, then the store's state; it answers
    with what its callback is given, an error or else a result, and the
    next state. *)
Record GitHubApi (Store : Type) : Type := mkGitHubApi {
  gitdata_getReference :
    Js -> Js -> string -> Store -> (JsError + Reference) * Store;
  gitdata_createReference :
    Js -> Js -> string -> Sha -> Store -> (JsError + Reference) * Store;
  gitdata_getCommit :
    Js -> Js -> Sha -> Store -> (JsError + Commit) * Store;
  gitdata_createCommit :
    Js -> Js -> Js -> Sha -> list Sha -> Store -> (JsError + Commit) * Store;
  gitdata_updateReference :
    Js -> Js -> string -> Sha -> Store -> (JsError + Reference) * Store;
  gitdata_getTree :
    Js -> Js -> Sha -> Store -> (JsError + Tree) * Store;
  gitdata_createTree :
    Js -> Js -> list (option TreeEntry) -> Store -> (JsError + Tree) * Store;
  gitdata_createBlob :
    Js -> Js -> string -> string -> Store -> (JsError + Sha) * Store;
  pullRequests_create :
    Js -> Js -> string -> string -> Js -> Js -> Store ->
    (JsError + unit) * Store
}.

Arguments gitdata_getReference {Store}.
Arguments gitdata_createReference {Store}.
Arguments gitdata_getCommit {Store}.
Arguments gitdata_createCommit {Store}.
Arguments gitdata_updateReference {Store}.
Arguments gitdata_getTree {Store}.
Arguments gitdata_createTree {Store}.
Arguments gitdata_createBlob {Store}.
Arguments pullRequests_create {Store}.

(** The local file system and the [path] module.  [fs_stat] answers
    [stat.isDirectory()]. *)
Record FileSystem : Type := mkFileSystem {
  path_join : string -> string -> string;
  fs_readdir : string -> JsError + list string;
  fs_stat : string -> JsError + bool;
  fs_readFile : string -> JsError + string
}.

(** ** The state of a run and the monad of promises *)

(** What a run can change: the remote store, the heap of tree records, the
    log of completed calls and the console. *)
Record World (Store : Type) : Type := mkWorld {
  store : Store;
  heap : list Tree;
  calls : list Event;
  console : list ConsoleLine
}.

Arguments mkWorld {Store}.
Arguments store {Store}.
Arguments heap {Store}.
Arguments calls {Store}.
Arguments console {Store}.

(** A settled promise: fulfilled with a value or rejected with a reason. *)
Inductive Result (A : Type) : Type :=
| Ok (a : A)
| Throw (e : JsError).

Arguments Ok {A}.
Arguments Throw {A}.

Definition is_ok {A} (r : Result A) : bool :=
  match r with Ok _ => true | Throw _ => false end.

Definition M (Store A : Type) : Type := World Store -> Result A * World Store.

Definition ret {Store A} (a : A) : M Store A := fun w => (Ok a, w).

Definition throw {Store A} (e : JsError) : M Store A := fun w => (Throw e, w).

(** [p.then(k)] *)
Definition bind {Store A B} (p : M Store A) (k : A -> M Store B) : M Store B :=
  fun w =>
    match p w with
    | (Ok a, w') => k a w'
    | (Throw e, w') => (Throw e, w')
    end.

(** [p.catch(h)] *)
Definition catch {Store A} (p : M Store A) (h : JsError -> M Store A)
  : M Store A :=
  fun w =>
    match p w with
    | (Ok a, w') => (Ok a, w')
    | (Throw e, w') => h e w'
    end.

Notation "x <- p ;; k" := (bind p (fun x => k))
  (at level 100, p at next level, right associativity).
Notation "p ;;; k" := (bind p (fun _ => k))
  (at level 100, right associativity).

(** A promisified call of the file system
    ([Promise.promisifyAll(require('fs-extra'))]). *)
Definition lift {Store A} (r : JsError + A) : M Store A :=
  match r with
  | inl e => throw (promisified e)
  | inr a => ret a
  end.

(** *** The heap *)

(** A freshly parsed response or a fresh copy: a new record. *)
Definition new_object {Store} (t : Tree) : M Store nat :=
  fun w =>
    (Ok (length (heap w)),
     mkWorld (store w) (heap w ++ [t]) (calls w) (console w)).

(** Reading through a reference.  A location outside the heap stands for
    [undefined]. *)
Definition deref {Store} (l : nat) : M Store Tree :=
  fun w =>
    match heap w !! l with
    | Some t => (Ok t, w)
    | None => (Throw (TypeError "Cannot read property of undefined"), w)
    end.

(** Writing through a reference: the record is changed in place. *)
Definition assign {Store} (l : nat) (t : Tree) : M Store unit :=
  fun w =>
    (Ok tt, mkWorld (store w) (<[l := t]> (heap w)) (calls w) (console w)).

(** *** The console *)

Definition console_write {Store} (line : ConsoleLine) : M Store unit :=
  fun w =>
    (Ok tt, mkWorld (store w) (heap w) (calls w) (console w ++ [line])).

(** [debug(options, message, ...)] *)
Definition debug {Store} (options : Options) (format : string)
    (args : list string) : M Store unit :=
  if truthy (opt_debug options) then console_write (Log format args)
  else ret tt.

(** ** The program *)

Section Sync.

Context {Store : Type}.
Variable github : GitHubApi Store.
Variable fs : FileSystem.

(** *** The wrapper around the [gitdata] endpoint *)

(** The parameters as logged: blob content is replaced by its length. *)
Definition loggedParams (rq : Request) : Request :=
  match rq with
  | CreateBlob content encoding =>
      CreateBlob ("[" +:+ pretty (String.length content) +:+ " characters]")
                 encoding
  | _ => rq
  end.

(** [gitData(name, params)]: log the call when debugging, pass [user] and
    [repo] along with the parameters, and settle with the answer of the
    promisified method ([Promise.promisifyAll(github.gitdata)]).  The
    completed call is appended to [calls] with the answer of the client. *)
Definition gitData {A} (options : Options) (rq : Request)
    (method : Js -> Js -> Store -> (JsError + A) * Store)
    (shape : A -> Response) : M Store A :=
  (if truthy (opt_debug options)
   then console_write (LogGitdata (request_name rq) (loggedParams rq))
   else ret tt) ;;;
  fun w =>
    let '(answer, store') :=
      method (opt_user options) (opt_repo options) (store w) in
    let event :=
      mkEvent (opt_user options) (opt_repo options) rq
        (match answer with
         | inl e => inl e
         | inr a => inr (shape a)
         end) in
    (match answer with
     | inl e => Throw (promisified e)
     | inr a => Ok a
     end,
     mkWorld store' (heap w) (calls w ++ [event]) (console w)).

Definition gitData_getReference options (ref : string) : M Store Reference :=
  gitData options (GetReference ref)
    (fun u r => gitdata_getReference github u r ref) ReferenceResponse.

Definition gitData_createReference options (ref : string) (sha : Sha)
  : M Store Reference :=
  gitData options (CreateReference ref sha)
    (fun u r => gitdata_createReference github u r ref sha) ReferenceResponse.

Definition gitData_getCommit options (sha : Sha) : M Store Commit :=
  gitData options (GetCommit sha)
    (fun u r => gitdata_getCommit github u r sha) CommitResponse.

Definition gitData_createCommit options (message : Js) (tree : Sha)
    (parents : list Sha) : M Store Commit :=
  gitData options (CreateCommit message tree parents)
    (fun u r => gitdata_createCommit github u r message tree parents)
    CommitResponse.

Definition gitData_updateReference options (ref : string) (sha : Sha)
  : M Store Reference :=
  gitData options (UpdateReference ref sha)
    (fun u r => gitdata_updateReference github u r ref sha) ReferenceResponse.

(** The tree in a response is a new record on the heap. *)
Definition gitData_getTree options (sha : Sha) : M Store nat :=
  t <- gitData options (GetTree sha)
         (fun u r => gitdata_getTree github u r sha) TreeResponse ;;
  new_object t.

Definition gitData_createTree options (tree : list (option TreeEntry))
  : M Store nat :=
  t <- gitData options (CreateTree tree)
         (fun u r => gitdata_createTree github u r tree) TreeResponse ;;
  new_object t.

Definition gitData_createBlob options (content encoding : string) : M Store Sha :=
  gitData options (CreateBlob content encoding)
    (fun u r => gitdata_createBlob github u r content encoding) BlobResponse.

(** *** [validateOptions]

    The defaults are written into the option object, which the caller goes
    on using: the validated options are returned. *)
Definition validateOptions (options : Options) : M Store Options :=
  let branch := js_or (opt_branch options) (str "master") in
  let baseBranch := js_or (opt_baseBranch options) (str "master") in
  let options :=
    mkOptions (opt_user options) (opt_repo options) (opt_localPath options)
      (opt_repoPath options) (opt_message options)
      (opt_preserveRepoFiles options) branch baseBranch
      (opt_createBranch options) (opt_createPullRequest options)
      (opt_debug options) in
  if negb (is_string (opt_user options)) then
    throw (Error "Must pass owner of repo in `user`")
  else if negb (is_string (opt_repo options)) then
    throw (Error "Must pass repo name in `repo`")
  else if negb (is_string (opt_localPath options)) then
    throw (Error "Must pass local path to sync from in `localPath`")
  else if negb (is_string (opt_repoPath options)) then
    throw (Error "Must pass path within repo to sync to in `repoPath`")
  else if negb (is_string (opt_message options)) then
    throw (Error "Must pass commit message in `message`")
  else if strict_eq (opt_baseBranch options) (opt_branch options) then
    if truthy (opt_createBranch options) then
      throw (Error ("Cannot create `branch` if it is the same as `baseBranch` ("
                    +:+ to_string (opt_branch options) +:+ ")"))
    else if truthy (opt_createPullRequest options) then
      throw (Error ("Cannot create pull request when `branch` and "
                    +:+ "`baseBranch` are the same ("
                    +:+ to_string (opt_branch options) +:+ ")."))
    else ret options
  else ret options.

(** *** [getTree] *)

(** A hit is served as [_.merge({}, cached)]: a deep copy, that is a new
    record with the same contents.  A miss is fetched from the store. *)
Definition getTree (options : Options) (treeCache : gmap Sha nat)
    (treeSha : Sha) : M Store nat :=
  match treeCache !! treeSha with
  | Some cached =>
      t <- deref cached ;;
      new_object t
  | None => gitData_getTree options treeSha
  end.

(** *** [existingTreesForPath]

    The cache object is filled in place; the function returns it next to
    the chain so that a caller who passed one sees what it now holds. *)
Fixpoint existingTreesForPath (options : Options) (rootTree : nat)
    (pathParts : list string) (treeCache : option (gmap Sha nat))
  : M Store (list nat * gmap Sha nat) :=
  let treeCache := default ∅ treeCache in
  root <- deref rootTree ;;
  let treeCache := <[t_sha root := rootTree]> treeCache in
  match pathParts with
  | [] => ret ([rootTree], treeCache)
  | path :: remainingPath =>
      match list_find
              (fun child => e_type child = "tree" /\ e_path child = path)
              (t_tree root) with
      | None => ret ([rootTree], treeCache)
      | Some (_, nextTreeInfo) =>
          nextTree <- getTree options treeCache (e_sha nextTreeInfo) ;;
          sub <- existingTreesForPath options nextTree remainingPath
                   (Some treeCache) ;;
          ret (rootTree :: sub.1, sub.2)
      end
  end.

(** *** [createTreeForPath] *)

(** [treesForPath.slice(-2)[0]]: the one before the last, the only one of
    a singleton, [undefined] of the empty array. *)
Definition slice_from_minus2 {A} (l : list A) : option A :=
  head (drop (length l - 2) l).

(** The body of the rebuild step on the parent's entry array:
    [_.find] by path, push a new child if there is none, then set
    [type], [mode] and [sha] on the child. *)
Definition set_child (entries : list TreeEntry) (lastPath : string)
    (sha : Sha) : list TreeEntry :=
  match list_find (fun child => e_path child = lastPath) entries with
  | Some (i, child) =>
      <[i := mkEntry (e_path child) "040000" "tree" sha (e_extra child)]>
        entries
  | None => entries ++ [mkEntry lastPath "040000" "tree" sha []]
  end.

(** The recursion shortens [pathParts] from its end, so it runs over the
    reversed array: the head is [pathParts.slice(-1)[0]] and the tail is
    [pathParts.slice(0, -1)]. *)
Fixpoint createTreeForPath_rev (options : Options) (treesForPath : list nat)
    (revPathParts : list string) : M Store (option nat) :=
  match revPathParts with
  | [] => ret (last treesForPath)
  | lastPath :: revRest =>
      match slice_from_minus2 treesForPath, last treesForPath with
      | Some parentTree, Some lastTree =>
          parent <- deref parentTree ;;
          child <- deref lastTree ;;
          assign parentTree
            (mkTree (t_sha parent)
               (set_child (t_tree parent) lastPath (t_sha child))) ;;;
          parent' <- deref parentTree ;;
          newTree <- gitData_createTree options
                       (map Some (treeChildrenForCreateRequest parent')) ;;
          createTreeForPath_rev options
            (removelast (removelast treesForPath) ++ [newTree]) revRest
      | _, _ => throw (TypeError "Cannot read property 'tree' of undefined")
      end
  end.

Definition createTreeForPath (options : Options) (treesForPath : list nat)
    (pathParts : list string) : M Store (option nat) :=
  createTreeForPath_rev options treesForPath (rev pathParts).

(** *** [createTreeForSingleDir] *)

(** What happens for one file name: stat it; a directory is skipped with a
    warning and yields [null]; a file is read, uploaded as a blob, marked
    in [pathExists] and yields its entry. *)
Definition createEntryFor (options : Options) (localPath filename : string)
    (pathExists : gset string) : M Store (option TreeEntry * gset string) :=
  let fullPath := path_join fs localPath filename in
  isDirectory <- lift (fs_stat fs fullPath) ;;
  if (isDirectory : bool) then
    console_write
      (Warn ("Directory encountered, will not recurse into: " +:+ fullPath)) ;;;
    ret (None, pathExists)
  else
    content <- lift (fs_readFile fs fullPath) ;;
    sha <- gitData_createBlob options content "utf-8" ;;
    ret (Some (mkEntry filename "100644" "blob" sha []),
         {[filename]} ∪ pathExists).

(** [Promise.all(filenames.map(...))].  Every chain is started and runs to
    its end whatever becomes of the others; the result is the array of
    their values or, if some chain was rejected, a rejection.  The chains
    are interleaved by the event loop; the model runs them one after the
    other in the order of the array, and reports the first rejection in
    that order. *)
Fixpoint promise_all_map {A S : Type} (f : string -> S -> M Store (A * S))
    (filenames : list string) (s : S) : M Store (list A * S) :=
  match filenames with
  | [] => ret ([], s)
  | filename :: rest =>
      fun w =>
        let '(r, w1) := f filename s w in
        let s1 := match r with Ok (_, s') => s' | Throw _ => s end in
        let '(rs, w2) := promise_all_map f rest s1 w1 in
        (match r, rs with
         | Ok (a, _), Ok (l, s2) => Ok (a :: l, s2)
         | Throw e, _ => Throw e
         | Ok _, Throw e => Throw e
         end, w2)
  end.

Definition createTreeForSingleDir (options : Options) (localPath : Js)
    (baseTree : option nat) : M Store nat :=
  match localPath with
  | str localPath =>
      filenames <- lift (fs_readdir fs localPath) ;;
      made <- promise_all_map (createEntryFor options localPath) filenames ∅ ;;
      let children := made.1 in
      let pathExists := made.2 in
      children <-
        match baseTree with
        | Some baseTree =>
            base <- deref baseTree ;;
            ret (app children
                   (map Some
                      (filter (fun child =>
                                 has_truthy pathExists (e_path child) = false)
                              (treeChildrenForCreateRequest base))))
        | None => ret children
        end ;;
      gitData_createTree options children
  | _ => throw (TypeError "path must be a string")
  end.

(** *** [createNewTreeForPath] *)

Definition createNewTreeForPath (options : Options) (treesForPath : list nat)
    (pathParts : list string) : M Store (option nat) :=
  let full := bool_decide (length treesForPath = length pathParts + 1) in
  (if full then debug options "Target path already exists" [] else ret tt) ;;;
  let existingTree := if full then last treesForPath else None in
  let treesForPath := if full then removelast treesForPath else treesForPath in
  newTargetTree <-
    (if bool_decide (length treesForPath = length pathParts) then
       createTreeForSingleDir options (opt_localPath options)
         (match existingTree with
          | Some t =>
              if truthy (opt_preserveRepoFiles options) then Some t else None
          | None => None
          end)
     else
       throw (Error ("Could not find existing parent dir for repo path: "
                     +:+ to_string (opt_repoPath options)))) ;;
  createTreeForPath options (treesForPath ++ [newTargetTree]) pathParts.

(** *** [commitChanges], [getLatestCommit] *)

Definition commitChanges (options : Options) (latestCommit : Commit)
    (newRootTree : nat) : M Store Reference :=
  root <- deref newRootTree ;;
  newCommit <- gitData_createCommit options (opt_message options)
                 (t_sha root) [c_sha latestCommit] ;;
  gitData_updateReference options ("heads/" +:+ to_string (opt_branch options))
    (c_sha newCommit).

Definition getLatestCommit (options : Options) (branch : Reference)
  : M Store Commit :=
  gitData_getCommit options (r_object_sha branch).

(** *** [getBranchOrNull], [createBranch] *)

Definition getBranchOrNull (options : Options) (branchName : Js)
  : M Store (option Reference) :=
  catch
    (branch <- gitData_getReference options
                 ("heads/" +:+ to_string branchName) ;;
     ret (Some branch))
    (fun error =>
       if bool_decide (err_code error = Some 404%Z) then ret None
       else throw error).

Definition createBranch (options : Options) (branchName baseBranchName : Js)
  : M Store Reference :=
  baseBranch <- gitData_getReference options
                  ("heads/" +:+ to_string baseBranchName) ;;
  gitData_createReference options ("refs/heads/" +:+ to_string branchName)
    (r_object_sha baseBranch).

(** *** [createPullRequest] *)

(** The call goes to [github.pullRequests.create] directly, not through
    the [gitdata] wrapper, by way of [Promise.promisify]; it is logged
    among the calls all the same, with the answer of the client. *)
Definition pullRequestsAsync (options : Options) (title body : string)
  : M Store unit :=
  fun w =>
    let '(answer, store') :=
      pullRequests_create github (opt_user options) (opt_repo options)
        title body (opt_baseBranch options) (opt_branch options) (store w) in
    let rq :=
      PullRequestsCreate title body (opt_baseBranch options)
        (opt_branch options) in
    let event :=
      mkEvent (opt_user options) (opt_repo options) rq
        (match answer with
         | inl e => inl e
         | inr _ => inr PullRequestResponse
         end) in
    (match answer with
     | inl e => Throw (promisified e)
     | inr _ => Ok tt
     end,
     mkWorld store' (heap w) (calls w ++ [event]) (console w)).

(** The test applied to a rejection of the pull request. *)
Definition already_exists (err : JsError) : bool :=
  err_is_object err &&
  match err_message err with
  | Some message => regexp_test "already exists" message
  | None => false
  end.

Definition createPullRequest (options : Options) : M Store unit :=
  match opt_message options with
  | str message =>
      let lines := split newline message in
      catch
        (pullRequestsAsync options (default "" (head lines))
           (join (String newline EmptyString) (tail lines)))
        (fun err =>
           if already_exists err then
             debug options
               "Pull request from branch %s to %s already exists, ignoring."
               [to_string (opt_branch options);
                to_string (opt_baseBranch options)]
           else throw err)
  | _ => throw (TypeError "options.message.split is not a function")
  end.

(** *** [syncToGitHub] *)

(** Lines 430-438: the branch, created from the base branch on request. *)
Definition resolveBranch (options : Options) : M Store Reference :=
  branch <- getBranchOrNull options (opt_branch options) ;;
  match branch with
  | Some branch => ret branch
  | None =>
      if truthy (opt_createBranch options) then
        createBranch options (opt_branch options) (opt_baseBranch options)
      else
        throw (Error ("Branch `" +:+ to_string (opt_branch options)
                      +:+ "` does not exist"))
  end.

(** Lines 447-458: what is done with the new root tree. *)
Definition publish (options : Options) (commit : Commit)
    (newRootTree : option nat) : M Store unit :=
  match newRootTree with
  | Some newRootTree =>
      root <- deref newRootTree ;;
      if bool_decide (t_sha root = c_tree_sha commit) then
        debug options "No changes to tree, not committing anything" []
      else
        commitChanges options commit newRootTree ;;;
        if truthy (opt_createPullRequest options) then
          createPullRequest options
        else ret tt
  | None => throw (TypeError "Cannot read property 'sha' of undefined")
  end.

(** Lines 440-447: from the branch to the new root tree. *)
Definition rebuild (options : Options) (pathParts : list string)
    (branch : Reference) : M Store (Commit * option nat) :=
  commit <- getLatestCommit options branch ;;
  rootTree <- gitData_getTree options (c_tree_sha commit) ;;
  found <- existingTreesForPath options rootTree pathParts None ;;
  newRootTree <- createNewTreeForPath options found.1 pathParts ;;
  ret (commit, newRootTree).

(** A failed validation is thrown before a promise exists; it is a
    rejection of the same kind here.  [initClient] and [wrapGitData] build
    the client and call nothing: the client is the variable [github]. *)
Definition syncToGitHub (options : Options) : M Store unit :=
  debug options "Sync github started" [] ;;;
  options <- validateOptions options ;;
  match opt_repoPath options with
  | str repoPath =>
      let pathParts := compact (split slash repoPath) in
      branch <- resolveBranch options ;;
      built <- rebuild options pathParts branch ;;
      publish options built.1 built.2 ;;;
      debug options "Sync to github complete!" []
  | _ => throw (TypeError "options.repoPath.split is not a function")
  end.

End Sync.

(** ** Vocabulary of the statements *)

(** [Emits names p]: whatever the state [p] starts from and however it
    settles, the calls it completes are appended to the log and each is
    one of the operations listed in [names]. *)
Definition Emits {Store A} (names : list string) (p : M Store A) : Prop :=
  forall w r w',
    p w = (r, w') ->
    exists evs,
      calls w' = (calls w ++ evs)%list /\
      Forall (fun ev => request_name (ev_request ev) ∈ names) evs.

(** The requests among the events of a log. *)
Definition requests (evs : list Event) : list Request := map ev_request evs.

(** The options after [validateOptions] has written the defaults. *)
Definition defaulted (options : Options) : Options :=
  mkOptions (opt_user options) (opt_repo options) (opt_localPath options)
    (opt_repoPath options) (opt_message options)
    (opt_preserveRepoFiles options)
    (js_or (opt_branch options) (str "master"))
    (js_or (opt_baseBranch options) (str "master"))
    (opt_createBranch options) (opt_createPullRequest options)
    (opt_debug options).

(** The rejected option objects, in the words of the validation rules:
    one of the five required fields is not a string, or the two branches
    coincide after defaulting while [createBranch] or [createPullRequest]
    is set. *)
Definition rejected (options : Options) : Prop :=
  is_string (opt_user options) = false \/
  is_string (opt_repo options) = false \/
  is_string (opt_localPath options) = false \/
  is_string (opt_repoPath options) = false \/
  is_string (opt_message options) = false \/
  (js_or (opt_baseBranch options) (str "master")
   = js_or (opt_branch options) (str "master") /\
   truthy (opt_createBranch options) = true) \/
  (js_or (opt_baseBranch options) (str "master")
   = js_or (opt_branch options) (str "master") /\
   truthy (opt_createPullRequest options) = true).

Definition all_names : list string :=
  [ "getReference"; "createReference"; "getCommit"; "createCommit";
    "updateReference"; "getTree"; "createTree"; "createBlob";
    "pullRequests.create" ].

(** The state after [debug] has been called with a line. *)
Definition logged {Store} (options : Options) (line : ConsoleLine)
    (w : World Store) : World Store :=
  if truthy (opt_debug options) then
    mkWorld (store w) (heap w) (calls w) (console w ++ [line])
  else w.

(** The outcome recorded for an answer of the store. *)
Definition outcome {A} (shape : A -> Response) (answer : JsError + A)
  : JsError + Response :=
  match answer with
  | inl e => inl e
  | inr a => inr (shape a)
  end.

(** How a promisified call settles on an answer. *)
Definition settle {A} (answer : JsError + A) : Result A :=
  match answer with
  | inl e => Throw (promisified e)
  | inr a => Ok a
  end.

(** The state after the wrapper has completed a call. *)
Definition after_call {Store} (options : Options) (rq : Request)
    (out : JsError + Response) (store' : Store) (w : World Store)
  : World Store :=
  mkWorld store' (heap w)
    (calls w ++ [mkEvent (opt_user options) (opt_repo options) rq out])
    (console (logged options
                (LogGitdata (request_name rq) (loggedParams rq)) w)).

(** The requests completed between two states of one run. *)
Definition requests_since {Store} (w w' : World Store) : list Request :=
  requests (drop (length (calls w)) (calls w')).

(** The pipeline once the options have been accepted (lines 430-462). *)
Definition pipeline {Store} (github : GitHubApi Store) (fs : FileSystem)
    (options : Options) (pathParts : list string) : M Store unit :=
  branch <- resolveBranch github options ;;
  built <- rebuild github fs options pathParts branch ;;
  publish github options built.1 built.2 ;;;
  debug options "Sync to github complete!" [].

(** The text of a rejection, in which the handler of a rejected pull
    request looks for "already exists": the message of an error object
    and, for a primitive, its string conversion, which is the message of
    the [Error] the handler is given in its place. *)
Definition rejection_text (e : JsError) : option string :=
  match e with
  | ErrorObject _ message => message
  | ErrorPrimitive c s => Some (String c s)
  end.

(** Title and body of the pull request: the first line of the commit
    message and the remaining lines. *)
Definition pull_title (message : string) : string :=
  default "" (head (split newline message)).

Definition pull_body (message : string) : string :=
  join (String newline EmptyString) (tail (split newline message)).

(** The state after [github.pullRequests.create] has completed. *)
Definition after_pull {Store} (options : Options) (message : string)
    (answer : JsError + unit) (store' : Store) (w : World Store)
  : World Store :=
  mkWorld store' (heap w)
    (calls w ++
     [mkEvent (opt_user options) (opt_repo options)
        (PullRequestsCreate (pull_title message) (pull_body message)
           (opt_baseBranch options) (opt_branch options))
        (outcome (fun _ => PullRequestResponse) answer)])
    (console w).

(** The chain as [createNewTreeForPath] uses it: without the leaf that was
    already there when the whole path exists. *)
Definition without_existing_leaf (treesForPath : list nat)
    (pathParts : list string) : list nat :=
  if bool_decide (length treesForPath = length pathParts + 1)
  then removelast treesForPath else treesForPath.

(** *** Chains of trees along a path *)

(** Every reference held in a cache points into the heap. *)
Definition cache_ok (h : list Tree) (cache : gmap Sha nat) : Prop :=
  forall sha l, cache !! sha = Some l -> is_Some (h !! l).

(** The entry the resolver follows for a segment. *)
Definition subtree_entry (t : Tree) (path : string)
  : option (nat * TreeEntry) :=
  list_find (fun child => e_type child = "tree" /\ e_path child = path)
    (t_tree t).

(** Where the tree for a hash comes from: the contents of the tree the
    cache holds under that hash, or else the store's answer to a [getTree]
    request for it. *)
Definition Served (h : list Tree) (evs : list Event) (cache : gmap Sha nat)
    (sha : Sha) (t : Tree) : Prop :=
  match cache !! sha with
  | Some cached => h !! cached = Some t
  | None =>
      exists ev, ev ∈ evs /\ ev_request ev = GetTree sha /\
                 ev_outcome ev = inr (TreeResponse t)
  end.

(** [Resolved h evs cache chain pathParts]: in the heap [h], [chain] is
    the chain of trees along [pathParts], as far as it exists.  It ends
    where the path ends or at the first segment for which the tree has no
    entry of type tree; each further tree is the one served for the hash
    of the entry found in its parent, the cache having received the
    parent first. *)
Inductive Resolved (h : list Tree) (evs : list Event)
  : gmap Sha nat -> list nat -> list string -> Prop :=
| resolved_end cache l t :
    h !! l = Some t ->
    Resolved h evs cache [l] []
| resolved_stop cache l t path rest :
    h !! l = Some t ->
    subtree_entry t path = None ->
    Resolved h evs cache [l] (path :: rest)
| resolved_step cache l t path rest i e l' t' chain :
    h !! l = Some t ->
    subtree_entry t path = Some (i, e) ->
    h !! l' = Some t' ->
    Served h evs (<[t_sha t := l]> cache) (e_sha e) t' ->
    Resolved h evs (<[t_sha t := l]> cache) (l' :: chain) rest ->
    Resolved h evs cache (l :: l' :: chain) (path :: rest).

(** *** Rebuilt trees *)

(** An entry as it is submitted again: the path, the mode, the type and
    the hash of the entry it comes from, and nothing else. *)
Definition carried_over (old new : TreeEntry) : Prop :=
  e_path new = e_path old /\ e_mode new = e_mode old /\
  e_type new = e_type old /\ e_sha new = e_sha old /\ e_extra new = [].

(** [Rebuilt old segment childSha new]: [new] is the entry array submitted
    for a parent whose entries were [old], given the segment that leads to
    the child and the hash of the finished child.  Entry by entry, in the
    order of [old]: the entries before the first one of the segment are
    carried over; the first entry of the segment becomes a directory with
    mode 040000 pointing at the child, and the entries after it are
    carried over; if no entry is of the segment, such a directory is added
    at the end. *)
Inductive Rebuilt
  : list TreeEntry -> string -> Sha -> list TreeEntry -> Prop :=
| rebuilt_pushed segment childSha :
    Rebuilt [] segment childSha [mkEntry segment "040000" "tree" childSha []]
| rebuilt_found hit old segment childSha new :
    e_path hit = segment ->
    Forall2 carried_over old new ->
    Rebuilt (hit :: old) segment childSha
      (mkEntry segment "040000" "tree" childSha [] :: new)
| rebuilt_sibling sibling old segment childSha entry new :
    e_path sibling <> segment ->
    carried_over sibling entry ->
    Rebuilt old segment childSha new ->
    Rebuilt (sibling :: old) segment childSha (entry :: new).

(** [RebuildLog h user repo childSha parents segments evs result]: the
    calls of a rebuild that starts from a finished child with hash
    [childSha] and climbs through [parents] (deepest first) along
    [segments] (deepest first).  Each step is one [createTree] request
    whose entries are the rebuilt entries of the parent as it stands in
    [h]; the hash in the store's answer is the child of the next step.
    [result] is the hash of the new root, or [None] if the store rejected
    a request, at which point the rebuild stops. *)
Inductive RebuildLog (h : list Tree) (user repo : Js)
  : Sha -> list nat -> list string -> list Event -> option Sha -> Prop :=
| rebuild_done childSha :
    RebuildLog h user repo childSha [] [] [] (Some childSha)
| rebuild_step childSha parent old segment parents segments new answer evs
    result :
    h !! parent = Some old ->
    Rebuilt (t_tree old) segment childSha new ->
    RebuildLog h user repo (t_sha answer) parents segments evs result ->
    RebuildLog h user repo childSha (parent :: parents) (segment :: segments)
      (mkEvent user repo (CreateTree (map Some new))
         (inr (TreeResponse answer)) :: evs)
      result
| rebuild_rejected childSha parent old segment parents segments new e :
    h !! parent = Some old ->
    Rebuilt (t_tree old) segment childSha new ->
    RebuildLog h user repo childSha (parent :: parents) (segment :: segments)
      [mkEvent user repo (CreateTree (map Some new)) (inl e)]
      None.

(** *** The cache and the rebuild *)

(** [Rewritten old segment childSha new]: [new] is the entry array of a
    parent after the rebuild step has written to it in place, its entries
    having been [old].  The first entry of the segment has become a
    directory with mode 040000 pointing at the child, and keeps the other
    fields it had; every other entry is as it was, at its place; if no
    entry is of the segment, a directory entry with these four fields and
    no other is added at the end. *)
Inductive Rewritten
  : list TreeEntry -> string -> Sha -> list TreeEntry -> Prop :=
| rewritten_pushed segment childSha :
    Rewritten [] segment childSha [mkEntry segment "040000" "tree" childSha []]
| rewritten_found hit old segment childSha :
    e_path hit = segment ->
    Rewritten (hit :: old) segment childSha
      (mkEntry segment "040000" "tree" childSha (e_extra hit) :: old)
| rewritten_sibling sibling old segment childSha new :
    e_path sibling <> segment ->
    Rewritten old segment childSha new ->
    Rewritten (sibling :: old) segment childSha (sibling :: new).

(** The trees a cache holds are the same after a computation as before. *)
Definition cache_untouched {Store} (cache : gmap Sha nat)
    (w w' : World Store) : Prop :=
  forall sha held, cache !! sha = Some held -> heap w' !! held = heap w !! held.

(** The defensive-copy invariant read as a statement about a whole sync:
    whatever the resolver has put in its cache is left as it was by the
    snapshot and rebuild step that follows. *)
Definition cached_trees_never_mutated : Prop :=
  forall (Store : Type) (github : GitHubApi Store) (fs : FileSystem)
         (options : Options) (rootTree : nat) (pathParts : list string)
         (w w1 w2 : World Store) (chain : list nat) (cache : gmap Sha nat)
         (r : Result (option nat)),
    existingTreesForPath github options rootTree pathParts None w
    = (Ok (chain, cache), w1) ->
    createNewTreeForPath github fs options chain pathParts w1 = (r, w2) ->
    cache_untouched cache w1 w2.

(** *** The snapshot of the local directory *)

(** What the builder makes of one file name: [null] for a directory, and
    for a file the entry of the blob that a completed [createBlob] request
    for its content answered. *)
Definition LocalChild (fs : FileSystem) (localPath : string)
    (evs : list Event) (filename : string) (child : option TreeEntry)
  : Prop :=
  match child with
  | None => fs_stat fs (path_join fs localPath filename) = inr true
  | Some e =>
      fs_stat fs (path_join fs localPath filename) = inr false /\
      exists content sha,
        fs_readFile fs (path_join fs localPath filename) = inr content /\
        e = mkEntry filename "100644" "blob" sha [] /\
        exists ev, ev ∈ evs /\ ev_request ev = CreateBlob content "utf-8" /\
                   ev_outcome ev = inr (BlobResponse sha)
  end.

(** The paths of the entries created from local files. *)
Definition created_paths (children : list (option TreeEntry)) : gset string :=
  list_to_set (omap (fun child => e_path <$> child) children).

(** The entries taken over from the existing tree. *)
Definition kept_from_base (pathExists : gset string) (base : Tree)
  : list TreeEntry :=
  filter (fun child => has_truthy pathExists (e_path child) = false)
    (treeChildrenForCreateRequest base).

(** * Vocabulary of the further properties *)

(** *** Text *)

(** The character occurs in the string. *)
Fixpoint occurs (c : ascii) (s : string) : bool :=
  match s with
  | EmptyString => false
  | String c' s' => Ascii.eqb c' c || occurs c s'
  end.

(** A path segment: not empty, no slash. *)
Definition segment (s : string) : Prop := s <> "" /\ occurs slash s = false.

(** *** What a run leaves behind *)

(** [Traced R p]: whatever [p] starts from and however it settles, the
    calls it completes and the lines it writes are appended to the log and
    to the console, and they are related by [R]. *)
Definition Traced {Store A} (R : list Event -> list ConsoleLine -> Prop)
    (p : M Store A) : Prop :=
  forall w r w',
    p w = (r, w') ->
    exists evs lines,
      calls w' = (calls w ++ evs)%list /\
      console w' = (console w ++ lines)%list /\
      R evs lines.

(** Relations that hold of nothing and are kept by putting runs one after
    the other. *)
Class Additive (R : list Event -> list ConsoleLine -> Prop) : Prop := {
  additive_nil : R [] [];
  additive_app evs1 lines1 evs2 lines2 :
    R evs1 lines1 -> R evs2 lines2 ->
    R (evs1 ++ evs2)%list (lines1 ++ lines2)%list
}.

(** What [debug] writes. *)
Definition debug_lines (options : Options) (line : ConsoleLine)
  : list ConsoleLine :=
  if truthy (opt_debug options) then [line] else [].

(** What [R] has to grant for the elementary steps of a sync with given
    options: a call of [debug], a warning, a call through the [gitdata]
    wrapper, the creation of the pull request. *)
Record Leaves (R : list Event -> list ConsoleLine -> Prop)
    (options : Options) : Prop := {
  leaf_additive : Additive R;
  leaf_debug format args : R [] (debug_lines options (Log format args));
  leaf_warn msg : R [] [Warn msg];
  leaf_gitdata rq out :
    request_name rq <> "pullRequests.create" ->
    R [mkEvent (opt_user options) (opt_repo options) rq out]
      (debug_lines options (LogGitdata (request_name rq) (loggedParams rq)));
  leaf_pull title body out :
    R [mkEvent (opt_user options) (opt_repo options)
         (PullRequestsCreate title body (opt_baseBranch options)
            (opt_branch options)) out] []
}.

(** Every call is made for the user and the repository of the options. *)
Definition made_for (options : Options) (evs : list Event)
    (lines : list ConsoleLine) : Prop :=
  Forall (fun ev => ev_user ev = opt_user options /\
                    ev_repo ev = opt_repo options) evs.

(** The [gitdata] lines of the console: name and logged parameters. *)
Definition gitdata_lines (lines : list ConsoleLine)
  : list (string * Request) :=
  omap (fun line => match line with
                    | LogGitdata name params => Some (name, params)
                    | _ => None
                    end) lines.

(** The calls that went through the [gitdata] wrapper. *)
Definition through_wrapper (evs : list Event) : list Event :=
  filter (fun ev => request_name (ev_request ev) <> "pullRequests.create") evs.

Definition is_warning (line : ConsoleLine) : Prop :=
  match line with Warn _ => True | _ => False end.

(** The console mirrors the calls: with [debug] set, the [gitdata] lines
    are the calls made through the wrapper, in order, with their logged
    parameters; without it there is no such line and nothing but
    warnings. *)
Definition console_mirrors (options : Options) (evs : list Event)
    (lines : list ConsoleLine) : Prop :=
  gitdata_lines lines
  = (if truthy (opt_debug options)
     then map (fun ev => (request_name (ev_request ev),
                          loggedParams (ev_request ev)))
              (through_wrapper evs)
     else []) /\
  (truthy (opt_debug options) = false -> Forall is_warning lines).

(** *** The writes that end a sync *)

(** [WriteTail options commit evs]: the calls by which a sync publishes a
    new root tree on top of [commit], as far as they get.  Nothing; or a
    [createCommit] for a tree other than the tree of [commit], with
    [commit] as its only parent, that the store rejected; or that commit
    accepted, followed by the [updateReference] of the branch to the new
    commit; or both accepted, followed by the creation of the pull request
    when [createPullRequest] is set. *)
Inductive WriteTail (options : Options) (commit : Commit)
  : list Event -> Prop :=
| writes_nothing : WriteTail options commit []
| writes_commit_rejected tree e :
    tree <> c_tree_sha commit ->
    WriteTail options commit
      [mkEvent (opt_user options) (opt_repo options)
         (CreateCommit (opt_message options) tree [c_sha commit]) (inl e)]
| writes_update tree newCommit out :
    tree <> c_tree_sha commit ->
    match out with
    | inl _ => True
    | inr _ => truthy (opt_createPullRequest options) = false
    end ->
    WriteTail options commit
      [mkEvent (opt_user options) (opt_repo options)
         (CreateCommit (opt_message options) tree [c_sha commit])
         (inr (CommitResponse newCommit));
       mkEvent (opt_user options) (opt_repo options)
         (UpdateReference ("heads/" +:+ to_string (opt_branch options))
            (c_sha newCommit)) out]
| writes_pull tree newCommit updated title body out :
    tree <> c_tree_sha commit ->
    truthy (opt_createPullRequest options) = true ->
    WriteTail options commit
      [mkEvent (opt_user options) (opt_repo options)
         (CreateCommit (opt_message options) tree [c_sha commit])
         (inr (CommitResponse newCommit));
       mkEvent (opt_user options) (opt_repo options)
         (UpdateReference ("heads/" +:+ to_string (opt_branch options))
            (c_sha newCommit)) (inr (ReferenceResponse updated));
       mkEvent (opt_user options) (opt_repo options)
         (PullRequestsCreate title body (opt_baseBranch options)
            (opt_branch options)) out].

(** The operations that read the store or upload content. *)
Definition read_and_upload_names : list string :=
  [ "getReference"; "createReference"; "getCommit"; "getTree"; "createBlob";
    "createTree" ].

(** The cache after the trees of a chain have been recorded in it, each
    under its own hash, from the root down: [treeCache[tree.sha] = tree]. *)
Definition recorded (h : list Tree) (cache : gmap Sha nat) (chain : list nat)
  : gmap Sha nat :=
  foldl (fun cache l =>
           match h !! l with
           | Some t => <[t_sha t := l]> cache
           | None => cache
           end) cache chain.

(** The calls by which a sync settles on its branch, with the result.  The
    branch is looked up once.  If the store answers it, that is all.  If
    the lookup fails with another code than 404, the error is the result,
    as the promisified method passes it on.
    If it fails with 404, nothing more is asked unless [createBranch] is
    set; then the base branch is looked up, and only if it is answered is
    the reference created, at the commit of the base branch. *)
Inductive BranchTrace (options : Options)
  : list Event -> Result Reference -> Prop :=
| branch_found branch :
    BranchTrace options
      [mkEvent (opt_user options) (opt_repo options)
         (GetReference ("heads/" +:+ to_string (opt_branch options)))
         (inr (ReferenceResponse branch))]
      (Ok branch)
| branch_lookup_failed error :
    err_code error <> Some 404%Z ->
    BranchTrace options
      [mkEvent (opt_user options) (opt_repo options)
         (GetReference ("heads/" +:+ to_string (opt_branch options)))
         (inl error)]
      (Throw (promisified error))
| branch_missing error :
    err_code error = Some 404%Z ->
    truthy (opt_createBranch options) = false ->
    BranchTrace options
      [mkEvent (opt_user options) (opt_repo options)
         (GetReference ("heads/" +:+ to_string (opt_branch options)))
         (inl error)]
      (Throw (Error ("Branch `" +:+ to_string (opt_branch options)
                     +:+ "` does not exist")))
| branch_base_failed error baseError :
    err_code error = Some 404%Z ->
    truthy (opt_createBranch options) = true ->
    BranchTrace options
      [mkEvent (opt_user options) (opt_repo options)
         (GetReference ("heads/" +:+ to_string (opt_branch options)))
         (inl error);
       mkEvent (opt_user options) (opt_repo options)
         (GetReference ("heads/" +:+ to_string (opt_baseBranch options)))
         (inl baseError)]
      (Throw (promisified baseError))
| branch_created error baseBranch answer :
    err_code error = Some 404%Z ->
    truthy (opt_createBranch options) = true ->
    BranchTrace options
      [mkEvent (opt_user options) (opt_repo options)
         (GetReference ("heads/" +:+ to_string (opt_branch options)))
         (inl error);
       mkEvent (opt_user options) (opt_repo options)
         (GetReference ("heads/" +:+ to_string (opt_baseBranch options)))
         (inr (ReferenceResponse baseBranch));
       mkEvent (opt_user options) (opt_repo options)
         (CreateReference ("refs/heads/" +:+ to_string (opt_branch options))
            (r_object_sha baseBranch))
         (outcome ReferenceResponse answer)]
      (settle answer).

(** *** What does not depend on [debug] *)

(** Two states that differ in what the console holds, at most. *)
Definition same_state {Store} (w1 w2 : World Store) : Prop :=
  store w1 = store w2 /\ heap w1 = heap w2 /\ calls w1 = calls w2.

(** Two computations that settle alike and leave the same state behind,
    the console apart, when started in the same state, the console apart. *)
Definition Agree {Store A} (p q : M Store A) : Prop :=
  forall w1 w2,
    same_state w1 w2 ->
    (p w1).1 = (q w2).1 /\ same_state (p w1).2 (q w2).2.

(** The options with another value of [debug]. *)
Definition with_debug (d : Js) (options : Options) : Options :=
  mkOptions (opt_user options) (opt_repo options) (opt_localPath options)
    (opt_repoPath options) (opt_message options)
    (opt_preserveRepoFiles options) (opt_branch options)
    (opt_baseBranch options) (opt_createBranch options)
    (opt_createPullRequest options) d.

(** *** Why a sync is rejected *)

(** The reasons for which a sync is rejected: the options do not pass
    validation, and then nothing has been called; the branch does not
    exist and is not to be created; the parent of the target does not
    exist; the store rejected one of the calls; or the file system could
    not list the local directory, or stat or read one of the files listed
    in it.  An error of the store or of the file system is the reason as
    the promisified function passes it on. *)
Inductive Cause (fs : FileSystem) (options : Options) (evs : list Event)
  : JsError -> Prop :=
| cause_options msg :
    rejected options -> evs = [] -> Cause fs options evs (Error msg)
| cause_branch :
    truthy (opt_createBranch options) = false ->
    Cause fs options evs
      (Error ("Branch `" +:+ to_string (opt_branch options)
              +:+ "` does not exist"))
| cause_parent :
    Cause fs options evs
      (Error ("Could not find existing parent dir for repo path: "
              +:+ to_string (opt_repoPath options)))
| cause_store ev e :
    ev ∈ evs -> ev_outcome ev = inl e ->
    Cause fs options evs (promisified e)
| cause_readdir localPath e :
    opt_localPath options = str localPath ->
    fs_readdir fs localPath = inl e ->
    Cause fs options evs (promisified e)
| cause_file localPath filenames filename e :
    opt_localPath options = str localPath ->
    fs_readdir fs localPath = inr filenames ->
    filename ∈ filenames ->
    fs_stat fs (path_join fs localPath filename) = inl e \/
    fs_readFile fs (path_join fs localPath filename) = inl e ->
    Cause fs options evs (promisified e).

(** *** The trees the store has created *)

(** The hashes of the trees with which the store answered the [createTree]
    requests of a log, in the order of the requests. *)
Definition created_trees (evs : list Event) : list Sha :=
  omap (fun ev =>
          match ev_request ev, ev_outcome ev with
          | CreateTree _, inr (TreeResponse t) => Some (t_sha t)
          | _, _ => None
          end) evs.

(** ** A store and a file system to run the program on *)

(** A small content-addressed store kept in association lists: creating a
    tree or a blob whose contents are already stored answers the stored
    hash, anything new receives the next free hash. *)
Module Mock.

Record Store : Type := mkStore {
  refs : list (string * Sha);
  commits : list (Sha * Sha);
  trees : list (Sha * list TreeEntry);
  blobs : list (string * Sha);
  next : Sha;
  pull : JsError + unit
}.

Fixpoint assoc {K V} `{EqDecision K} (k : K) (l : list (K * V)) : option V :=
  match l with
  | [] => None
  | (k', v) :: l' => if decide (k = k') then Some v else assoc k l'
  end.

Fixpoint hash_of {K V} `{EqDecision V} (v : V) (l : list (K * V)) : option K :=
  match l with
  | [] => None
  | (k, v') :: l' => if decide (v = v') then Some k else hash_of v l'
  end.

Definition not_found : JsError := ErrorObject (Some 404%Z) (Some "Not Found").

Definition invalid : JsError :=
  ErrorObject (Some 422%Z) (Some "Invalid tree info").

(** On read the store attaches a [url] to every entry. *)
Definition with_url (e : TreeEntry) : TreeEntry :=
  mkEntry (e_path e) (e_mode e) (e_type e) (e_sha e)
    [("url", "https://api.github.com/repos/git/" +:+ e_type e +:+ "s")].

Definition getReference (user repo : Js) (ref : string) (s : Store)
  : (JsError + Reference) * Store :=
  match assoc ref (refs s) with
  | Some sha => (inr (mkReference ref sha), s)
  | None => (inl not_found, s)
  end.

(** A reference is created under its full name [refs/...] and looked up
    without the prefix. *)
Definition createReference (user repo : Js) (ref : string) (sha : Sha)
    (s : Store) : (JsError + Reference) * Store :=
  (inr (mkReference ref sha),
   mkStore ((String.substring 5 (String.length ref - 5) ref, sha) :: refs s)
     (commits s) (trees s) (blobs s) (next s) (pull s)).

Definition getCommit (user repo : Js) (sha : Sha) (s : Store)
  : (JsError + Commit) * Store :=
  match assoc sha (commits s) with
  | Some tree => (inr (mkCommit sha tree), s)
  | None => (inl not_found, s)
  end.

Definition createCommit (user repo : Js) (message : Js) (tree : Sha)
    (parents : list Sha) (s : Store) : (JsError + Commit) * Store :=
  (inr (mkCommit (next s) tree),
   mkStore (refs s) ((next s, tree) :: commits s) (trees s) (blobs s)
     (N.succ (next s)) (pull s)).

Definition updateReference (user repo : Js) (ref : string) (sha : Sha)
    (s : Store) : (JsError + Reference) * Store :=
  (inr (mkReference ref sha),
   mkStore ((ref, sha) :: refs s) (commits s) (trees s) (blobs s) (next s)
     (pull s)).

Definition getTree (user repo : Js) (sha : Sha) (s : Store)
  : (JsError + Tree) * Store :=
  match assoc sha (trees s) with
  | Some entries => (inr (mkTree sha (map with_url entries)), s)
  | None => (inl not_found, s)
  end.

(** A [null] among the entries is refused. *)
Definition createTree (user repo : Js) (tree : list (option TreeEntry))
    (s : Store) : (JsError + Tree) * Store :=
  if forallb (fun child => bool_decide (is_Some child)) tree then
    let entries := omap (fun child => child) tree in
    match hash_of entries (trees s) with
    | Some sha => (inr (mkTree sha (map with_url entries)), s)
    | None =>
        (inr (mkTree (next s) (map with_url entries)),
         mkStore (refs s) (commits s) ((next s, entries) :: trees s) (blobs s)
           (N.succ (next s)) (pull s))
    end
  else (inl invalid, s).

Definition createBlob (user repo : Js) (content encoding : string)
    (s : Store) : (JsError + Sha) * Store :=
  match assoc content (blobs s) with
  | Some sha => (inr sha, s)
  | None =>
      (inr (next s),
       mkStore (refs s) (commits s) (trees s) ((content, next s) :: blobs s)
         (N.succ (next s)) (pull s))
  end.

Definition createPull (user repo : Js) (title body : string) (base head : Js)
    (s : Store) : (JsError + unit) * Store :=
  (pull s, s).

Definition github : GitHubApi Store :=
  mkGitHubApi Store getReference createReference getCommit createCommit
    updateReference getTree createTree createBlob createPull.

(** A file system given by its directories, its sub-directories and its
    files. *)
Definition enoent : JsError :=
  ErrorObject None (Some "ENOENT: no such file or directory").

Definition fs (dirs : list (string * list string)) (subdirs : list string)
    (files : list (string * string)) : FileSystem :=
  mkFileSystem
    (fun a b => a +:+ "/" +:+ b)
    (fun p => match assoc p dirs with
              | Some names => inr names
              | None => inl enoent
              end)
    (fun p => if bool_decide (p ∈ subdirs) then inr true
              else match assoc p files with
                   | Some _ => inr false
                   | None => inl enoent
                   end)
    (fun p => match assoc p files with
              | Some content => inr content
              | None => inl enoent
              end).

(** *** A repository *)

(** [master] and [feature] point at commit 100, whose tree 200 holds a
    directory [docs] (tree 201, one file [a.txt] with content "1"), a file
    [README] and a directory [x] (tree 202, one file). *)
Definition file (path : string) (sha : Sha) : TreeEntry :=
  mkEntry path "100644" "blob" sha [].

Definition dir (path : string) (sha : Sha) : TreeEntry :=
  mkEntry path "040000" "tree" sha [].

Definition repository (pull : JsError + unit) : Store :=
  mkStore
    [("heads/master", 100%N); ("heads/feature", 100%N)]
    [(100%N, 200%N)]
    [(200%N, [dir "docs" 201%N; file "README" 301%N; dir "x" 202%N]);
     (201%N, [file "a.txt" 300%N]);
     (202%N, [file "f.txt" 302%N])]
    [("1", 300%N); ("readme", 301%N); ("f", 302%N)]
    1000%N
    pull.

Definition start (s : Store) : World Store := mkWorld s [] [] [].

Definition options (localPath repoPath : string)
    (preserveRepoFiles branch createBranch createPullRequest : Js)
  : Options :=
  mkOptions (str "Asana") (str "node-sync-to-github") (str localPath)
    (str repoPath) (str "Sync the docs") preserveRepoFiles branch undefined
    createBranch createPullRequest undefined.

(** Local directories: [same] holds what [docs] holds, [changed] holds a
    new version of [a.txt]. *)
Definition disk : FileSystem :=
  fs [("same", ["a.txt"]); ("changed", ["a.txt"]);
      ("nested", ["constructor"]); ("other", ["b.txt"])]
     ["nested/constructor"]
     [("same/a.txt", "1"); ("changed/a.txt", "2"); ("other/b.txt", "3")].

End Mock.

(** *** Runs used as examples *)

Module Example.

Definition repository : Mock.Store := Mock.repository (inr tt).

Definition start : World Mock.Store := Mock.start repository.

(** Nothing has changed locally. *)
Definition unchanged : Options :=
  Mock.options "same" "docs" undefined undefined undefined undefined.

(** [a.txt] has changed locally. *)
Definition changed : Options :=
  Mock.options "changed" "docs" undefined undefined undefined undefined.

(** The target is two levels below a directory that exists. *)
Definition too_deep : Options :=
  Mock.options "changed" "docs/api/v1" undefined undefined undefined undefined.



(** A pull request from [feature] to [master]. *)
Definition with_pull_request : Options :=
  Mock.options "changed" "docs" undefined (str "feature") undefined
    (boolean true).



(** The same refusals given to the callback as plain strings. *)
Definition duplicate_text : JsError :=
  ErrorPrimitive "A" " pull request already exists for Asana:feature.".

Definition unavailable_text : JsError :=
  ErrorPrimitive "S" "ervice Unavailable".

(** The state once the root tree has been fetched: it is at location 0. *)
Definition with_root : World Mock.Store :=
  (gitData_getTree Mock.github changed 200%N start).2.

(** The state once the chain for [docs] has been resolved (root at 0,
    [docs] at 1) and a new leaf has been built from the local directory
    (at 2). *)
Definition with_leaf : World Mock.Store :=
  let resolved :=
    (existingTreesForPath Mock.github changed 0 ["docs"] None with_root).2 in
  (createTreeForSingleDir Mock.github Mock.disk changed (str "changed") None
     resolved).2.

(** A repository whose [docs] holds a file named [constructor]. *)
Definition repository_with_constructor : Mock.Store :=
  Mock.mkStore
    [("heads/master", 100%N)]
    [(100%N, 200%N)]
    [(200%N, [Mock.dir "docs" 201%N]);
     (201%N, [Mock.file "a.txt" 300%N; Mock.file "constructor" 303%N;
              Mock.file "old.txt" 304%N])]
    [("1", 300%N)]
    1000%N
    (inr tt).

(** Additive syncs into [docs]: of the local directory [same] (one file,
    [a.txt]) and of the local directory [nested] (one sub-directory,
    [constructor]). *)
Definition preserve_same : Options :=
  Mock.options "same" "docs" (boolean true) undefined undefined undefined.

Definition preserve_nested : Options :=
  Mock.options "nested" "docs" (boolean true) undefined undefined undefined.

End Example.

(** * Proofs *)

Section Proofs.

Context {Store : Type}.
Variable github : GitHubApi Store.
Variable fs : FileSystem.

(** ** Running the monad *)

Lemma err_code_promisified e : err_code (promisified e) = err_code e.
Proof. by destruct e. Qed.

Lemma err_is_object_promisified e : err_is_object (promisified e) = true.
Proof. by destruct e. Qed.

Lemma promisified_idempotent e : promisified (promisified e) = promisified e.
Proof. by destruct e. Qed.

Lemma bind_ok {A B} (p : M Store A) (k : A -> M Store B) w a w' :
  p w = (Ok a, w') -> bind p k w = k a w'.
Proof. intros H. unfold bind. by rewrite H. Qed.

Lemma bind_throw {A B} (p : M Store A) (k : A -> M Store B) w e w' :
  p w = (Throw e, w') -> bind p k w = (Throw e, w').
Proof. intros H. unfold bind. by rewrite H. Qed.

Lemma bind_ret_l {A B} (a : A) (k : A -> M Store B) w :
  bind (ret a) k w = k a w.
Proof. done. Qed.

Lemma bind_assoc {A B C} (p : M Store A) (k : A -> M Store B)
    (h : B -> M Store C) w :
  bind (bind p k) h w = bind p (fun a => bind (k a) h) w.
Proof. unfold bind. destruct (p w) as [[a|e] w']; reflexivity. Qed.

Lemma bind_inv {A B} (p : M Store A) (k : A -> M Store B) w r w' :
  bind p k w = (r, w') ->
  (exists a w1, p w = (Ok a, w1) /\ k a w1 = (r, w')) \/
  (exists e, p w = (Throw e, w') /\ r = Throw e).
Proof.
  unfold bind. destruct (p w) as [[a|e] w1]; intros H.
  - left. eauto.
  - right. inversion H. eauto.
Qed.

(** ** Which calls a computation can make *)

Lemma Emits_silent {A} names (p : M Store A) :
  (forall w r w', p w = (r, w') -> calls w' = calls w) -> Emits names p.
Proof.
  intros H w r w' E. exists []. rewrite app_nil_r. split; [eauto | constructor].
Qed.

Lemma Emits_ret {A} names (a : A) : Emits (Store := Store) names (ret a).
Proof. apply Emits_silent. intros w r w' E. by inversion E. Qed.

Lemma Emits_throw {A} names e : Emits (Store := Store) (A := A) names (throw e).
Proof. apply Emits_silent. intros w r w' E. by inversion E. Qed.

Lemma Emits_lift {A} names (x : JsError + A) :
  Emits (Store := Store) names (lift x).
Proof. destruct x; [apply Emits_throw | apply Emits_ret]. Qed.

Lemma Emits_deref names l : Emits (Store := Store) names (deref l).
Proof.
  apply Emits_silent. intros w r w' E. unfold deref in E.
  destruct (heap w !! l); by inversion E.
Qed.

Lemma Emits_assign names l t : Emits (Store := Store) names (assign l t).
Proof. apply Emits_silent. intros w r w' E. by inversion E. Qed.

Lemma Emits_new_object names t : Emits (Store := Store) names (new_object t).
Proof. apply Emits_silent. intros w r w' E. by inversion E. Qed.

Lemma Emits_console_write names line :
  Emits (Store := Store) names (console_write line).
Proof. apply Emits_silent. intros w r w' E. by inversion E. Qed.

Lemma Emits_debug names options format args :
  Emits (Store := Store) names (debug options format args).
Proof.
  unfold debug. destruct (truthy _);
    [apply Emits_console_write | apply Emits_ret].
Qed.

Lemma Emits_bind {A B} names (p : M Store A) (k : A -> M Store B) :
  Emits names p -> (forall a, Emits names (k a)) -> Emits names (bind p k).
Proof.
  intros Hp Hk w r w' E.
  apply bind_inv in E as [(a & w1 & E1 & E2) | (e & E1 & ->)].
  - destruct (Hp _ _ _ E1) as (evs1 & C1 & F1).
    destruct (Hk a _ _ _ E2) as (evs2 & C2 & F2).
    exists (evs1 ++ evs2)%list. split.
    + by rewrite C2, C1, app_assoc.
    + by apply Forall_app.
  - exact (Hp _ _ _ E1).
Qed.

Lemma Emits_catch {A} names (p : M Store A) (h : JsError -> M Store A) :
  Emits names p -> (forall e, Emits names (h e)) -> Emits names (catch p h).
Proof.
  intros Hp Hh w r w' E. unfold catch in E.
  destruct (p w) as [[a|e] w1] eqn:E1.
  - inversion E; subst. exact (Hp _ _ _ E1).
  - destruct (Hp _ _ _ E1) as (evs1 & C1 & F1).
    destruct (Hh e _ _ _ E) as (evs2 & C2 & F2).
    exists (evs1 ++ evs2)%list. split.
    + by rewrite C2, C1, app_assoc.
    + by apply Forall_app.
Qed.

Lemma Emits_weaken {A} names names' (p : M Store A) :
  names ⊆ names' -> Emits names p -> Emits names' p.
Proof.
  intros Hsub Hp w r w' E. destruct (Hp _ _ _ E) as (evs & C & F).
  exists evs. split; [done |].
  eapply Forall_impl; [exact F |]. intros ev Hin. by apply Hsub.
Qed.

Lemma Emits_gitData {A} names options rq
    (method : Js -> Js -> Store -> (JsError + A) * Store) shape :
  request_name rq ∈ names -> Emits names (gitData options rq method shape).
Proof.
  intros Hin. unfold gitData. apply Emits_bind.
  - destruct (truthy _); [apply Emits_console_write | apply Emits_ret].
  - intros _ w r w' E.
    destruct (method _ _ _) as [answer store'] eqn:Em.
    inversion E; subst; clear E. simpl.
    eexists [_]. split; [reflexivity |]. by repeat constructor.
Qed.

Ltac emits_name :=
  first [ by (apply bool_decide_unpack; vm_compute)
        | by (unfold all_names; set_solver) ].

Ltac emits :=
  repeat first
    [ apply Emits_ret | apply Emits_throw | apply Emits_lift
    | apply Emits_deref | apply Emits_assign | apply Emits_new_object
    | apply Emits_console_write | apply Emits_debug
    | apply Emits_gitData; emits_name
    | apply Emits_bind; [| intros ?]
    | apply Emits_catch; [| intros ?]
    | match goal with
      | |- Emits _ (match ?x with _ => _ end) => destruct x
      | |- Emits _ (if ?x then _ else _) => destruct x
      end ].

Lemma Emits_gitData_getTree names options sha :
  "getTree" ∈ names -> Emits names (gitData_getTree github options sha).
Proof. intros. unfold gitData_getTree. emits. Qed.

Lemma Emits_gitData_createTree names options tree :
  "createTree" ∈ names -> Emits names (gitData_createTree github options tree).
Proof. intros. unfold gitData_createTree. emits. Qed.

Lemma Emits_getTree names options treeCache treeSha :
  "getTree" ∈ names -> Emits names (getTree github options treeCache treeSha).
Proof.
  intros. unfold getTree. destruct (treeCache !! treeSha).
  - emits.
  - by apply Emits_gitData_getTree.
Qed.

Lemma Emits_existingTreesForPath names options pathParts :
  "getTree" ∈ names ->
  forall rootTree treeCache,
    Emits names
      (existingTreesForPath github options rootTree pathParts treeCache).
Proof.
  intros Hin. induction pathParts as [| path rest IH]; intros; simpl.
  - emits.
  - apply Emits_bind; [emits |]. intros root.
    destruct (list_find _ _) as [[i nextTreeInfo] |]; [| emits].
    apply Emits_bind; [by apply Emits_getTree |]. intros nextTree.
    apply Emits_bind; [apply IH |]. intros sub. emits.
Qed.

Lemma Emits_createTreeForPath_rev names options revPathParts :
  "createTree" ∈ names ->
  forall treesForPath,
    Emits names
      (createTreeForPath_rev github options treesForPath revPathParts).
Proof.
  intros Hin. induction revPathParts as [| lastPath rest IH]; intros; simpl.
  - emits.
  - destruct (slice_from_minus2 _); [| emits].
    destruct (last _); [| emits].
    do 4 (apply Emits_bind; [emits |]; intros ?).
    apply Emits_bind; [by apply Emits_gitData_createTree |]. intros newTree.
    apply IH.
Qed.

Lemma Emits_createTreeForPath names options treesForPath pathParts :
  "createTree" ∈ names ->
  Emits names (createTreeForPath github options treesForPath pathParts).
Proof. intros. by apply Emits_createTreeForPath_rev. Qed.

Lemma Emits_createEntryFor names options localPath filename pathExists :
  "createBlob" ∈ names ->
  Emits names (createEntryFor github fs options localPath filename pathExists).
Proof. intros. unfold createEntryFor, gitData_createBlob. emits. Qed.

Lemma Emits_promise_all_map {A S} names
    (f : string -> S -> M Store (A * S)) filenames :
  (forall filename s, Emits names (f filename s)) ->
  forall s, Emits names (promise_all_map f filenames s).
Proof.
  intros Hf. induction filenames as [| filename rest IH]; intros s; simpl.
  - emits.
  - intros w r w' E.
    destruct (f filename s w) as [r1 w1] eqn:E1.
    destruct (promise_all_map f rest _ w1) as [rs w2] eqn:E2.
    destruct (Hf _ _ _ _ _ E1) as (evs1 & C1 & F1).
    destruct (IH _ _ _ _ E2) as (evs2 & C2 & F2).
    assert (w' = w2) as -> by (by inversion E).
    exists (evs1 ++ evs2)%list. split.
    + by rewrite C2, C1, app_assoc.
    + by apply Forall_app.
Qed.

Lemma Emits_createTreeForSingleDir names options localPath baseTree :
  "createBlob" ∈ names -> "createTree" ∈ names ->
  Emits names (createTreeForSingleDir github fs options localPath baseTree).
Proof.
  intros. unfold createTreeForSingleDir.
  destruct localPath; try apply Emits_throw.
  apply Emits_bind; [emits |]. intros filenames.
  apply Emits_bind.
  { apply Emits_promise_all_map. intros. by apply Emits_createEntryFor. }
  intros made. apply Emits_bind; [emits |]. intros children.
  by apply Emits_gitData_createTree.
Qed.

Lemma Emits_createNewTreeForPath names options treesForPath pathParts :
  "createBlob" ∈ names -> "createTree" ∈ names ->
  Emits names (createNewTreeForPath github fs options treesForPath pathParts).
Proof.
  intros. unfold createNewTreeForPath.
  apply Emits_bind; [emits |]. intros _.
  apply Emits_bind.
  { destruct (bool_decide _); [| emits].
    by apply Emits_createTreeForSingleDir. }
  intros newTargetTree. by apply Emits_createTreeForPath.
Qed.

Lemma Emits_getBranchOrNull names options branchName :
  "getReference" ∈ names ->
  Emits names (getBranchOrNull github options branchName).
Proof. intros. unfold getBranchOrNull, gitData_getReference. emits. Qed.

Lemma Emits_createBranch names options branchName baseBranchName :
  "getReference" ∈ names -> "createReference" ∈ names ->
  Emits names (createBranch github options branchName baseBranchName).
Proof.
  intros. unfold createBranch, gitData_getReference, gitData_createReference.
  emits.
Qed.

Lemma Emits_resolveBranch names options :
  "getReference" ∈ names -> "createReference" ∈ names ->
  Emits names (resolveBranch github options).
Proof.
  intros. unfold resolveBranch.
  apply Emits_bind; [by apply Emits_getBranchOrNull |]. intros [branch |].
  - emits.
  - destruct (truthy _); [by apply Emits_createBranch | emits].
Qed.

Lemma Emits_rebuild names options pathParts branch :
  "getCommit" ∈ names -> "getTree" ∈ names ->
  "createBlob" ∈ names -> "createTree" ∈ names ->
  Emits names (rebuild github fs options pathParts branch).
Proof.
  intros. unfold rebuild, getLatestCommit, gitData_getCommit.
  apply Emits_bind; [emits |]. intros commit.
  apply Emits_bind; [by apply Emits_gitData_getTree |]. intros rootTree.
  apply Emits_bind; [by apply Emits_existingTreesForPath |]. intros found.
  apply Emits_bind; [by apply Emits_createNewTreeForPath |]. intros.
  emits.
Qed.

Lemma Emits_commitChanges names options latestCommit newRootTree :
  "createCommit" ∈ names -> "updateReference" ∈ names ->
  Emits names (commitChanges github options latestCommit newRootTree).
Proof.
  intros. unfold commitChanges, gitData_createCommit, gitData_updateReference.
  emits.
Qed.

Lemma Emits_pullRequestsAsync names options title body :
  "pullRequests.create" ∈ names ->
  Emits names (pullRequestsAsync github options title body).
Proof.
  intros Hin w r w' E. unfold pullRequestsAsync in E.
  destruct (pullRequests_create _ _ _ _ _ _ _ _) as [answer store'].
  inversion E; subst; clear E. simpl.
  eexists [_]. split; [reflexivity |]. by repeat constructor.
Qed.

Lemma Emits_createPullRequest names options :
  "pullRequests.create" ∈ names ->
  Emits names (createPullRequest github options).
Proof.
  intros. unfold createPullRequest.
  destruct (opt_message options); try apply Emits_throw.
  apply Emits_catch; [by apply Emits_pullRequestsAsync |]. intros. emits.
Qed.

Lemma Emits_publish options commit newRootTree :
  Emits ["createCommit"; "updateReference"; "pullRequests.create"]
    (publish github options commit newRootTree).
Proof.
  unfold publish. destruct newRootTree; [| emits].
  apply Emits_bind; [emits |]. intros root.
  destruct (bool_decide _); [emits |].
  apply Emits_bind; [apply Emits_commitChanges; emits_name |]. intros _.
  destruct (truthy _); [apply Emits_createPullRequest; emits_name | emits].
Qed.

Lemma Emits_afterBranch options pathParts branch :
  Emits all_names
    (built <- rebuild github fs options pathParts branch ;;
     publish github options built.1 built.2 ;;;
     debug options "Sync to github complete!" []).
Proof.
  apply Emits_bind; [apply Emits_rebuild; emits_name |]. intros built.
  apply Emits_bind; [| intros; emits].
  eapply Emits_weaken; [| apply Emits_publish].
  intros name Hin.
  repeat (apply elem_of_cons in Hin as [-> | Hin]); try emits_name.
Qed.

(** ** Equations of the primitive steps *)

Lemma debug_run options format args (w : World Store) :
  debug options format args w = (Ok tt, logged options (Log format args) w).
Proof. unfold debug, logged. by destruct (truthy _). Qed.

Lemma gitData_run {A} options rq
    (method : Js -> Js -> Store -> (JsError + A) * Store) shape w :
  gitData options rq method shape w =
  (settle (method (opt_user options) (opt_repo options) (store w)).1,
   after_call options rq
     (outcome shape (method (opt_user options) (opt_repo options) (store w)).1)
     (method (opt_user options) (opt_repo options) (store w)).2 w).
Proof.
  unfold gitData, bind, after_call, logged, settle, outcome.
  destruct (truthy _); simpl;
    by destruct (method _ _ _) as [[e | a] store'].
Qed.

(** ** Validation *)

Lemma validateOptions_rejected options (w : World Store) :
  rejected options -> exists e, validateOptions options w = (Throw e, w).
Proof.
  unfold rejected, validateOptions, strict_eq; simpl.
  intros H.
  destruct (is_string (opt_user options)); simpl; [| by eexists].
  destruct (is_string (opt_repo options)); simpl; [| by eexists].
  destruct (is_string (opt_localPath options)); simpl; [| by eexists].
  destruct (is_string (opt_repoPath options)); simpl; [| by eexists].
  destruct (is_string (opt_message options)); simpl; [| by eexists].
  destruct H as [? | [? | [? | [? | [? | [[E T] | [E T]]]]]]]; try done.
  - rewrite bool_decide_eq_true_2 by done. rewrite T. by eexists.
  - rewrite bool_decide_eq_true_2 by done. rewrite T.
    destruct (truthy (opt_createBranch options)); by eexists.
Qed.

Lemma validateOptions_accepted options (w : World Store) :
  ~ rejected options -> validateOptions options w = (Ok (defaulted options), w).
Proof.
  unfold rejected, validateOptions, strict_eq; simpl.
  intros H.
  destruct (is_string (opt_user options)); simpl; [| tauto].
  destruct (is_string (opt_repo options)); simpl; [| tauto].
  destruct (is_string (opt_localPath options)); simpl; [| tauto].
  destruct (is_string (opt_repoPath options)); simpl; [| tauto].
  destruct (is_string (opt_message options)); simpl; [| tauto].
  case_bool_decide as E; [| done].
  destruct (truthy (opt_createBranch options)); [tauto |].
  destruct (truthy (opt_createPullRequest options)); [tauto | done].
Qed.

Lemma rejected_dec options : rejected options \/ ~ rejected options.
Proof.
  unfold rejected.
  destruct (is_string (opt_user options)); [| tauto].
  destruct (is_string (opt_repo options)); [| tauto].
  destruct (is_string (opt_localPath options)); [| tauto].
  destruct (is_string (opt_repoPath options)); [| tauto].
  destruct (is_string (opt_message options)); [| tauto].
  destruct (decide (js_or (opt_baseBranch options) (str "master")
                    = js_or (opt_branch options) (str "master"))) as [E | E].
  - destruct (truthy (opt_createBranch options)); [tauto |].
    destruct (truthy (opt_createPullRequest options)); [tauto |].
    right. intros H. repeat destruct H as [H | H]; try done; by destruct H.
  - right. intros H. repeat destruct H as [H | H]; try done; by destruct H.
Qed.

Lemma getBranchOrNull_calls options branchName w r w' :
  getBranchOrNull github options branchName w = (r, w') ->
  exists ev, calls w' = (calls w ++ [ev])%list.
Proof.
  unfold getBranchOrNull, catch, bind, gitData_getReference.
  rewrite gitData_run.
  destruct (gitdata_getReference _ _ _ _ _) as [[e | ref] store']; simpl.
  - destruct (bool_decide _); intros E; inversion E; subst; simpl; eauto.
  - intros E; inversion E; subst; simpl; eauto.
Qed.

Lemma resolveBranch_calls options w r w' :
  resolveBranch github options w = (r, w') ->
  exists ev evs, calls w' = (calls w ++ ev :: evs)%list.
Proof.
  unfold resolveBranch. intros E.
  apply bind_inv in E as [(a & w1 & E1 & E2) | (e & E1 & ->)].
  - apply getBranchOrNull_calls in E1 as [ev C1].
    assert (Emits all_names
              (match a with
               | Some branch => ret branch
               | None =>
                   if truthy (opt_createBranch options)
                   then createBranch github options (opt_branch options)
                          (opt_baseBranch options)
                   else throw (Error ("Branch `" +:+ to_string (opt_branch options)
                                      +:+ "` does not exist"))
               end)) as Hrest.
    { destruct a; [emits |]. destruct (truthy _); [| emits].
      apply Emits_createBranch; emits_name. }
    destruct (Hrest _ _ _ E2) as (evs & C2 & _).
    exists ev, evs. by rewrite C2, C1, <- app_assoc.
  - apply getBranchOrNull_calls in E1 as [ev C1]. exists ev, []. done.
Qed.

(** C9.  Pre-flight validation: [validateOptions] throws exactly on the
    rejected option objects and otherwise passes, returning the options
    with the two branch defaults filled in; and the sync entry point fails
    without having completed any call to the store exactly on the rejected
    option objects. *)
Theorem validation_is_preflight (options : Options) (w : World Store) :
  (rejected options <-> exists e, validateOptions options w = (Throw e, w)) /\
  (~ rejected options <->
   validateOptions options w = (Ok (defaulted options), w)) /\
  (rejected options <->
   exists e w', syncToGitHub github fs options w = (Throw e, w') /\
                calls w' = calls w).
Proof.
  split; [| split].
  - split; [apply validateOptions_rejected |].
    intros [e E]. destruct (rejected_dec options) as [? | N]; [done |].
    rewrite (validateOptions_accepted _ _ N) in E. done.
  - split; [apply validateOptions_accepted |].
    intros E R. destruct (validateOptions_rejected _ w R) as [e E'].
    rewrite E in E'. done.
  - split.
    + intros R. unfold syncToGitHub.
      destruct (validateOptions_rejected options
                  (logged options (Log "Sync github started" []) w) R)
        as [e E].
      exists e, (logged options (Log "Sync github started" []) w). split.
      * erewrite bind_ok by apply debug_run. by erewrite bind_throw.
      * unfold logged. by destruct (truthy _).
    + intros (e & w' & E & C).
      destruct (rejected_dec options) as [? | N]; [done | exfalso].
      unfold syncToGitHub in E.
      erewrite bind_ok in E by apply debug_run.
      erewrite bind_ok in E by (by apply validateOptions_accepted).
      assert (is_string (opt_repoPath options) = true) as S.
      { destruct (is_string (opt_repoPath options)) eqn:S; [done |].
        exfalso. apply N. unfold rejected. tauto. }
      simpl in E. destruct (opt_repoPath options); try done.
      apply bind_inv in E as [(branch & w1 & E1 & E2) | (e' & E1 & _)].
      * apply resolveBranch_calls in E1 as (ev & evs & C1).
        destruct (Emits_afterBranch _ _ _ _ _ _ E2) as (evs' & C2 & _).
        rewrite C2, C1 in C. unfold logged in C.
        apply (f_equal length) in C. revert C.
        destruct (truthy _); simpl; rewrite !length_app; simpl; lia.
      * apply resolveBranch_calls in E1 as (ev & evs & C1).
        rewrite C1 in C. unfold logged in C.
        apply (f_equal length) in C. revert C.
        destruct (truthy _); simpl; rewrite !length_app; simpl; lia.
Qed.

(** ** The pipeline behind the validation *)

Lemma syncToGitHub_accepted options w :
  ~ rejected options ->
  exists repoPath,
    opt_repoPath options = str repoPath /\
    syncToGitHub github fs options w =
    pipeline github fs (defaulted options) (compact (split slash repoPath))
      (logged options (Log "Sync github started" []) w).
Proof.
  intros N.
  assert (is_string (opt_repoPath options) = true) as S.
  { destruct (is_string (opt_repoPath options)) eqn:S; [done |].
    exfalso. apply N. unfold rejected. tauto. }
  destruct (opt_repoPath options) as [| | | | repoPath |] eqn:R; try done.
  exists repoPath. split; [done |].
  unfold syncToGitHub.
  erewrite bind_ok by apply debug_run.
  erewrite bind_ok by (by apply validateOptions_accepted).
  simpl. by rewrite R.
Qed.

Lemma requests_since_app (w w' : World Store) evs :
  calls w' = (calls w ++ evs)%list -> requests_since w w' = requests evs.
Proof. intros C. unfold requests_since. by rewrite C, drop_app_length. Qed.

Lemma calls_logged options line (w : World Store) :
  calls (logged options line w) = calls w.
Proof. unfold logged. by destruct (truthy _). Qed.

Lemma store_logged options line (w : World Store) :
  store (logged options line w) = store w.
Proof. unfold logged. by destruct (truthy _). Qed.

Lemma heap_logged options line (w : World Store) :
  heap (logged options line w) = heap w.
Proof. unfold logged. by destruct (truthy _). Qed.

(** ** The branch *)

Lemma store_after_call options rq out (store' : Store) w :
  store (after_call options rq out store' w) = store'.
Proof. done. Qed.

Lemma heap_after_call options rq out (store' : Store) w :
  heap (after_call options rq out store' w) = heap w.
Proof. done. Qed.

Lemma calls_after_call options rq out (store' : Store) w :
  calls (after_call options rq out store' w) =
  (calls w ++ [mkEvent (opt_user options) (opt_repo options) rq out])%list.
Proof. done. Qed.

Lemma gitData_answer {A} options rq
    (method : Js -> Js -> Store -> (JsError + A) * Store) shape w answer
    store' :
  method (opt_user options) (opt_repo options) (store w) = (answer, store') ->
  gitData options rq method shape w =
  (settle answer, after_call options rq (outcome shape answer) store' w).
Proof. intros E. by rewrite gitData_run, E. Qed.

Lemma getBranchOrNull_run options branchName w answer store' :
  gitdata_getReference github (opt_user options) (opt_repo options)
    ("heads/" +:+ to_string branchName) (store w) = (answer, store') ->
  getBranchOrNull github options branchName w =
  (match answer with
   | inr branch => Ok (Some branch)
   | inl error =>
       if bool_decide (err_code error = Some 404%Z) then Ok None
       else Throw (promisified error)
   end,
   after_call options (GetReference ("heads/" +:+ to_string branchName))
     (outcome ReferenceResponse answer) store' w).
Proof.
  intros E. unfold getBranchOrNull, catch, bind, gitData_getReference.
  erewrite gitData_answer by exact E.
  destruct answer as [e | ref]; simpl; [| done].
  rewrite err_code_promisified. by destruct (bool_decide _).
Qed.



(** ** No-op detection *)

Lemma publish_unchanged options commit newRootTree root w :
  heap w !! newRootTree = Some root ->
  t_sha root = c_tree_sha commit ->
  publish github options commit (Some newRootTree) w =
  (Ok tt,
   logged options (Log "No changes to tree, not committing anything" []) w).
Proof.
  intros H E. unfold publish, bind, deref. rewrite H.
  rewrite bool_decide_eq_true_2 by done. apply debug_run.
Qed.

(** C3.  No-op detection.  In a sync whose options pass validation and
    whose new root tree carries the hash of the tree of the commit the
    branch points to, nothing is called after the comparison: the sync is
    fulfilled, and none of its requests is [createCommit] or
    [updateReference]; if moreover the branch was found by the first
    lookup, none is [createReference] either, so the sync has written no
    reference at all. *)
Theorem noop_sync_makes_no_commit (options0 : Options) (w0 : World Store)
    (repoPath : string) (branch : Reference) (w1 : World Store)
    (commit : Commit) (newRootTree : nat) (root : Tree) (w2 : World Store) :
  ~ rejected options0 ->
  opt_repoPath options0 = str repoPath ->
  let options := defaulted options0 in
  let w := logged options0 (Log "Sync github started" []) w0 in
  let pathParts := compact (split slash repoPath) in
  resolveBranch github options w = (Ok branch, w1) ->
  rebuild github fs options pathParts branch w1
  = (Ok (commit, Some newRootTree), w2) ->
  heap w2 !! newRootTree = Some root ->
  t_sha root = c_tree_sha commit ->
  exists w',
    syncToGitHub github fs options0 w0 = (Ok tt, w') /\
    calls w' = calls w2 /\ store w' = store w2 /\
    Forall (fun rq => request_name rq <> "createCommit" /\
                      request_name rq <> "updateReference")
      (requests_since w0 w') /\
    (forall found store1,
       gitdata_getReference github (opt_user options) (opt_repo options)
         ("heads/" +:+ to_string (opt_branch options)) (store w0)
       = (inr found, store1) ->
       Forall (fun rq => request_name rq <> "createReference")
         (requests_since w0 w')).
Proof.
  intros N R options w pathParts E1 E2 H S.
  destruct (syncToGitHub_accepted options0 w0 N) as (repoPath' & R' & Esync).
  rewrite R in R'. injection R' as <-.
  change (defaulted options0) with options in Esync.
  fold w pathParts in Esync.
  assert (store w = store w0) as Sw by apply store_logged.
  assert (calls w = calls w0) as Cw by apply calls_logged.
  clearbody options w.
  eexists. split; [| split; [| split; [| split]]].
  - rewrite Esync. unfold pipeline.
    erewrite bind_ok by exact E1. erewrite bind_ok by exact E2.
    cbn [fst snd].
    erewrite bind_ok by (by eapply publish_unchanged).
    apply debug_run.
  - by rewrite !calls_logged.
  - by rewrite !store_logged.
  - destruct (Emits_resolveBranch ["getReference"; "createReference"] options
                ltac:(emits_name) ltac:(emits_name) _ _ _ E1)
      as (evs1 & C1 & F1).
    destruct (Emits_rebuild ["getCommit"; "getTree"; "createBlob"; "createTree"]
                options pathParts branch
                ltac:(emits_name) ltac:(emits_name) ltac:(emits_name)
                ltac:(emits_name) _ _ _ E2)
      as (evs2 & C2 & F2).
    erewrite requests_since_app; last first.
    { rewrite !calls_logged, C2, C1, Cw, <- app_assoc. reflexivity. }
    unfold requests. rewrite Forall_fmap. apply Forall_app. split.
    + eapply Forall_impl; [exact F1 |]. intros ev Hin. cbn.
      repeat (apply elem_of_cons in Hin as [-> | Hin]); [done | done |].
      by apply elem_of_nil in Hin.
    + eapply Forall_impl; [exact F2 |]. intros ev Hin. cbn.
      repeat (apply elem_of_cons in Hin as [-> | Hin]); try done.
      by apply elem_of_nil in Hin.
  - intros found store1 A. rewrite <- Sw in A.
    assert (calls w1 = (calls w ++
              [mkEvent (opt_user options) (opt_repo options)
                 (GetReference ("heads/" +:+ to_string (opt_branch options)))
                 (inr (ReferenceResponse found))])%list) as C1.
    { unfold resolveBranch in E1.
      erewrite bind_ok in E1
        by (erewrite getBranchOrNull_run by exact A; reflexivity).
      cbv beta iota in E1. inversion E1. by rewrite calls_after_call. }
    destruct (Emits_rebuild ["getCommit"; "getTree"; "createBlob"; "createTree"]
                options pathParts branch
                ltac:(emits_name) ltac:(emits_name) ltac:(emits_name)
                ltac:(emits_name) _ _ _ E2)
      as (evs2 & C2 & F2).
    erewrite requests_since_app; last first.
    { rewrite !calls_logged, C2, C1, Cw, <- app_assoc. reflexivity. }
    unfold requests. rewrite Forall_fmap. apply Forall_app. split.
    + by repeat constructor.
    + eapply Forall_impl; [exact F2 |]. intros ev Hin. cbn.
      repeat (apply elem_of_cons in Hin as [-> | Hin]); try done.
      by apply elem_of_nil in Hin.
Qed.

(** ** The pull request *)

Lemma createPullRequest_run options message w answer store' :
  opt_message options = str message ->
  pullRequests_create github (opt_user options) (opt_repo options)
    (pull_title message) (pull_body message) (opt_baseBranch options)
    (opt_branch options) (store w) = (answer, store') ->
  createPullRequest github options w =
  match answer with
  | inr _ => (Ok tt, after_pull options message answer store' w)
  | inl err =>
      if already_exists (promisified err) then
        (Ok tt,
         logged options
           (Log "Pull request from branch %s to %s already exists, ignoring."
              [to_string (opt_branch options);
               to_string (opt_baseBranch options)])
           (after_pull options message answer store' w))
      else (Throw (promisified err),
            after_pull options message answer store' w)
  end.
Proof.
  intros Hm E. unfold createPullRequest, catch, pullRequestsAsync.
  rewrite Hm. fold (pull_title message) (pull_body message). rewrite E.
  destruct answer as [err | []]; [| done].
  destruct (already_exists (promisified err)); [apply debug_run | done].
Qed.

(** The handler's test on what the promise delivers, in terms of the text
    of the error the client gave. *)
Lemma already_exists_promisified err :
  already_exists (promisified err) =
  match rejection_text err with
  | Some text => regexp_test "already exists" text
  | None => false
  end.
Proof. by destruct err as [code [text |] | c s]. Qed.


(** ** The strict check on the parent *)

Lemma removelast_length {A} (l : list A) :
  length (removelast l) = length l - 1.
Proof. rewrite removelast_firstn_len, length_take. lia. Qed.

Lemma createNewTreeForPath_short options treesForPath pathParts w :
  length (without_existing_leaf treesForPath pathParts) <> length pathParts ->
  createNewTreeForPath github fs options treesForPath pathParts w =
  (Throw (Error ("Could not find existing parent dir for repo path: "
                 +:+ to_string (opt_repoPath options))),
   if bool_decide (length treesForPath = length pathParts + 1)
   then logged options (Log "Target path already exists" []) w else w).
Proof.
  unfold without_existing_leaf, createNewTreeForPath. intros Hlen.
  destruct (bool_decide (length treesForPath = length pathParts + 1)) eqn:F.
  - erewrite bind_ok by apply debug_run.
    rewrite bool_decide_eq_false_2 by done. reflexivity.
  - unfold bind at 1, ret.
    rewrite bool_decide_eq_false_2 by done. reflexivity.
Qed.

(** C5.  The strict check that the parent exists.  If the chain, once the
    leaf that was already there has been taken off, is shorter than the
    list of path segments, [createNewTreeForPath] is rejected with "Could
    not find existing parent dir" and leaves the state as it was; whenever
    it is fulfilled or has made a call, the two lengths are equal.  In a
    sync whose options pass validation and whose resolved chain is too
    short, the sync is rejected with that error and none of its requests
    is [createBlob] or [createTree]. *)
Theorem missing_parent_is_rejected_before_upload (options0 : Options)
    (w0 : World Store) (repoPath : string) (branch : Reference)
    (w1 : World Store) (commit : Commit) (w2 : World Store) (rootTree : nat)
    (w3 : World Store) (chain : list nat) (treeCache : gmap Sha nat)
    (w4 : World Store) :
  ~ rejected options0 ->
  opt_repoPath options0 = str repoPath ->
  let options := defaulted options0 in
  let w := logged options0 (Log "Sync github started" []) w0 in
  let pathParts := compact (split slash repoPath) in
  resolveBranch github options w = (Ok branch, w1) ->
  getLatestCommit github options branch w1 = (Ok commit, w2) ->
  gitData_getTree github options (c_tree_sha commit) w2 = (Ok rootTree, w3) ->
  existingTreesForPath github options rootTree pathParts None w3
  = (Ok (chain, treeCache), w4) ->
  length (without_existing_leaf chain pathParts) < length pathParts ->
  (forall o treesForPath parts v,
     (length (without_existing_leaf treesForPath parts) < length parts ->
      createNewTreeForPath github fs o treesForPath parts v =
      (Throw (Error ("Could not find existing parent dir for repo path: "
                     +:+ to_string (opt_repoPath o))), v)) /\
     (forall r v',
        createNewTreeForPath github fs o treesForPath parts v = (r, v') ->
        is_ok r = true \/ calls v' <> calls v ->
        length (without_existing_leaf treesForPath parts) = length parts)) /\
  syncToGitHub github fs options0 w0 =
  (Throw (Error ("Could not find existing parent dir for repo path: "
                 +:+ repoPath)), w4) /\
  Forall (fun rq => request_name rq <> "createBlob" /\
                    request_name rq <> "createTree")
    (requests_since w0 w4).
Proof.
  intros N R options w pathParts E1 E2 E3 E4 Hlen.
  assert (forall o treesForPath parts v,
            length (without_existing_leaf treesForPath parts) < length parts ->
            createNewTreeForPath github fs o treesForPath parts v =
            (Throw (Error ("Could not find existing parent dir for repo path: "
                           +:+ to_string (opt_repoPath o))), v)) as Hshort.
  { intros o treesForPath parts v Hl.
    rewrite createNewTreeForPath_short by lia.
    unfold without_existing_leaf in Hl.
    case_bool_decide as F; [| done].
    exfalso. rewrite removelast_length in Hl. lia. }
  split; [| split].
  - intros o treesForPath parts v. split; [apply Hshort |].
    intros r v' E Hd.
    destruct (decide (length (without_existing_leaf treesForPath parts)
                      = length parts)) as [| Hne]; [done | exfalso].
    rewrite createNewTreeForPath_short in E by done.
    inversion E; subst. destruct Hd as [? | Hd]; [done |]. apply Hd.
    case_bool_decide; [apply calls_logged | done].
  - destruct (syncToGitHub_accepted options0 w0 N) as (repoPath' & R' & Esync).
    rewrite R in R'. injection R' as <-.
    rewrite Esync. unfold pipeline.
    erewrite bind_ok by exact E1. erewrite bind_throw; [reflexivity |].
    unfold rebuild.
    erewrite bind_ok by exact E2. erewrite bind_ok by exact E3.
    erewrite bind_ok by exact E4. cbn [fst].
    erewrite bind_throw; [reflexivity |].
    rewrite Hshort by done. unfold options. simpl. by rewrite R.
  - assert (calls w = calls w0) as Cw by apply calls_logged.
    clearbody options w.
    destruct (Emits_resolveBranch ["getReference"; "createReference"] options
                ltac:(emits_name) ltac:(emits_name) _ _ _ E1)
      as (evs1 & C1 & F1).
    assert (Emits ["getCommit"] (getLatestCommit github options branch)) as G2.
    { unfold getLatestCommit, gitData_getCommit. emits. }
    destruct (G2 _ _ _ E2) as (evs2 & C2 & F2).
    destruct (Emits_gitData_getTree ["getTree"] options (c_tree_sha commit)
                ltac:(emits_name) _ _ _ E3) as (evs3 & C3 & F3).
    destruct (Emits_existingTreesForPath ["getTree"] options pathParts
                ltac:(emits_name) _ _ _ _ _ E4) as (evs4 & C4 & F4).
    erewrite requests_since_app; last first.
    { rewrite C4, C3, C2, C1, Cw, <- !app_assoc. reflexivity. }
    unfold requests. rewrite Forall_fmap, !Forall_app.
    repeat split;
      (eapply Forall_impl; [eassumption |]; intros ev Hin; cbn;
       repeat (apply elem_of_cons in Hin as [-> | Hin]); try done;
       by apply elem_of_nil in Hin).
Qed.

(** ** The path resolver *)

Lemma cache_ok_app h new cache : cache_ok h cache -> cache_ok (h ++ new) cache.
Proof.
  intros H sha l E. destruct (H sha l E) as [t Ht].
  exists t. by apply lookup_app_l_Some.
Qed.

Lemma cache_ok_insert h cache sha l :
  cache_ok h cache -> is_Some (h !! l) -> cache_ok h (<[sha := l]> cache).
Proof.
  intros H Hl sha' l' E. destruct (decide (sha = sha')) as [-> | Hne].
  - rewrite lookup_insert_eq in E. by injection E as <-.
  - rewrite lookup_insert_ne in E by done. eauto.
Qed.

Lemma Served_weaken h h' evs evs' cache sha t :
  cache_ok h cache ->
  (forall l x, h !! l = Some x -> h' !! l = Some x) ->
  (forall ev, ev ∈ evs -> ev ∈ evs') ->
  Served h evs cache sha t -> Served h' evs' cache sha t.
Proof.
  unfold Served. intros Hc Hh He. destruct (cache !! sha) as [c |]; [eauto |].
  intros (ev & Hin & ?). exists ev. eauto.
Qed.

Lemma Resolved_weaken h h' evs evs' cache chain pathParts :
  (forall l x, h !! l = Some x -> h' !! l = Some x) ->
  (forall ev, ev ∈ evs -> ev ∈ evs') ->
  Resolved h evs cache chain pathParts ->
  cache_ok h cache ->
  Resolved h' evs' cache chain pathParts.
Proof.
  intros Hh He R. induction R as [| | cache l t path rest i e l' t' chain
                                    Hl Hf Hl' Hs R IH]; intros Hc.
  - eapply resolved_end; eauto.
  - eapply resolved_stop; eauto.
  - assert (cache_ok h (<[t_sha t := l]> cache)) as Hc'
        by (apply cache_ok_insert; eauto).
    eapply resolved_step; eauto using Served_weaken.
Qed.

Lemma Resolved_length h evs cache chain pathParts :
  Resolved h evs cache chain pathParts ->
  1 <= length chain <= length pathParts + 1.
Proof. induction 1; simpl in *; lia. Qed.

Lemma Resolved_head h evs cache chain pathParts :
  Resolved h evs cache chain pathParts -> exists l, head chain = Some l.
Proof. destruct 1; simpl; eauto. Qed.

Lemma Resolved_allocated h evs cache chain pathParts :
  Resolved h evs cache chain pathParts ->
  forall l, l ∈ chain -> is_Some (h !! l).
Proof.
  induction 1 as [| | ? ? ? ? ? ? ? ? ? ? ? ? ? ? ? IH]; intros x Hin.
  - apply list_elem_of_singleton in Hin. subst. eauto.
  - apply list_elem_of_singleton in Hin. subst. eauto.
  - apply elem_of_cons in Hin as [-> | Hin]; [eauto | by apply IH].
Qed.

Lemma new_object_run (t : Tree) (w : World Store) :
  new_object t w =
  (Ok (length (heap w)),
   mkWorld (store w) (heap w ++ [t]) (calls w) (console w)).
Proof. done. Qed.

Lemma gitData_getTree_run options sha w answer store' :
  gitdata_getTree github (opt_user options) (opt_repo options) sha (store w)
  = (answer, store') ->
  gitData_getTree github options sha w =
  match answer with
  | inl e =>
      (Throw (promisified e), after_call options (GetTree sha) (inl e) store' w)
  | inr t =>
      (Ok (length (heap w)),
       mkWorld store' (heap w ++ [t])
         (calls w ++ [mkEvent (opt_user options) (opt_repo options)
                        (GetTree sha) (inr (TreeResponse t))])
         (console (logged options
                     (LogGitdata "getTree" (GetTree sha)) w)))
  end.
Proof.
  intros E. unfold gitData_getTree, bind.
  erewrite gitData_answer by exact E. by destruct answer.
Qed.

Lemma gitData_createTree_run options tree w answer store' :
  gitdata_createTree github (opt_user options) (opt_repo options) tree
    (store w) = (answer, store') ->
  gitData_createTree github options tree w =
  match answer with
  | inl e =>
      (Throw (promisified e), after_call options (CreateTree tree) (inl e) store' w)
  | inr t =>
      (Ok (length (heap w)),
       mkWorld store' (heap w ++ [t])
         (calls w ++ [mkEvent (opt_user options) (opt_repo options)
                        (CreateTree tree) (inr (TreeResponse t))])
         (console (logged options
                     (LogGitdata "createTree" (CreateTree tree)) w)))
  end.
Proof.
  intros E. unfold gitData_createTree, bind.
  erewrite gitData_answer by exact E. by destruct answer.
Qed.

(** What [getTree] does, hit or miss. *)
Lemma getTree_spec options treeCache treeSha w r w' :
  cache_ok (heap w) treeCache ->
  getTree github options treeCache treeSha w = (r, w') ->
  (exists t evs,
     r = Ok (length (heap w)) /\
     heap w' = (heap w ++ [t])%list /\
     calls w' = (calls w ++ evs)%list /\
     Served (heap w') evs treeCache treeSha t) \/
  (exists e,
     r = Throw (promisified e) /\ heap w' = heap w /\
     calls w' =
     (calls w ++ [mkEvent (opt_user options) (opt_repo options)
                    (GetTree treeSha) (inl e)])%list).
Proof.
  intros Hc. unfold getTree, Served.
  destruct (treeCache !! treeSha) as [cached |] eqn:Hit.
  - destruct (Hc _ _ Hit) as [t Ht].
    unfold bind, deref. rewrite Ht. rewrite new_object_run.
    intros [= <- <-]. left. exists t, []. simpl.
    rewrite app_nil_r. repeat split; try done.
    by apply lookup_app_l_Some.
  - destruct (gitdata_getTree github (opt_user options) (opt_repo options)
                treeSha (store w)) as [[e | t] store'] eqn:A;
      erewrite gitData_getTree_run by exact A; intros [= <- <-].
    + right. exists e. by rewrite heap_after_call, calls_after_call.
    + left. eexists t, [_]. simpl. repeat split; try done.
      eexists. split; [apply list_elem_of_here |]. done.
Qed.

Lemma existingTreesForPath_spec options pathParts :
  forall rootTree treeCache w r w',
    cache_ok (heap w) (default ∅ treeCache) ->
    is_Some (heap w !! rootTree) ->
    existingTreesForPath github options rootTree pathParts treeCache w
    = (r, w') ->
    exists new evs,
      heap w' = (heap w ++ new)%list /\
      calls w' = (calls w ++ evs)%list /\
      match r with
      | Ok (chain, cache') =>
          Resolved (heap w') evs (default ∅ treeCache) chain pathParts /\
          head chain = Some rootTree /\
          cache_ok (heap w') cache'
      | Throw e =>
          exists sha evs0 e0,
            e = promisified e0 /\
            evs = (evs0 ++ [mkEvent (opt_user options) (opt_repo options)
                              (GetTree sha) (inl e0)])%list
      end.
Proof.
  induction pathParts as [| path rest IH];
    intros rootTree treeCache w r w' Hc [root Hroot]; simpl;
    unfold bind at 1, deref; rewrite Hroot.
  - intros [= <- <-]. exists [], []. rewrite !app_nil_r.
    repeat split; try done.
    + by eapply resolved_end.
    + apply cache_ok_insert; eauto.
  - fold (subtree_entry root path).
    destruct (subtree_entry root path) as [[i e] |] eqn:Hf.
    + set (cache1 := <[t_sha root := rootTree]> (default ∅ treeCache)).
      assert (cache_ok (heap w) cache1) as Hc1
          by (apply cache_ok_insert; eauto).
      intros E.
      apply bind_inv in E as [(nextTree & w1 & E1 & E2) | (err & E1 & ->)].
      * destruct (getTree_spec _ _ _ _ _ _ Hc1 E1)
          as [(t & evs1 & [= ->] & H1 & C1 & S1) | (? & ? & _)]; [| done].
        assert (cache_ok (heap w1) (default ∅ (Some cache1))) as Hc1'.
        { simpl. rewrite H1. by apply cache_ok_app. }
        assert (is_Some (heap w1 !! length (heap w))) as Hn.
        { rewrite H1. exists t. by apply list_lookup_middle. }
        apply bind_inv in E2 as [(sub & w2 & E2 & E3) | (err & E2 & ->)].
        -- inversion E3; subst; clear E3.
           destruct sub as [chain cache'].
           destruct (IH _ _ _ _ _ Hc1' Hn E2)
             as (new & evs2 & H2 & C2 & R2 & Hd & Hc2).
           simpl in *.
           exists ([t] ++ new)%list, (evs1 ++ evs2)%list.
           assert (heap w' = (heap w ++ [t] ++ new)%list) as H'
               by (by rewrite H2, H1, <- app_assoc).
           split; [done |]. split; [by rewrite C2, C1, <- app_assoc |].
           split; [| done].
           destruct chain as [| l' chain]; [done |]. injection Hd as ->.
           eapply resolved_step with (t := root) (t' := t); eauto.
           ++ rewrite H'. by apply lookup_app_l_Some.
           ++ rewrite H', app_assoc. apply lookup_app_l_Some.
              by apply list_lookup_middle.
           ++ eapply Served_weaken; [exact Hc1' | | | exact S1].
              ** intros l x Hl. rewrite H2. by apply lookup_app_l_Some.
              ** intros ev Hin. apply elem_of_app. by left.
           ++ eapply Resolved_weaken; [| | exact R2 |]; [done | |].
              ** intros ev Hin. apply elem_of_app. by right.
              ** rewrite H2. by apply cache_ok_app.
        -- destruct (IH _ _ _ _ _ Hc1' Hn E2)
             as (new & evs2 & H2 & C2 & sha & evs0 & e0 & -> & ->).
           exists ([t] ++ new)%list.
           eexists (evs1 ++ evs0 ++ [_])%list.
           split; [by rewrite H2, H1, <- app_assoc |].
           split; [by rewrite C2, C1, <- app_assoc |].
           exists sha, (evs1 ++ evs0)%list, e0. by rewrite <- app_assoc.
      * destruct (getTree_spec _ _ _ _ _ _ Hc1 E1)
          as [(? & ? & ? & _) | (e' & [= ->] & H1 & C1)]; [done |].
        exists []. eexists [_]. rewrite app_nil_r.
        split; [done |]. split; [done |]. by exists (e_sha e), [], e'.
    + intros [= <- <-]. exists [], []. rewrite !app_nil_r.
      repeat split; try done.
      * by eapply resolved_stop.
      * apply cache_ok_insert; eauto.
Qed.

(** The chain is made of distinct records: the root, then records that
    did not exist before the resolution, in the order of their creation. *)
Lemma existingTreesForPath_distinct options pathParts :
  forall rootTree treeCache w chain cache' w',
    cache_ok (heap w) (default ∅ treeCache) ->
    is_Some (heap w !! rootTree) ->
    existingTreesForPath github options rootTree pathParts treeCache w
    = (Ok (chain, cache'), w') ->
    NoDup chain /\
    exists rest,
      chain = rootTree :: rest /\
      Forall (fun l => length (heap w) <= l) rest.
Proof.
  induction pathParts as [| path rest IH];
    intros rootTree treeCache w chain cache' w' Hc [root Hroot]; simpl;
    unfold bind at 1, deref; rewrite Hroot.
  - intros [= <- <- <-]. split; [apply NoDup_singleton |].
    exists []. split; [done | constructor].
  - fold (subtree_entry root path).
    destruct (subtree_entry root path) as [[i e] |] eqn:Hf.
    + set (cache1 := <[t_sha root := rootTree]> (default ∅ treeCache)).
      assert (cache_ok (heap w) cache1) as Hc1
          by (apply cache_ok_insert; eauto).
      intros E.
      apply bind_inv in E as [(nextTree & w1 & E1 & E2) | (err & E1 & ?)];
        [| done].
      destruct (getTree_spec _ _ _ _ _ _ Hc1 E1)
        as [(t & evs1 & [= ->] & H1 & C1 & S1) | (? & ? & _)]; [| done].
      assert (cache_ok (heap w1) (default ∅ (Some cache1))) as Hc1'.
      { simpl. rewrite H1. by apply cache_ok_app. }
      assert (is_Some (heap w1 !! length (heap w))) as Hn.
      { rewrite H1. exists t. by apply list_lookup_middle. }
      apply bind_inv in E2 as [(sub & w2 & E2 & E3) | (err & E2 & ?)];
        [| done].
      destruct sub as [sub cache2]. inversion E3; subst; clear E3.
      destruct (IH _ _ _ _ _ _ Hc1' Hn E2) as (Hnd & rest' & -> & Hge).
      assert (Forall (fun l => length (heap w) <= l)
                (length (heap w) :: rest')) as Hall.
      { constructor; [done |]. eapply Forall_impl; [exact Hge |].
        intros l Hl. rewrite H1, length_app in Hl. simpl in Hl. lia. }
      simpl. split.
      * apply NoDup_cons. split; [| done]. intros Hin.
        rewrite Forall_forall in Hall. apply Hall in Hin.
        apply lookup_lt_Some in Hroot. lia.
      * eexists. split; [done | exact Hall].
    + intros [= <- <- <-]. split; [apply NoDup_singleton |].
      exists []. split; [done | constructor].
Qed.

(** *** What the resolver leaves in the cache *)

Lemma recorded_lookup h chain :
  forall cache sha l,
    recorded h cache chain !! sha = Some l ->
    cache !! sha = Some l \/
    (l ∈ chain /\ exists t, h !! l = Some t /\ t_sha t = sha).
Proof.
  induction chain as [| x chain IH]; intros cache sha l H; [by left |].
  cbn [recorded foldl] in H. apply IH in H as [H | (Hin & t & Ht & Hs)].
  - destruct (h !! x) as [t |] eqn:Hx; [| by left].
    destruct (decide (t_sha t = sha)) as [<- | Hne].
    + rewrite lookup_insert_eq in H. inversion H; subst l.
      right. split; [apply list_elem_of_here | eauto].
    + rewrite lookup_insert_ne in H by done. by left.
  - right. split; [by apply list_elem_of_further | eauto].
Qed.

Lemma recorded_snoc h cache chain x :
  recorded h cache (chain ++ [x]) =
  match h !! x with
  | Some t => <[t_sha t := x]> (recorded h cache chain)
  | None => recorded h cache chain
  end.
Proof. unfold recorded. by rewrite foldl_app. Qed.

Lemma recorded_holds h chain :
  forall cache l t,
    l ∈ chain -> h !! l = Some t ->
    exists l', recorded h cache chain !! t_sha t = Some l' /\ l' ∈ chain.
Proof.
  induction chain as [| x chain IH] using rev_ind; intros cache l t Hin Ht.
  { by apply elem_of_nil in Hin. }
  rewrite recorded_snoc.
  apply elem_of_app in Hin as [Hin | Hin].
  - destruct (IH cache l t Hin Ht) as (l' & Hl' & Hin').
    destruct (h !! x) as [tx |] eqn:Hx.
    + destruct (decide (t_sha tx = t_sha t)) as [Heq | Hne].
      * exists x. rewrite Heq, lookup_insert_eq. split; [done |].
        apply elem_of_app. right. apply list_elem_of_here.
      * exists l'. rewrite lookup_insert_ne by done. split; [done |].
        apply elem_of_app. by left.
    + exists l'. split; [done |]. apply elem_of_app. by left.
  - apply list_elem_of_singleton in Hin. subst x. rewrite Ht.
    exists l. rewrite lookup_insert_eq. split; [done |].
    apply elem_of_app. right. apply list_elem_of_here.
Qed.

Lemma existingTreesForPath_recorded options pathParts :
  forall rootTree treeCache w chain cache' w',
    cache_ok (heap w) (default ∅ treeCache) ->
    is_Some (heap w !! rootTree) ->
    existingTreesForPath github options rootTree pathParts treeCache w
    = (Ok (chain, cache'), w') ->
    cache' = recorded (heap w') (default ∅ treeCache) chain.
Proof.
  induction pathParts as [| path rest IH];
    intros rootTree treeCache w chain cache' w' Hc [root Hroot] E.
  - simpl in E. unfold bind at 1, deref in E. rewrite Hroot in E.
    inversion E; subst. cbn [recorded foldl]. by rewrite Hroot.
  - pose proof E as E0. simpl in E. unfold bind at 1, deref in E.
    rewrite Hroot in E. fold (subtree_entry root path) in E.
    destruct (subtree_entry root path) as [[i e] |] eqn:Hf; last first.
    { inversion E; subst. cbn [recorded foldl]. by rewrite Hroot. }
    set (cache1 := <[t_sha root := rootTree]> (default ∅ treeCache)) in *.
    assert (cache_ok (heap w) cache1) as Hc1
        by (apply cache_ok_insert; eauto).
    apply bind_inv in E as [(nextTree & w1 & E1 & E2) | (err & E1 & ?)];
      [| done].
    destruct (getTree_spec _ _ _ _ _ _ Hc1 E1)
      as [(t & evs1 & [= ->] & H1 & C1 & S1) | (? & ? & _)]; [| done].
    assert (cache_ok (heap w1) (default ∅ (Some cache1))) as Hc1'.
    { simpl. rewrite H1. by apply cache_ok_app. }
    assert (is_Some (heap w1 !! length (heap w))) as Hn.
    { rewrite H1. exists t. by apply list_lookup_middle. }
    apply bind_inv in E2 as [(sub & w2 & E2 & E3) | (err & E2 & ?)];
      [| done].
    destruct sub as [sub cache2]. inversion E3; subst; clear E3.
    destruct (existingTreesForPath_spec options rest _ _ _ _ _ Hc1' Hn
                E2) as (new & evs & H2 & _).
    rewrite (IH _ _ _ _ _ _ Hc1' Hn E2). cbn [recorded foldl fst snd].
    assert (heap w' !! rootTree = Some root) as ->; [| done].
    rewrite H2, H1. by do 2 apply lookup_app_l_Some.
Qed.

(** C4.  Lenient path resolution.  Started on a root tree,
    [existingTreesForPath] only adds trees to the heap and only asks the
    store for trees.  When it is fulfilled, its chain starts at the root,
    follows the path segment by segment through entries of type tree, and
    stops where the path ends or at the first segment without such an
    entry; its length lies between 1 and the number of segments plus 1.
    It is rejected only with the error of a [getTree] request the store
    rejected, as the promisified method passes it on, never because a
    segment is missing.  In particular, when
    [x] exists under the root and [y] does not exist under [x], resolving
    [x/y/z] yields the chain of the root and the tree of [x], of length 2. *)
Theorem existingTreesForPath_is_lenient (options : Options) (rootTree : nat)
    (pathParts : list string) (treeCache : option (gmap Sha nat))
    (w : World Store) (root : Tree) :
  heap w !! rootTree = Some root ->
  cache_ok (heap w) (default ∅ treeCache) ->
  (forall r w',
     existingTreesForPath github options rootTree pathParts treeCache w
     = (r, w') ->
     exists new evs,
       heap w' = (heap w ++ new)%list /\
       calls w' = (calls w ++ evs)%list /\
       Forall (fun ev => request_name (ev_request ev) = "getTree") evs /\
       match r with
       | Ok (chain, cache') =>
           Resolved (heap w') evs (default ∅ treeCache) chain pathParts /\
           head chain = Some rootTree /\
           1 <= length chain <= length pathParts + 1
       | Throw e =>
           exists sha evs0 e0,
             e = promisified e0 /\
             evs = (evs0 ++ [mkEvent (opt_user options) (opt_repo options)
                               (GetTree sha) (inl e0)])%list
       end) /\
  (forall i x xtree store',
     treeCache = None ->
     subtree_entry root "x" = Some (i, x) ->
     e_sha x <> t_sha root ->
     gitdata_getTree github (opt_user options) (opt_repo options) (e_sha x)
       (store w) = (inr xtree, store') ->
     subtree_entry xtree "y" = None ->
     exists cache' w',
       existingTreesForPath github options rootTree ["x"; "y"; "z"] None w
       = (Ok ([rootTree; length (heap w)], cache'), w') /\
       heap w' = (heap w ++ [xtree])%list /\
       length [rootTree; length (heap w)] = 2).
Proof.
  intros Hroot Hc. split.
  - intros r w' E.
    destruct (existingTreesForPath_spec options pathParts rootTree treeCache
                w r w' Hc ltac:(eauto) E) as (new & evs & H & C & P).
    exists new, evs. split; [done |]. split; [done |]. split.
    + destruct (Emits_existingTreesForPath ["getTree"] options pathParts
                  ltac:(emits_name) _ _ _ _ _ E) as (evs' & C' & F').
      rewrite C in C'. apply app_inv_head in C'. subst evs'.
      eapply Forall_impl; [exact F' |]. intros ev Hin.
      apply elem_of_cons in Hin as [-> | Hin]; [done |].
      by apply elem_of_nil in Hin.
    + destruct r as [[chain cache'] | e]; [| done].
      destruct P as (R & Hd & _). split; [done |]. split; [done |].
      by eapply Resolved_length.
  - intros i x xtree store' -> Hx Hne A Hy. do 2 eexists.
    split; [| split; [| done]].
    + simpl. unfold bind at 1, deref. rewrite Hroot.
      fold (subtree_entry root "x"). rewrite Hx.
      erewrite bind_ok; last first.
      { unfold getTree. rewrite lookup_insert_ne by done.
        rewrite lookup_empty.
        erewrite gitData_getTree_run by exact A. reflexivity. }
      erewrite bind_ok; last first.
      { unfold bind at 1. cbn [heap].
        rewrite list_lookup_middle by done.
        change (list_find _ (t_tree xtree)) with (subtree_entry xtree "y").
        rewrite Hy. reflexivity. }
      reflexivity.
    + reflexivity.
Qed.

(** ** The tree rebuilder *)

Lemma carried_over_pick (e : TreeEntry) : carried_over e (pick e).
Proof. by repeat split. Qed.

Lemma Forall2_carried_over_pick (l : list TreeEntry) :
  Forall2 carried_over l (map pick l).
Proof.
  induction l as [| e l IH]; constructor; [apply carried_over_pick | done].
Qed.

Lemma set_child_found (x : TreeEntry) l segment childSha :
  e_path x = segment ->
  set_child (x :: l) segment childSha
  = mkEntry (e_path x) "040000" "tree" childSha (e_extra x) :: l.
Proof.
  intros H. unfold set_child. cbn [list_find]. by rewrite decide_True.
Qed.

Lemma set_child_sibling (x : TreeEntry) l segment childSha :
  e_path x <> segment ->
  set_child (x :: l) segment childSha = x :: set_child l segment childSha.
Proof.
  intros H. unfold set_child. cbn [list_find]. rewrite decide_False by done.
  by destruct (list_find _ l) as [[i child] |].
Qed.

Lemma set_child_Rebuilt (old : list TreeEntry) segment childSha :
  Rebuilt old segment childSha (map pick (set_child old segment childSha)).
Proof.
  induction old as [| x old IH]; [apply rebuilt_pushed |].
  destruct (decide (e_path x = segment)) as [Hx | Hx].
  - rewrite set_child_found by done. cbn [map pick e_path e_mode e_type e_sha].
    rewrite Hx. apply rebuilt_found; [done |].
    apply Forall2_carried_over_pick.
  - rewrite set_child_sibling by done. cbn [map].
    apply rebuilt_sibling; [done | apply carried_over_pick | done].
Qed.

Lemma slice_from_minus2_snoc2 {A} (l : list A) a b :
  slice_from_minus2 (l ++ [a; b]) = Some a.
Proof.
  unfold slice_from_minus2. rewrite length_app. simpl.
  replace (length l + 2 - 2) with (length l) by lia.
  by rewrite drop_app_length.
Qed.

Lemma removelast_snoc2 {A} (l : list A) a b :
  removelast (removelast (l ++ [a; b])) = l.
Proof.
  change (l ++ [a; b])%list with (l ++ [a] ++ [b])%list.
  rewrite app_assoc. by rewrite !removelast_last.
Qed.

Lemma createTreeForPath_rev_log options h revPathParts :
  forall revAncestors child childTree w r w',
    length revAncestors = length revPathParts ->
    NoDup revAncestors ->
    (forall parent, parent ∈ revAncestors ->
       exists old, h !! parent = Some old /\ heap w !! parent = Some old) ->
    heap w !! child = Some childTree ->
    createTreeForPath_rev github options (rev revAncestors ++ [child])
      revPathParts w = (r, w') ->
    exists evs result,
      calls w' = (calls w ++ evs)%list /\
      RebuildLog h (opt_user options) (opt_repo options) (t_sha childTree)
        revAncestors revPathParts evs result /\
      match r with
      | Ok newRoot =>
          exists l t,
            newRoot = Some l /\ heap w' !! l = Some t /\
            result = Some (t_sha t) /\ length evs = length revPathParts
      | Throw e =>
          result = None /\
          exists evs0 rq e0,
            e = promisified e0 /\
            evs = (evs0 ++ [mkEvent (opt_user options) (opt_repo options) rq
                              (inl e0)])%list
      end.
Proof.
  induction revPathParts as [| segment segments IH];
    intros revAncestors child childTree w r w' Hlen Hnd Hh Hchild E.
  - destruct revAncestors; [| done]. simpl in E.
    inversion E; subst; clear E.
    exists [], (Some (t_sha childTree)). rewrite app_nil_r.
    split; [done |]. split; [constructor |].
    exists child, childTree. done.
  - destruct revAncestors as [| parent parents]; [done |].
    simpl in Hlen. injection Hlen as Hlen.
    apply NoDup_cons in Hnd as [Hnotin Hnd].
    destruct (Hh parent) as (old & Hold & Hparent); [apply list_elem_of_here |].
    simpl in E. rewrite <- app_assoc in E. simpl in E.
    rewrite slice_from_minus2_snoc2 in E.
    change (rev parents ++ [parent; child])%list
      with (rev parents ++ [parent] ++ [child])%list in E.
    rewrite app_assoc, last_snoc in E.
    rewrite <- app_assoc in E. simpl in E. rewrite removelast_snoc2 in E.
    unfold bind at 1, deref at 1 in E. rewrite Hparent in E.
    unfold bind at 1, deref at 1 in E. rewrite Hchild in E.
    unfold bind at 1, assign in E.
    unfold bind at 1, deref at 1 in E. cbn [heap] in E.
    rewrite list_lookup_insert_eq in E
      by (by eapply lookup_lt_Some). cbn [t_tree] in E.
    unfold treeChildrenForCreateRequest in E. cbn [t_tree] in E.
    set (new := map pick (set_child (t_tree old) segment (t_sha childTree)))
      in *.
    set (w1 := mkWorld (store w) _ (calls w) (console w)) in *.
    assert (Rebuilt (t_tree old) segment (t_sha childTree) new) as HR
        by apply set_child_Rebuilt.
    destruct (gitdata_createTree github (opt_user options) (opt_repo options)
                (map Some new) (store w1)) as [[e | answer] store'] eqn:A.
    + erewrite bind_throw in E; last first.
      { erewrite gitData_createTree_run by exact A. reflexivity. }
      inversion E; subst; clear E.
      eexists [_], None. rewrite calls_after_call.
      split; [done |]. split; [by eapply rebuild_rejected |].
      split; [done |]. by eexists [], _, e.
    + erewrite bind_ok in E; last first.
      { erewrite gitData_createTree_run by exact A. reflexivity. }
      match type of E with
      | createTreeForPath_rev _ _ _ _ ?x = _ => set (w2 := x) in *
      end.
      assert (length (heap w1) = length (heap w)) as Hl1
          by apply length_insert.
      destruct (IH parents (length (heap w1)) answer w2 r w' Hlen Hnd)
        as (evs & result & C & L & P); [| | exact E |].
      * intros q Hq. destruct (Hh q) as (x & Hx & Hq');
          [by apply list_elem_of_further |].
        exists x. split; [done |]. unfold w2, w1. cbn [heap].
        apply lookup_app_l_Some. rewrite list_lookup_insert_ne; [done |].
        intros ->. done.
      * unfold w2. cbn [heap]. by apply list_lookup_middle.
      * eexists (_ :: evs), result. split.
        { rewrite C. unfold w2, w1. cbn [calls].
          rewrite <- app_assoc. reflexivity. }
        split; [by eapply rebuild_step |].
        destruct r as [newRoot | e].
        -- destruct P as (l & t & -> & Ht & -> & Hn).
           exists l, t. simpl. by rewrite Hn.
        -- destruct P as (-> & evs0 & rq & e0 & -> & ->). split; [done |].
           by eexists (_ :: evs0), rq, e0.
Qed.

Lemma rev_is_reverse {A} (l : list A) : rev l = reverse l.
Proof. unfold reverse. apply rev_alt. Qed.

Lemma RebuildLog_createTree h user repo childSha parents segments evs result :
  RebuildLog h user repo childSha parents segments evs result ->
  Forall (fun ev => request_name (ev_request ev) = "createTree") evs /\
  length evs <= length segments.
Proof.
  induction 1 as [| ? ? ? ? ? ? ? ? ? ? ? ? ? [IH1 IH2] |]; simpl.
  - split; [constructor | lia].
  - split; [by constructor | lia].
  - split; [by repeat constructor | lia].
Qed.

(** C1.  The rebuild preserves structural sharing.  Take a chain of
    distinct ancestor trees with the new leaf appended and as many path
    segments as ancestors.  [createTreeForPath] completes [createTree]
    requests only, at most one per segment and exactly one per segment
    when it is fulfilled; they run from the deepest parent to the root,
    and the entries of each are the rebuilt entries of that parent: entry
    by entry the parent's own, each with its path, its mode, its type and
    its hash and with no other field, except that the entry of the
    segment (added if absent) is a directory with mode 040000 pointing at
    the finished child.  The tree it is fulfilled with is the store's
    answer to the last request; a rejection is the store's refusal of a
    request, as the promisified method passes it on. *)
Theorem createTreeForPath_structural_sharing (options : Options)
    (ancestors : list nat) (leaf : nat) (pathParts : list string)
    (w : World Store) (leafTree : Tree) :
  length ancestors = length pathParts ->
  NoDup ancestors ->
  (forall parent, parent ∈ ancestors -> is_Some (heap w !! parent)) ->
  heap w !! leaf = Some leafTree ->
  forall r w',
    createTreeForPath github options (ancestors ++ [leaf]) pathParts w
    = (r, w') ->
    exists evs result,
      calls w' = (calls w ++ evs)%list /\
      RebuildLog (heap w) (opt_user options) (opt_repo options)
        (t_sha leafTree) (rev ancestors) (rev pathParts) evs result /\
      Forall (fun ev => request_name (ev_request ev) = "createTree") evs /\
      length evs <= length pathParts /\
      match r with
      | Ok newRoot =>
          exists l t,
            newRoot = Some l /\ heap w' !! l = Some t /\
            result = Some (t_sha t) /\ length evs = length pathParts
      | Throw e =>
          result = None /\
          exists evs0 rq e0,
            e = promisified e0 /\
            evs = (evs0 ++ [mkEvent (opt_user options) (opt_repo options) rq
                              (inl e0)])%list
      end.
Proof.
  intros Hlen Hnd Halloc Hleaf r w' E. unfold createTreeForPath in E.
  rewrite <- (rev_involutive ancestors) in E.
  destruct (createTreeForPath_rev_log options (heap w) (rev pathParts)
              (rev ancestors) leaf leafTree w r w') as (evs & result & C & L & P).
  - by rewrite !length_rev.
  - rewrite rev_is_reverse. by rewrite reverse_Permutation.
  - intros parent Hin. rewrite rev_is_reverse, elem_of_reverse in Hin.
    destruct (Halloc parent Hin) as [old Hold]. eauto.
  - done.
  - done.
  - exists evs, result. split; [done |]. split; [done |].
    destruct (RebuildLog_createTree _ _ _ _ _ _ _ _ L) as [F Hle].
    rewrite length_rev in Hle. split; [done |]. split; [done |].
    destruct r; [| done].
    destruct P as (l & t & ? & ? & ? & Hn). rewrite length_rev in Hn. eauto 10.
Qed.

(** ** The cache *)

Lemma slice_from_minus2_elem {A} (l : list A) a :
  slice_from_minus2 l = Some a -> a ∈ l.
Proof.
  unfold slice_from_minus2. intros H.
  apply head_Some in H as [l' H].
  rewrite <- (take_drop (length l - 2) l), H.
  apply elem_of_app. right. apply list_elem_of_here.
Qed.

Lemma elem_of_removelast {A} (l : list A) a : a ∈ removelast l -> a ∈ l.
Proof.
  rewrite removelast_firstn_len. intros H.
  rewrite <- (take_drop (Nat.pred (length l)) l). apply elem_of_app. by left.
Qed.

(** The rebuild writes to trees of its chain only. *)
Lemma createTreeForPath_rev_frame options revPathParts :
  forall treesForPath w r w' l x,
    heap w !! l = Some x ->
    l ∉ treesForPath ->
    createTreeForPath_rev github options treesForPath revPathParts w
    = (r, w') ->
    heap w' !! l = Some x.
Proof.
  induction revPathParts as [| lastPath rest IH];
    intros treesForPath w r w' l x Hl Hnot E; simpl in E.
  - by inversion E; subst.
  - destruct (slice_from_minus2 treesForPath) as [parentTree |] eqn:Hs;
      [| by inversion E; subst].
    destruct (last treesForPath) as [lastTree |];
      [| by inversion E; subst].
    assert (l <> parentTree) as Hne.
    { intros ->. apply Hnot. by apply slice_from_minus2_elem. }
    unfold bind at 1, deref at 1 in E.
    destruct (heap w !! parentTree) as [parent |] eqn:Hp;
      [| by inversion E; subst].
    unfold bind at 1, deref at 1 in E.
    destruct (heap w !! lastTree) as [child |] eqn:Hc;
      [| by inversion E; subst].
    unfold bind at 1, assign in E.
    unfold bind at 1, deref at 1 in E. cbn [heap] in E.
    rewrite list_lookup_insert_eq in E by (by eapply lookup_lt_Some).
    match type of E with
    | bind (gitData_createTree _ _ ?tree) _ ?x = _ =>
        set (w1 := x) in *; set (request := tree) in *
    end.
    assert (heap w1 !! l = Some x) as Hl1.
    { unfold w1. cbn [heap]. by rewrite list_lookup_insert_ne. }
    destruct (gitdata_createTree github (opt_user options) (opt_repo options)
                request (store w1)) as [[e | answer] store'] eqn:A.
    + erewrite bind_throw in E; last first.
      { erewrite gitData_createTree_run by exact A. reflexivity. }
      inversion E; subst. by rewrite heap_after_call.
    + erewrite bind_ok in E; last first.
      { erewrite gitData_createTree_run by exact A. reflexivity. }
      eapply IH; [| | exact E].
      * cbn [heap]. by apply lookup_app_l_Some.
      * intros Hin. apply elem_of_app in Hin as [Hin | Hin].
        -- apply Hnot. by do 2 apply elem_of_removelast.
        -- apply list_elem_of_singleton in Hin.
           apply lookup_lt_Some in Hl1. lia.
Qed.

(** ** The snapshot builder *)

Lemma LocalChild_weaken localPath evs evs' filename child :
  (forall ev, ev ∈ evs -> ev ∈ evs') ->
  LocalChild fs localPath evs filename child ->
  LocalChild fs localPath evs' filename child.
Proof.
  intros He. destruct child as [e |]; [| done]. simpl.
  intros (Hs & content & sha & Hr & -> & ev & Hin & Hq & Ho).
  split; [done |]. exists content, sha. split; [done |]. split; [done |].
  exists ev. eauto.
Qed.

Lemma createEntryFor_spec options localPath filename pathExists w r w' :
  createEntryFor github fs options localPath filename pathExists w = (r, w') ->
  heap w' = heap w /\
  exists evs,
    calls w' = (calls w ++ evs)%list /\
    forall child pathExists',
      r = Ok (child, pathExists') ->
      LocalChild fs localPath evs filename child /\
      pathExists' =
      match child with
      | Some e => {[e_path e]} ∪ pathExists
      | None => pathExists
      end.
Proof.
  unfold createEntryFor.
  destruct (fs_stat fs (path_join fs localPath filename))
    as [e | [|]] eqn:Hs; cbn [lift].
  - intros [= <- <-]. split; [done |]. exists []. rewrite app_nil_r.
    split; [done |]. done.
  - intros [= <- <-]. split; [done |]. exists []. rewrite app_nil_r.
    split; [done |]. intros child pe [= <- <-]. done.
  - rewrite bind_ret_l.
    destruct (fs_readFile fs (path_join fs localPath filename))
      as [e | content] eqn:Hr; cbn [lift].
    + intros [= <- <-]. split; [done |]. exists []. rewrite app_nil_r.
      split; [done |]. done.
    + rewrite bind_ret_l. unfold bind, gitData_createBlob.
      rewrite gitData_run.
      destruct (gitdata_createBlob github _ _ content "utf-8" (store w))
        as [[e | sha] store'] eqn:A; cbn [fst snd settle outcome];
        intros [= <- <-].
      * split; [done |]. eexists [_]. split; [done |]. done.
      * split; [done |]. eexists [_]. split; [done |].
        intros child pe [= <- <-]. split; [| done]. simpl.
        split; [done |]. exists content, sha. repeat split; try done.
        eexists. split; [apply list_elem_of_here |]. done.
Qed.

Lemma promise_all_map_createEntryFor options localPath filenames :
  forall pathExists w children pathExists' w',
    promise_all_map (createEntryFor github fs options localPath) filenames
      pathExists w = (Ok (children, pathExists'), w') ->
    heap w' = heap w /\
    exists evs,
      calls w' = (calls w ++ evs)%list /\
      Forall2 (LocalChild fs localPath evs) filenames children /\
      pathExists' = created_paths children ∪ pathExists.
Proof.
  induction filenames as [| filename rest IH];
    intros pathExists w children pathExists' w'; simpl.
  - intros [= <- <- <-]. split; [done |]. exists []. rewrite app_nil_r.
    split; [done |]. split; [constructor |].
    unfold created_paths. simpl. by rewrite union_empty_l_L.
  - destruct (createEntryFor github fs options localPath filename pathExists w)
      as [r1 w1] eqn:E1.
    destruct (promise_all_map _ rest _ w1) as [rs w2] eqn:E2.
    destruct r1 as [[child pe1] | e]; [| by destruct rs].
    destruct rs as [[l pe2] | e]; [| done].
    intros [= <- <- <-].
    destruct (createEntryFor_spec _ _ _ _ _ _ _ E1) as (H1 & evs1 & C1 & S1).
    destruct (S1 child pe1 eq_refl) as [L1 ->].
    destruct (IH _ _ _ _ _ E2) as (H2 & evs2 & C2 & F2 & ->).
    split; [by rewrite H2 |]. exists (evs1 ++ evs2)%list.
    split; [by rewrite C2, C1, app_assoc |]. split.
    + constructor.
      * eapply LocalChild_weaken; [| exact L1].
        intros ev Hin. apply elem_of_app. by left.
      * eapply Forall2_impl; [exact F2 |]. intros filename' child'.
        apply LocalChild_weaken. intros ev Hin. apply elem_of_app. by right.
    + unfold created_paths. destruct child as [e |]; simpl.
      * rewrite union_assoc_L.
        by rewrite (union_comm_L _ {[e_path e]}).
      * done.
Qed.

Lemma promise_all_map_createEntryFor_heap options localPath filenames :
  forall pathExists w r w',
    promise_all_map (createEntryFor github fs options localPath) filenames
      pathExists w = (r, w') ->
    heap w' = heap w.
Proof.
  induction filenames as [| filename rest IH]; intros pathExists w r w';
    simpl.
  - by intros [= <- <-].
  - destruct (createEntryFor github fs options localPath filename pathExists w)
      as [r1 w1] eqn:E1.
    destruct (promise_all_map _ rest _ w1) as [rs w2] eqn:E2.
    intros [= <- <-].
    destruct (createEntryFor_spec _ _ _ _ _ _ _ E1) as (H1 & _).
    by rewrite (IH _ _ _ _ E2).
Qed.

(** What the builder submits: the children made of the local names, in
    the order of the listing, followed by the entries kept from the
    existing tree. *)
Lemma createTreeForSingleDir_submits options localPath baseTree filenames
    children pathExists w w1 base :
  fs_readdir fs localPath = inr filenames ->
  promise_all_map (createEntryFor github fs options localPath) filenames ∅ w
  = (Ok (children, pathExists), w1) ->
  (forall b, baseTree = Some b -> heap w !! b = Some base) ->
  createTreeForSingleDir github fs options (str localPath) baseTree w =
  gitData_createTree github options
    (children ++
     match baseTree with
     | Some _ => map Some (kept_from_base pathExists base)
     | None => []
     end)
    w1.
Proof.
  intros Hd E Hb. unfold createTreeForSingleDir. rewrite Hd.
  unfold bind at 1, lift, ret.
  erewrite bind_ok by exact E. cbn [fst snd].
  destruct baseTree as [b |].
  - destruct (promise_all_map_createEntryFor _ _ _ _ _ _ _ _ E) as (H & _).
    unfold bind at 1. unfold bind at 1, deref.
    rewrite H, (Hb b eq_refl). reflexivity.
  - unfold bind at 1, ret. by rewrite app_nil_r.
Qed.

(** Of the existing entries, those are kept whose path is neither the
    path of a created entry nor a name inherited from [Object.prototype]. *)
Lemma kept_from_base_spec children base e :
  e ∈ kept_from_base (created_paths children ∪ ∅) base <->
  exists old,
    old ∈ t_tree base /\ e = pick old /\
    (e_path old ∉ created_paths children) /\
    (e_path old ∉ Object_prototype_names).
Proof.
  unfold kept_from_base, treeChildrenForCreateRequest, has_truthy.
  rewrite list_elem_of_filter, list_elem_of_fmap. split.
  - intros [Hf (old & -> & Hin)]. exists old. simpl in Hf.
    apply orb_false_iff in Hf as [H1 H2].
    apply bool_decide_eq_false in H1, H2.
    repeat split; try done. intros Hin'. apply H1.
    apply elem_of_union. by left.
  - intros (old & Hin & -> & H1 & H2). split; [| eauto]. simpl.
    apply orb_false_iff. split; apply bool_decide_eq_false; [| done].
    rewrite elem_of_union. intros [? | Hemp]; [done |].
    by apply not_elem_of_empty in Hemp.
Qed.

(** The additive merge, away from the inherited names: if no entry of the
    existing tree is named like a property of [Object.prototype], the
    entries kept are exactly those whose path is not the path of a created
    entry. *)
Lemma kept_from_base_without_inherited_names children base :
  Forall (fun e => e_path e ∉ Object_prototype_names) (t_tree base) ->
  kept_from_base (created_paths children ∪ ∅) base
  = map pick
      (filter (fun e => e_path e ∉ created_paths children) (t_tree base)).
Proof.
  unfold kept_from_base, treeChildrenForCreateRequest.
  induction (t_tree base) as [| e l IH]; intros F; [done |].
  apply Forall_cons in F as [He F]. simpl.
  rewrite !filter_cons. simpl.
  assert (has_truthy (created_paths children ∪ ∅) (e_path e) = false
          <-> e_path e ∉ created_paths children) as Hiff.
  { unfold has_truthy. rewrite orb_false_iff, !bool_decide_eq_false.
    rewrite union_empty_r_L. tauto. }
  destruct (decide (has_truthy _ _ = false)) as [Ht | Ht];
    destruct (decide (e_path e ∉ created_paths children)) as [Hn | Hn];
    try tauto; simpl; by rewrite IH.
Qed.

(** ** The cache, the chain and the rebuild *)

Lemma set_child_Rewritten (old : list TreeEntry) segment childSha :
  Rewritten old segment childSha (set_child old segment childSha).
Proof.
  induction old as [| x old IH]; [apply rewritten_pushed |].
  destruct (decide (e_path x = segment)) as [Hx | Hx].
  - rewrite set_child_found by done. rewrite Hx. by apply rewritten_found.
  - rewrite set_child_sibling by done. by apply rewritten_sibling.
Qed.

(** A fulfilled rebuild has written once to each ancestor: the ancestor
    keeps its hash, and its entries are those it had, rewritten for its
    segment and the tree made for the level below. *)
Lemma createTreeForPath_rev_rewrites options revPathParts :
  forall revAncestors child w newRoot w',
    length revAncestors = length revPathParts ->
    NoDup revAncestors ->
    child ∉ revAncestors ->
    child < length (heap w) ->
    (forall parent, parent ∈ revAncestors -> parent < length (heap w)) ->
    createTreeForPath_rev github options (rev revAncestors ++ [child])
      revPathParts w = (Ok newRoot, w') ->
    forall i parent segment,
      revAncestors !! i = Some parent ->
      revPathParts !! i = Some segment ->
      exists old c made entries,
        heap w !! parent = Some old /\
        heap w' !! parent = Some (mkTree (t_sha old) entries) /\
        Rewritten (t_tree old) segment (t_sha made) entries /\
        heap w' !! c = Some made /\
        (c = child \/ length (heap w) <= c).
Proof.
  induction revPathParts as [| segment segments IH];
    intros revAncestors child w newRoot w' Hlen Hnd Hchild Hc Hlt E
           i p s Hp Hs; [done |].
  destruct revAncestors as [| parent parents]; [done |].
  simpl in Hlen. injection Hlen as Hlen.
  apply NoDup_cons in Hnd as [Hnotin Hnd].
  apply not_elem_of_cons in Hchild as [Hne Hchild].
  destruct (lookup_lt_is_Some_2 (heap w) parent) as [old Hparent];
    [apply Hlt, list_elem_of_here |].
  destruct (lookup_lt_is_Some_2 (heap w) child) as [childTree HchildTree];
    [done |].
  simpl in E. rewrite <- app_assoc in E. simpl in E.
  rewrite slice_from_minus2_snoc2 in E.
  change (rev parents ++ [parent; child])%list
    with (rev parents ++ [parent] ++ [child])%list in E.
  rewrite app_assoc, last_snoc in E.
  rewrite <- app_assoc in E. simpl in E. rewrite removelast_snoc2 in E.
  unfold bind at 1, deref at 1 in E. rewrite Hparent in E.
  unfold bind at 1, deref at 1 in E. rewrite HchildTree in E.
  unfold bind at 1, assign in E.
  unfold bind at 1, deref at 1 in E. cbn [heap] in E.
  rewrite list_lookup_insert_eq in E by (by eapply lookup_lt_Some).
  set (entries := set_child (t_tree old) segment (t_sha childTree)) in *.
  match type of E with
  | bind (gitData_createTree _ _ ?tree) _ ?x = _ =>
      set (w1 := x) in *; set (request := tree) in *
  end.
  assert (length (heap w1) = length (heap w)) as Hl1 by apply length_insert.
  destruct (gitdata_createTree github (opt_user options) (opt_repo options)
              request (store w1)) as [[e | answer] store'] eqn:A.
  { erewrite bind_throw in E; last first.
    { erewrite gitData_createTree_run by exact A. reflexivity. }
    done. }
  erewrite bind_ok in E; last first.
  { erewrite gitData_createTree_run by exact A. reflexivity. }
  match type of E with
  | createTreeForPath_rev _ _ _ _ ?x = _ => set (w2 := x) in *
  end.
  assert (heap w2 = (<[parent := mkTree (t_sha old) entries]> (heap w)
                     ++ [answer])%list) as H2 by reflexivity.
  assert (forall l, l <> parent -> l < length (heap w) ->
                    heap w2 !! l = heap w !! l) as Hkeep.
  { intros l Hl Hll. rewrite H2, lookup_app_l by (by rewrite length_insert).
    by rewrite list_lookup_insert_ne. }
  assert (forall l x, heap w2 !! l = Some x -> l ∉ parents ->
                      l < length (heap w) -> heap w' !! l = Some x) as Hframe.
  { intros l x Hl Hnot Hll.
    eapply createTreeForPath_rev_frame; [exact Hl | | exact E].
    intros Hin. apply elem_of_app in Hin as [Hin | Hin].
    - apply Hnot. by rewrite rev_is_reverse, elem_of_reverse in Hin.
    - apply list_elem_of_singleton in Hin. lia. }
  destruct i as [| i].
  - injection Hp as <-. injection Hs as <-.
    exists old, child, childTree, entries.
    split; [done |]. split; [| split; [apply set_child_Rewritten |]].
    + apply Hframe; [| done | by eapply lookup_lt_Some].
      rewrite H2, lookup_app_l
        by (rewrite length_insert; by eapply lookup_lt_Some).
      apply list_lookup_insert_eq. by eapply lookup_lt_Some.
    + split; [| by left].
      apply Hframe; [| done | done].
      by rewrite Hkeep.
  - cbn [lookup list_lookup] in Hp, Hs.
    assert (p ∈ parents) as Hin by (by eapply list_elem_of_lookup_2).
    assert (p < length (heap w)) as Hpl
        by (by apply Hlt, list_elem_of_further).
    destruct (IH parents (length (heap w1)) w2 newRoot w' Hlen Hnd)
      with (i := i) (parent := p) (segment := s)
      as (old' & c & made & entries' & Ho & Hw & HR & Hm & Hcm);
      [| | | exact E | done | done |].
    + intros Hi. rewrite Hl1 in Hi.
      assert (length (heap w) < length (heap w)); [| lia].
      by apply Hlt, list_elem_of_further.
    + rewrite Hl1, H2, length_app, length_insert. simpl. lia.
    + intros q Hq. rewrite H2, length_app, length_insert. simpl.
      assert (q < length (heap w)); [| lia].
      by apply Hlt, list_elem_of_further.
    + exists old', c, made, entries'.
      split; [| split; [done | split; [done | split; [done |]]]].
      * rewrite <- Ho. symmetry. apply Hkeep; [| done].
        intros ->. done.
      * right. destruct Hcm as [-> | Hcm]; [lia |].
        rewrite H2, length_app, length_insert in Hcm. lia.
Qed.

(** The snapshot of the local directory adds one tree and writes to
    none. *)
Lemma createTreeForSingleDir_heap options localPath baseTree w r w' :
  createTreeForSingleDir github fs options localPath baseTree w = (r, w') ->
  match r with
  | Ok l => l = length (heap w) /\ exists t, heap w' = (heap w ++ [t])%list
  | Throw _ => heap w' = heap w
  end.
Proof.
  unfold createTreeForSingleDir.
  destruct localPath as [| | b | z | localPath | id];
    try (by intros [= <- <-]).
  intros E.
  apply bind_inv in E as [(filenames & w0 & E0 & E) | (e & E0 & ->)];
    last first.
  { unfold lift in E0. by destruct (fs_readdir fs localPath); inversion E0. }
  assert (w0 = w) as ->.
  { unfold lift in E0. by destruct (fs_readdir fs localPath); inversion E0. }
  apply bind_inv in E as [(made & w1 & E1 & E) | (e & E1 & ->)];
    last first.
  { by eapply promise_all_map_createEntryFor_heap. }
  pose proof (promise_all_map_createEntryFor_heap _ _ _ _ _ _ _ E1) as H1.
  apply bind_inv in E as [(children & w2 & E2 & E) | (e & E2 & ->)];
    last first.
  { destruct baseTree as [b |]; [| done].
    apply bind_inv in E2 as [(base & w3 & E3 & E4) | (e' & E3 & _)];
      [done |].
    unfold deref in E3. destruct (heap w1 !! b); inversion E3; subst.
    done. }
  assert (heap w2 = heap w) as H2.
  { destruct baseTree as [b |]; [| by inversion E2; subst].
    apply bind_inv in E2 as [(base & w3 & E3 & E4) | (e' & E3 & ?)];
      [| done].
    unfold deref in E3. destruct (heap w1 !! b); inversion E3; subst.
    by inversion E4; subst. }
  destruct (gitdata_createTree github (opt_user options) (opt_repo options)
              children (store w2)) as [[e | answer] store'] eqn:A;
    erewrite gitData_createTree_run in E by exact A;
    inversion E; subst; clear E; cbn [heap].
  - by rewrite heap_after_call.
  - rewrite H2. eauto.
Qed.

(** The rebuild writes to the ancestors of its chain only. *)
Lemma createNewTreeForPath_frame options treesForPath pathParts w r w' l t :
  heap w !! l = Some t ->
  l ∉ without_existing_leaf treesForPath pathParts ->
  createNewTreeForPath github fs options treesForPath pathParts w = (r, w') ->
  heap w' !! l = Some t.
Proof.
  intros Hl Hnot E.
  unfold createNewTreeForPath in E. cbv zeta in E.
  change (if bool_decide (length treesForPath = length pathParts + 1)
          then removelast treesForPath else treesForPath)
    with (without_existing_leaf treesForPath pathParts) in E.
  apply bind_inv in E as [([] & w0 & E0 & E) | (e & E0 & ->)]; last first.
  { destruct (bool_decide (length treesForPath = length pathParts + 1));
      [rewrite debug_run in E0 |]; by inversion E0. }
  assert (heap w0 = heap w) as H0.
  { destruct (bool_decide (length treesForPath = length pathParts + 1));
      [rewrite debug_run in E0 |]; inversion E0; subst;
      by rewrite ?heap_logged. }
  apply bind_inv in E as [(leaf & w1 & Es & E) | (e & Es & ->)]; last first.
  { case_bool_decide as Hlen; [| by inversion Es; subst; rewrite H0].
    apply createTreeForSingleDir_heap in Es. by rewrite Es, H0. }
  case_bool_decide as Hlen; [| done].
  apply createTreeForSingleDir_heap in Es as (-> & t1 & H1).
  eapply createTreeForPath_rev_frame; [| | exact E].
  - rewrite H1, H0. by apply lookup_app_l_Some.
  - intros Hin. apply elem_of_app in Hin as [Hin | Hin]; [done |].
    apply list_elem_of_singleton in Hin. apply lookup_lt_Some in Hl.
    rewrite H0 in Hin. lia.
Qed.

(** A fulfilled rebuild has rewritten each ancestor of its chain in
    place. *)
Lemma createNewTreeForPath_rewrites options treesForPath pathParts w newRoot
    w' :
  NoDup (without_existing_leaf treesForPath pathParts) ->
  (forall parent, parent ∈ without_existing_leaf treesForPath pathParts ->
                  is_Some (heap w !! parent)) ->
  createNewTreeForPath github fs options treesForPath pathParts w
  = (Ok newRoot, w') ->
  Forall2 (fun parent segment =>
             exists old c made entries,
               heap w !! parent = Some old /\
               heap w' !! parent = Some (mkTree (t_sha old) entries) /\
               Rewritten (t_tree old) segment (t_sha made) entries /\
               heap w' !! c = Some made /\
               length (heap w) <= c)
          (without_existing_leaf treesForPath pathParts) pathParts.
Proof.
  intros Hnd Halloc E.
  unfold createNewTreeForPath in E. cbv zeta in E.
  change (if bool_decide (length treesForPath = length pathParts + 1)
          then removelast treesForPath else treesForPath)
    with (without_existing_leaf treesForPath pathParts) in E.
  set (ancestors := without_existing_leaf treesForPath pathParts) in *.
  apply bind_inv in E as [([] & w0 & E0 & E) | (? & _ & ?)]; [| done].
  assert (heap w0 = heap w) as H0.
  { destruct (bool_decide (length treesForPath = length pathParts + 1));
      [rewrite debug_run in E0 |]; inversion E0; subst;
      by rewrite ?heap_logged. }
  apply bind_inv in E as [(leaf & w1 & Es & E) | (? & _ & ?)]; [| done].
  case_bool_decide as Hlen; [| done].
  apply createTreeForSingleDir_heap in Es as (-> & t1 & H1).
  rewrite H0 in H1. rewrite H0 in E.
  unfold createTreeForPath in E.
  rewrite <- (rev_involutive ancestors) in E.
  pose proof (createTreeForPath_rev_rewrites options (rev pathParts)
                (rev ancestors) (length (heap w)) w1 newRoot w') as Hrw.
  rewrite <- (reverse_involutive ancestors), <- (reverse_involutive pathParts).
  rewrite <- !rev_is_reverse.
  rewrite !(rev_is_reverse (rev _)).
  apply Forall2_reverse.
  apply Forall2_same_length_lookup_2; [by rewrite !length_rev |].
  intros i parent segment Hp Hs.
  assert (parent ∈ ancestors) as Hin.
  { apply list_elem_of_lookup_2 in Hp.
    by rewrite rev_is_reverse, elem_of_reverse in Hp. }
  destruct (Halloc parent Hin) as [old Hold].
  destruct (Hrw ltac:(by rewrite !length_rev)) with (i := i) (parent := parent)
    (segment := segment)
    as (old' & c & made & entries & Ho & Hw & HR & Hm & Hc);
    [| | | | exact E | done | done |].
  - rewrite rev_is_reverse. by rewrite reverse_Permutation.
  - intros Hi. rewrite rev_is_reverse, elem_of_reverse in Hi.
    destruct (Halloc _ Hi) as [x Hx]. apply lookup_lt_Some in Hx. lia.
  - rewrite H1, length_app. simpl. lia.
  - intros q Hq. rewrite rev_is_reverse, elem_of_reverse in Hq.
    destruct (Halloc _ Hq) as [x Hx]. apply lookup_lt_Some in Hx.
    rewrite H1, length_app. simpl. lia.
  - exists old, c, made, entries.
    assert (old' = old) as ->.
    { rewrite H1, (lookup_app_l_Some _ _ _ _ Hold) in Ho. by injection Ho. }
    split; [done |]. split; [done |]. split; [done |]. split; [done |].
    destruct Hc as [-> | Hc]; [done |].
    rewrite H1, length_app in Hc. lia.
Qed.

(** C7, as amended.  What the copy made on a cache hit gives.  Take a
    fulfilled resolution, whatever the cache held at its start, and the
    rebuild that follows it on the resolved chain.  The resolution writes
    to no tree.  The chain is the resolved one, a tree served from the
    cache having the hash and the entries of the cached tree; its trees
    are pairwise distinct records, and each of them but the given root
    was made by the resolution, served from the cache or not.  What the
    cache holds afterwards is what it held before and, by reference, trees
    of the chain.  A tree that the cache held before, the given root
    apart, is not in the chain and is after the rebuild what it was
    before the resolution.  The rebuild writes to the ancestors of the
    chain only, and these the cache holds: when it is fulfilled, every
    ancestor has kept its hash and has the entries it was resolved with,
    rewritten in place for its own segment and a tree made during the
    rebuild. *)
Theorem rebuild_alters_the_resolved_chain_only (options : Options)
    (rootTree : nat) (pathParts : list string)
    (treeCache : option (gmap Sha nat)) (w w1 w2 : World Store)
    (chain : list nat) (cache' : gmap Sha nat) (r : Result (option nat)) :
  cache_ok (heap w) (default ∅ treeCache) ->
  is_Some (heap w !! rootTree) ->
  existingTreesForPath github options rootTree pathParts treeCache w
  = (Ok (chain, cache'), w1) ->
  createNewTreeForPath github fs options chain pathParts w1 = (r, w2) ->
  let ancestors := without_existing_leaf chain pathParts in
  (forall l t, heap w !! l = Some t -> heap w1 !! l = Some t) /\
  (exists evs,
     calls w1 = (calls w ++ evs)%list /\
     Resolved (heap w1) evs (default ∅ treeCache) chain pathParts) /\
  NoDup chain /\
  (forall l, l ∈ chain -> l = rootTree \/ length (heap w) <= l) /\
  (forall sha l,
     cache' !! sha = Some l ->
     default ∅ treeCache !! sha = Some l \/
     (l ∈ chain /\ exists t, heap w1 !! l = Some t /\ t_sha t = sha)) /\
  (forall l t,
     l ∈ chain -> heap w1 !! l = Some t ->
     exists l', cache' !! t_sha t = Some l' /\ l' ∈ chain) /\
  (forall sha held,
     default ∅ treeCache !! sha = Some held -> held <> rootTree ->
     (held ∉ chain) /\ is_Some (heap w !! held) /\
     heap w2 !! held = heap w !! held) /\
  (forall l t,
     heap w1 !! l = Some t -> l ∉ ancestors -> heap w2 !! l = Some t) /\
  (forall newRoot,
     r = Ok newRoot ->
     Forall2 (fun parent segment =>
                exists old c made entries,
                  heap w1 !! parent = Some old /\
                  heap w2 !! parent = Some (mkTree (t_sha old) entries) /\
                  Rewritten (t_tree old) segment (t_sha made) entries /\
                  heap w2 !! c = Some made /\
                  length (heap w1) <= c)
             ancestors pathParts).
Proof.
  intros Hc Hroot E1 E2 ancestors.
  destruct (existingTreesForPath_spec options pathParts _ _ _ _ _ Hc Hroot E1)
    as (new & evs & H1 & C1 & R & _ & _).
  destruct (existingTreesForPath_distinct options pathParts _ _ _ _ _ _
              Hc Hroot E1) as (Hnd & rest & Hchain & Hge).
  pose proof (existingTreesForPath_recorded options pathParts _ _ _ _ _ _
                Hc Hroot E1)
    as Hrec.
  assert (forall l, l ∈ chain -> l = rootTree \/ length (heap w) <= l)
    as Hnew.
  { intros l Hin. rewrite Hchain in Hin.
    apply elem_of_cons in Hin as [-> | Hin]; [by left |].
    right. rewrite Forall_forall in Hge. by apply Hge. }
  assert (forall l, l ∈ ancestors -> l ∈ chain) as Hsub.
  { intros l. unfold ancestors, without_existing_leaf.
    case_bool_decide; [apply elem_of_removelast | done]. }
  assert (forall l t, heap w1 !! l = Some t -> l ∉ ancestors ->
                      heap w2 !! l = Some t) as Hframe.
  { intros l t Hl Hnot. by eapply createNewTreeForPath_frame. }
  split; [intros l t Hl; rewrite H1; by apply lookup_app_l_Some |].
  split; [by exists evs |]. split; [done |]. split; [done |].
  split; [rewrite Hrec; apply recorded_lookup |].
  split; [rewrite Hrec; apply recorded_holds |].
  split; [| split; [done |]].
  - intros sha held Hheld Hne.
    destruct (Hc _ _ Hheld) as [x Hx].
    assert (held ∉ chain) as Hout.
    { intros Hin. destruct (Hnew _ Hin) as [-> | Hge']; [done |].
      apply lookup_lt_Some in Hx. lia. }
    split; [done |]. split; [by exists x |].
    rewrite Hx. apply Hframe; [| by intros Hin; apply Hout, Hsub].
    rewrite H1. by apply lookup_app_l_Some.
  - intros newRoot ->.
    apply (createNewTreeForPath_rewrites options chain pathParts w1 newRoot
             w2); [| | exact E2].
    + unfold ancestors, without_existing_leaf.
      case_bool_decide; [| done].
      rewrite removelast_firstn_len.
      eapply sublist_NoDup; [exact Hnd | apply sublist_take].
    + intros parent Hin.
      eapply Resolved_allocated; [exact R | by apply Hsub].
Qed.

End Proofs.

(** * The helpers on small inputs *)

Example split_path : split slash "/docs/api/" = [""; "docs"; "api"; ""].
Proof. reflexivity. Qed.

Example split_empty : split slash "" = [""].
Proof. reflexivity. Qed.

Example compact_path : compact (split slash "/docs//api/") = ["docs"; "api"].
Proof. reflexivity. Qed.

Example compact_root : compact (split slash "/") = [].
Proof. reflexivity. Qed.

Example join_lines :
  join "; " ["one"; "two"; "three"] = "one; two; three".
Proof. reflexivity. Qed.

Example regexp_test_inside :
  regexp_test "already exists" "A pull request already exists for x:y." = true.
Proof. reflexivity. Qed.

Example regexp_test_absent :
  regexp_test "already exists" "Validation Failed" = false.
Proof. reflexivity. Qed.

Example default_branch : js_or undefined (str "master") = str "master".
Proof. reflexivity. Qed.

Example empty_branch_is_defaulted : js_or (str "") (str "master") = str "master".
Proof. reflexivity. Qed.

Example lookup_of_assigned_name : has_truthy {["a.txt"]} "a.txt" = true.
Proof. vm_compute. reflexivity. Qed.

Example lookup_of_other_name : has_truthy {["a.txt"]} "b.txt" = false.
Proof. vm_compute. reflexivity. Qed.

Example lookup_of_inherited_name : has_truthy ∅ "constructor" = true.
Proof. vm_compute. reflexivity. Qed.

Example set_child_replaces :
  set_child [Mock.file "README" 301%N; Mock.dir "docs" 201%N] "docs" 7%N
  = [Mock.file "README" 301%N; Mock.dir "docs" 7%N].
Proof. reflexivity. Qed.

Example set_child_turns_file_into_directory :
  set_child [Mock.file "docs" 301%N] "docs" 7%N = [Mock.dir "docs" 7%N].
Proof. reflexivity. Qed.

Example set_child_pushes :
  set_child [Mock.file "README" 301%N] "docs" 7%N
  = [Mock.file "README" 301%N; Mock.dir "docs" 7%N].
Proof. reflexivity. Qed.

Example slice_from_minus2_of_one : slice_from_minus2 [5] = Some 5.
Proof. reflexivity. Qed.

(** * Runs on the example repository *)

Ltac accepted :=
  let H := fresh in
  intros H; vm_compute in H;
  repeat (destruct H as [H | H]; [discriminate H |]);
  destruct H as [H | H]; destruct H as [H1 H2];
  first [discriminate H1 | discriminate H2].

(** The rebuild of [docs/api] over the chain of the root and [docs]: two
    [createTree] requests.  The first carries [a.txt] over from [docs] and
    adds [api]; the second points [docs] at the answer to the first and
    carries [README] and [x] over with their hashes. *)
Lemma createTreeForPath_structural_sharing_witness :
  let run :=
    createTreeForPath Mock.github Example.changed [0; 1; 2] ["docs"; "api"]
      Example.with_leaf in
  exists evs result,
    calls run.2 = (calls Example.with_leaf ++ evs)%list /\
    RebuildLog (heap Example.with_leaf) (str "Asana")
      (str "node-sync-to-github") 1001%N [1; 0] ["api"; "docs"] evs result /\
    requests evs =
      [CreateTree
         [Some (Mock.file "a.txt" 300%N); Some (Mock.dir "api" 1001%N)];
       CreateTree
         [Some (Mock.dir "docs" 1002%N); Some (Mock.file "README" 301%N);
          Some (Mock.dir "x" 202%N)]] /\
    length evs = 2.
Proof.
  intros run.
  destruct (createTreeForPath_structural_sharing Mock.github Example.changed
              [0; 1] 2 ["docs"; "api"] Example.with_leaf
              (mkTree 1001%N
                 [mkEntry "a.txt" "100644" "blob" 1000%N
                    [("url", "https://api.github.com/repos/git/blobs")]]))
    with (r := run.1) (w' := run.2)
    as (evs & result & C & L & F & _ & P).
  - reflexivity.
  - apply NoDup_cons. split; [| apply NoDup_singleton].
    rewrite list_elem_of_singleton. discriminate.
  - intros parent Hin.
    apply elem_of_cons in Hin as [-> | Hin]; [by eexists |].
    apply elem_of_cons in Hin as [-> | Hin]; [by eexists |].
    by apply elem_of_nil in Hin.
  - vm_compute. reflexivity.
  - apply surjective_pairing.
  - exists evs, result. split; [exact C |]. split; [exact L |].
    assert (requests evs =
            [CreateTree
               [Some (Mock.file "a.txt" 300%N); Some (Mock.dir "api" 1001%N)];
             CreateTree
               [Some (Mock.dir "docs" 1002%N); Some (Mock.file "README" 301%N);
                Some (Mock.dir "x" 202%N)]]) as Hrq.
    { rewrite <- (requests_since_app _ _ _ C). vm_compute. reflexivity. }
    split; [exact Hrq |].
    assert (length (requests evs) = 2) as Hn by (by rewrite Hrq).
    unfold requests in Hn. by rewrite length_map in Hn.
Defined.

(** Syncing the unchanged directory: fulfilled, no commit, no update of
    the reference. *)
Lemma noop_sync_makes_no_commit_witness :
  exists w',
    syncToGitHub Mock.github Mock.disk Example.unchanged Example.start
    = (Ok tt, w') /\
    Forall (fun rq => request_name rq <> "createCommit" /\
                      request_name rq <> "updateReference")
      (requests_since Example.start w') /\
    Forall (fun rq => request_name rq <> "createReference")
      (requests_since Example.start w').
Proof.
  edestruct (noop_sync_makes_no_commit Mock.github Mock.disk Example.unchanged
               Example.start "docs")
    as (w' & E & _ & _ & F & G).
  - accepted.
  - reflexivity.
  - vm_compute. reflexivity.
  - vm_compute. reflexivity.
  - vm_compute. reflexivity.
  - vm_compute. reflexivity.
  - exists w'. split; [exact E |]. split; [exact F |].
    eapply G. vm_compute. reflexivity.
Defined.

(** Resolving [x/y/z] in the example repository, where [x] exists and
    [x/y] does not. *)
Lemma existingTreesForPath_is_lenient_witness :
  exists cache' w',
    existingTreesForPath Mock.github Example.changed 0 ["x"; "y"; "z"] None
      Example.with_root
    = (Ok ([0; 1], cache'), w') /\
    length (heap w') = 2.
Proof.
  edestruct (existingTreesForPath_is_lenient Mock.github Example.changed 0
               ["x"; "y"; "z"] None Example.with_root)
    as [_ I].
  - vm_compute. reflexivity.
  - intros sha l H. cbn [default] in H. by rewrite lookup_empty in H.
  - edestruct I as (cache' & w' & E & H & _).
    + reflexivity.
    + vm_compute. reflexivity.
    + vm_compute. discriminate.
    + vm_compute. reflexivity.
    + vm_compute. reflexivity.
    + exists cache', w'. split; [exact E |]. by rewrite H.
Defined.

(** Syncing to [docs/api/v1] when [docs/api] does not exist. *)
Lemma missing_parent_is_rejected_before_upload_witness :
  exists w',
    syncToGitHub Mock.github Mock.disk Example.too_deep Example.start
    = (Throw (Error ("Could not find existing parent dir for repo path: "
                     +:+ "docs/api/v1")), w') /\
    Forall (fun rq => request_name rq <> "createBlob" /\
                      request_name rq <> "createTree")
      (requests_since Example.start w').
Proof.
  edestruct (missing_parent_is_rejected_before_upload Mock.github Mock.disk
               Example.too_deep Example.start "docs/api/v1")
    as (_ & E & F).
  - accepted.
  - reflexivity.
  - vm_compute. reflexivity.
  - vm_compute. reflexivity.
  - vm_compute. reflexivity.
  - vm_compute. reflexivity.
  - vm_compute. lia.
  - eexists. split; [exact E | exact F].
Defined.


(** A resolution with a hit, and the rebuild after it.  The root is at 0
    and the cache holds the tree of [docs], hash 201, at 1.  Resolving
    [docs/api] from the root serves the tree of [docs] from the cache: the
    chain is the root and a copy at 3.  The rebuild for [docs/api] then
    writes to the copy, which gets an entry [api], and to the root, whose
    entry [docs] is redirected; each keeps its hash and the other entries
    with their fields.  The cached tree at 1 is what it was. *)
Lemma rebuild_alters_the_resolved_chain_only_witness :
  let resolved :=
    existingTreesForPath Mock.github Example.changed 0 ["docs"; "api"]
      (Some {[201%N := 1]}) Example.with_leaf in
  let rebuilt :=
    createNewTreeForPath Mock.github Mock.disk Example.changed [0; 3]
      ["docs"; "api"] resolved.2 in
  (exists cache', resolved.1 = Ok ([0; 3], cache')) /\
  NoDup [0; 3] /\
  heap Example.with_leaf !! 1
  = Some (mkTree 201%N [Mock.with_url (Mock.file "a.txt" 300%N)]) /\
  heap rebuilt.2 !! 1 = heap Example.with_leaf !! 1 /\
  (exists c made,
     heap rebuilt.2 !! c = Some made /\
     heap rebuilt.2 !! 3
     = Some (mkTree 201%N
               [Mock.with_url (Mock.file "a.txt" 300%N);
                Mock.dir "api" 1001%N]) /\
     Rewritten [Mock.with_url (Mock.file "a.txt" 300%N)] "api" (t_sha made)
       [Mock.with_url (Mock.file "a.txt" 300%N); Mock.dir "api" 1001%N]) /\
  (exists c made,
     heap rebuilt.2 !! c = Some made /\
     heap rebuilt.2 !! 0
     = Some (mkTree 200%N
               [Mock.with_url (Mock.dir "docs" 1002%N);
                Mock.with_url (Mock.file "README" 301%N);
                Mock.with_url (Mock.dir "x" 202%N)]) /\
     Rewritten
       [Mock.with_url (Mock.dir "docs" 201%N);
        Mock.with_url (Mock.file "README" 301%N);
        Mock.with_url (Mock.dir "x" 202%N)]
       "docs" (t_sha made)
       [Mock.with_url (Mock.dir "docs" 1002%N);
        Mock.with_url (Mock.file "README" 301%N);
        Mock.with_url (Mock.dir "x" 202%N)]).
Proof.
  intros resolved rebuilt.
  set (cache' := match resolved.1 with Ok found => found.2 | Throw _ => ∅ end).
  assert (resolved = (Ok ([0; 3], cache'), resolved.2)) as E1
      by (vm_compute; reflexivity).
  destruct (rebuild_alters_the_resolved_chain_only Mock.github Mock.disk
              Example.changed 0 ["docs"; "api"] (Some {[201%N := 1]})
              Example.with_leaf resolved.2 rebuilt.2 [0; 3] cache' rebuilt.1)
    as (_ & _ & Hnd & _ & _ & _ & Hheld & _ & Hrw).
  - intros sha l Hl.
    change (({[201%N := 1]} : gmap Sha nat) !! sha = Some l) in Hl.
    apply lookup_singleton_Some in Hl as [_ <-].
    eexists. vm_compute. reflexivity.
  - eexists. vm_compute. reflexivity.
  - exact E1.
  - apply surjective_pairing.
  - destruct (Hheld 201%N 1) as (_ & _ & H1);
      [exact (lookup_singleton_eq (M := gmap Sha) 201%N 1) | discriminate |].
    specialize (Hrw (Some 6) ltac:(vm_compute; reflexivity)).
    change (without_existing_leaf [0; 3] ["docs"; "api"]) with [0; 3] in Hrw.
    apply Forall2_cons_1 in Hrw as [P0 Hrw].
    apply Forall2_cons_1 in Hrw as [P3 _].
    destruct P0 as (old0 & c0 & made0 & entries0 & O0 & W0 & R0 & M0 & _).
    destruct P3 as (old3 & c3 & made3 & entries3 & O3 & W3 & R3 & M3 & _).
    assert (heap resolved.2 !! 0
            = Some (mkTree 200%N
                      [Mock.with_url (Mock.dir "docs" 201%N);
                       Mock.with_url (Mock.file "README" 301%N);
                       Mock.with_url (Mock.dir "x" 202%N)])) as V0
        by (vm_compute; reflexivity).
    assert (heap resolved.2 !! 3
            = Some (mkTree 201%N [Mock.with_url (Mock.file "a.txt" 300%N)]))
      as V3 by (vm_compute; reflexivity).
    assert (heap rebuilt.2 !! 0
            = Some (mkTree 200%N
                      [Mock.with_url (Mock.dir "docs" 1002%N);
                       Mock.with_url (Mock.file "README" 301%N);
                       Mock.with_url (Mock.dir "x" 202%N)])) as U0
        by (vm_compute; reflexivity).
    assert (heap rebuilt.2 !! 3
            = Some (mkTree 201%N
                      [Mock.with_url (Mock.file "a.txt" 300%N);
                       Mock.dir "api" 1001%N])) as U3
        by (vm_compute; reflexivity).
    rewrite V0 in O0. injection O0 as <-.
    rewrite V3 in O3. injection O3 as <-.
    rewrite U0 in W0. injection W0 as <-.
    rewrite U3 in W3. injection W3 as <-.
    split; [by exists cache'; rewrite E1 |]. split; [exact Hnd |].
    split; [vm_compute; reflexivity |]. split; [exact H1 |].
    split.
    + exists c3, made3. split; [exact M3 |]. split; [exact U3 | exact R3].
    + exists c0, made0. split; [exact M0 |]. split; [exact U0 | exact R0].
Defined.


(** C7, as stated, fails.  The resolver puts the very records of its chain
    into the cache, and the rebuild writes to them: syncing the changed
    directory to [docs], the root tree cached under hash 200 has its
    [docs] entry redirected to the new leaf. *)
Lemma cached_root_is_mutated_by_rebuild : ~ cached_trees_never_mutated.
Proof.
  intros H.
  pose (resolved :=
          existingTreesForPath Mock.github Example.changed 0 ["docs"] None
            Example.with_root).
  pose (cache := <[201%N := 1]> ({[200%N := 0]} : gmap Sha nat)).
  assert (resolved = (Ok ([0; 1], cache), resolved.2)) as E1
      by (vm_compute; reflexivity).
  assert (cache !! 200%N = Some 0) as E2 by (vm_compute; reflexivity).
  pose proof (H Mock.Store Mock.github Mock.disk Example.changed 0 ["docs"]
                Example.with_root resolved.2 _ [0; 1] cache _ E1
                (surjective_pairing _) 200%N 0 E2) as U.
  vm_compute in U. discriminate U.
Qed.

(** C2 at a failing input.  [docs] holds [a.txt], [constructor] and
    [old.txt]; the local directory holds [a.txt] only; the sync is
    additive.  The tree submitted for [docs] holds [a.txt] and [old.txt]:
    the existing entry [constructor], whose path is not among the created
    entries, is left out. *)
Theorem additive_sync_drops_file_named_constructor :
  let w := Mock.start Example.repository_with_constructor in
  let run := syncToGitHub Mock.github Mock.disk Example.preserve_same w in
  Mock.assoc 201%N (Mock.trees Example.repository_with_constructor)
  = Some [Mock.file "a.txt" 300%N; Mock.file "constructor" 303%N;
          Mock.file "old.txt" 304%N] /\
  fs_readdir Mock.disk "same" = inr ["a.txt"] /\
  run.1 = Ok tt /\
  requests_since w run.2 =
  [ GetReference "heads/master"; GetCommit 100%N; GetTree 200%N;
    GetTree 201%N; CreateBlob "1" "utf-8";
    CreateTree [Some (Mock.file "a.txt" 300%N);
                Some (Mock.file "old.txt" 304%N)];
    CreateTree [Some (Mock.dir "docs" 1000%N)];
    CreateCommit (str "Sync the docs") 1001%N [100%N];
    UpdateReference "heads/master" 1002%N ].
Proof. vm_compute. repeat split. Qed.

(** C10 at a failing input.  [docs] holds [a.txt], [constructor] and
    [old.txt]; the local directory holds one sub-directory, named
    [constructor]; the sync is additive.  The sub-directory stays in the
    submitted entries as [null], and it marks nothing as present; yet the
    existing entry [constructor] is not among the submitted entries. *)
Theorem skipped_directory_named_constructor_loses_remote_entry :
  let w := Mock.start Example.repository_with_constructor in
  let run := syncToGitHub Mock.github Mock.disk Example.preserve_nested w in
  fs_readdir Mock.disk "nested" = inr ["constructor"] /\
  fs_stat Mock.disk "nested/constructor" = inr true /\
  requests_since w run.2 =
  [ GetReference "heads/master"; GetCommit 100%N; GetTree 200%N;
    GetTree 201%N;
    CreateTree [None; Some (Mock.file "a.txt" 300%N);
                Some (Mock.file "old.txt" 304%N)] ].
Proof. vm_compute. repeat split. Qed.

(** * Further properties of the program *)

(** ** Splitting and joining *)

Lemma split_not_nil sep s : split sep s <> [].
Proof.
  destruct s as [| c s]; simpl; [done |].
  destruct (Ascii.eqb c sep); [done |]. by destruct (split sep s).
Qed.

Lemma split_app_sep sep a b :
  split sep (a +:+ String sep b) = (split sep a ++ split sep b)%list.
Proof.
  induction a as [| c a IH]; simpl.
  - by rewrite Ascii.eqb_refl.
  - destruct (Ascii.eqb c sep); [by rewrite IH |].
    rewrite IH. destruct (split sep a) as [| h t] eqn:E; [| done].
    by apply split_not_nil in E.
Qed.

Lemma split_without_sep sep s : occurs sep s = false -> split sep s = [s].
Proof.
  induction s as [| c s IH]; simpl; [done |].
  intros H. apply orb_false_iff in H as [Hc Hs].
  rewrite Hc, (IH Hs). done.
Qed.

Lemma split_parts_without_sep sep s :
  Forall (fun p => occurs sep p = false) (split sep s).
Proof.
  induction s as [| c s IH]; simpl; [by repeat constructor |].
  destruct (Ascii.eqb c sep) eqn:Hc; [by constructor |].
  destruct (split sep s) as [| h t]; [by repeat constructor; simpl; rewrite Hc |].
  apply Forall_cons in IH as [Hh Ht]. constructor; [| done].
  simpl. by rewrite Hc, Hh.
Qed.

Lemma join_split sep s : join (String sep EmptyString) (split sep s) = s.
Proof.
  induction s as [| c s IH]; simpl; [done |].
  destruct (Ascii.eqb c sep) eqn:Hc.
  - apply Ascii.eqb_eq in Hc as ->.
    destruct (split sep s) as [| h t] eqn:E; [by apply split_not_nil in E |].
    simpl. by rewrite <- IH.
  - destruct (split sep s) as [| h t] eqn:E; [by apply split_not_nil in E |].
    destruct t as [| h' t]; simpl in *; by rewrite <- IH.
Qed.

Lemma compact_app l1 l2 : compact (l1 ++ l2) = (compact l1 ++ compact l2)%list.
Proof. apply filter_app. Qed.

Lemma pathParts_app x y :
  compact (split slash (x +:+ "/" +:+ y))
  = (compact (split slash x) ++ compact (split slash y))%list.
Proof.
  change ("/" +:+ y) with (String slash y).
  by rewrite split_app_sep, compact_app.
Qed.

(** X1.  The path segments of a repository path are not empty and hold no
    slash, whatever the path. *)
Theorem pathParts_are_segments (repoPath : string) :
  Forall segment (compact (split slash repoPath)).
Proof.
  unfold compact, segment. apply Forall_forall. intros p Hin.
  apply list_elem_of_filter in Hin as [Hne Hin]. split; [done |].
  pose proof (split_parts_without_sep slash repoPath) as F.
  rewrite Forall_forall in F. by apply F.
Qed.

(** X2.  Slashes only separate: the segments of [a/b] are the segments of
    [a] followed by those of [b], so that a leading, a trailing or a
    doubled slash changes nothing. *)
Theorem pathParts_of_joined_paths (a b : string) :
  compact (split slash (a +:+ "/" +:+ b))
  = (compact (split slash a) ++ compact (split slash b))%list /\
  compact (split slash ("/" +:+ a)) = compact (split slash a) /\
  compact (split slash (a +:+ "/")) = compact (split slash a).
Proof.
  split; [apply pathParts_app |]. split.
  - change ("/" +:+ a) with ("" +:+ "/" +:+ a). by rewrite pathParts_app.
  - change (a +:+ "/") with (a +:+ "/" +:+ ""). rewrite pathParts_app.
    apply app_nil_r.
Qed.

(** X3.  Splitting undoes joining: a list of segments joined with slashes
    is split back into that list. *)
Theorem pathParts_of_join (parts : list string) :
  Forall segment parts ->
  compact (split slash (join "/" parts)) = parts.
Proof.
  induction parts as [| p parts IH]; intros F; [done |].
  apply Forall_cons in F as [[Hne Hfree] F].
  assert (compact (split slash p) = [p]) as Hp.
  { rewrite split_without_sep by done. unfold compact.
    rewrite filter_cons. by destruct (decide (p <> "")). }
  destruct parts as [| q parts]; [exact Hp |].
  change (join "/" (p :: q :: parts))
    with (p +:+ "/" +:+ join "/" (q :: parts)).
  by rewrite pathParts_app, Hp, IH.
Qed.

(** ** The text of errors and messages *)

Lemma prefix_iff a b :
  String.prefix a b = true <-> exists post, b = a +:+ post.
Proof.
  revert b. induction a as [| c a IH]; intros b.
  - split; [intros _; by exists b |]. intros _. by destruct b.
  - destruct b as [| c' b]; simpl.
    + split; [done |]. by intros [post H].
    + destruct (ascii_dec c c') as [-> | Hne].
      * rewrite IH. split; intros [post H]; exists post.
        -- by rewrite H.
        -- by injection H.
      * split; [done |]. intros [post H]. by injection H.
Qed.

Lemma regexp_test_iff needle hay :
  regexp_test needle hay = true <->
  exists pre post, hay = pre +:+ needle +:+ post.
Proof.
  induction hay as [| c hay IH].
  - unfold regexp_test. rewrite orb_false_r, prefix_iff. split.
    + intros [post H]. by exists "", post.
    + intros (pre & post & H). destruct pre; [by exists post | done].
  - change (regexp_test needle (String c hay))
      with (String.prefix needle (String c hay) || regexp_test needle hay).
    rewrite orb_true_iff, prefix_iff, IH. split.
    + intros [[post H] | (pre & post & H)].
      * by exists "", post.
      * exists (String c pre), post. simpl. by rewrite H.
    + intros (pre & post & H). destruct pre as [| c' pre].
      * left. by exists post.
      * right. simpl in H. injection H as -> H. by exists pre, post.
Qed.

Lemma split_single_iff sep s :
  tail (split sep s) = [] <-> occurs sep s = false.
Proof.
  split.
  - intros H. pose proof (join_split sep s) as J.
    pose proof (split_parts_without_sep sep s) as F.
    destruct (split sep s) as [| h t] eqn:E; [by apply split_not_nil in E |].
    simpl in H. subst t.
    simpl in J. subst h. by apply Forall_cons in F as [F _].
  - intros H. by rewrite split_without_sep.
Qed.

Lemma pull_title_and_body message :
  occurs newline (pull_title message) = false /\
  (if occurs newline message
   then message = pull_title message +:+ String newline (pull_body message)
   else pull_title message = message /\ pull_body message = "").
Proof.
  unfold pull_title, pull_body.
  pose proof (join_split newline message) as J.
  pose proof (split_parts_without_sep newline message) as F.
  pose proof (split_single_iff newline message) as S.
  destruct (split newline message) as [| h t] eqn:E;
    [by apply split_not_nil in E |].
  apply Forall_cons in F as [Fh _]. simpl. split; [done |].
  destruct (occurs newline message).
  - destruct t as [| h' t]; [by destruct S as [S _]; discriminate S |].
    by rewrite <- J.
  - destruct S as [_ S]. simpl in S. rewrite (S eq_refl) in *.
    by rewrite <- J.
Qed.

Ltac emits_in :=
  first [ by (apply bool_decide_unpack; vm_compute)
        | by (unfold read_and_upload_names; repeat constructor) ].

Section Further.

Context {Store : Type}.
Variable github : GitHubApi Store.
Variable fs : FileSystem.

(** ** Validation *)

(** X4.  The rejections of a pull request that are taken for success are
    exactly those whose text holds the words "already exists" somewhere:
    the error objects with such a message and the primitives with such a
    string conversion, which reach the handler as the [Error] made of
    them.  An error object without a message is never taken for
    success. *)
Theorem already_exists_iff_message_contains (options : Options)
    (message : string) (w : World Store) (err : JsError) (store' : Store) :
  opt_message options = str message ->
  pullRequests_create github (opt_user options) (opt_repo options)
    (pull_title message) (pull_body message) (opt_baseBranch options)
    (opt_branch options) (store w) = (inl err, store') ->
  (createPullRequest github options w).1 = Ok tt <->
  exists pre post,
    rejection_text err = Some (pre +:+ "already exists" +:+ post).
Proof.
  intros Hm P.
  rewrite (createPullRequest_run github options message w _ _ Hm P).
  rewrite already_exists_promisified.
  destruct (rejection_text err) as [text |] eqn:Ht.
  - destruct (regexp_test "already exists" text) eqn:Hre; cbn [fst].
    + split; [intros _ | done].
      apply regexp_test_iff in Hre as (pre & post & ->). eauto.
    + split; [done |]. intros (pre & post & [= ->]).
      assert (regexp_test "already exists"
                (pre +:+ "already exists" +:+ post) = true) as Hyes
          by (apply regexp_test_iff; eauto).
      by rewrite Hyes in Hre.
  - cbn [fst]. split; [done |]. by intros (? & ? & ?).
Qed.

Lemma js_or_truthy a : truthy (js_or a (str "master")) = true.
Proof. unfold js_or. by destruct (truthy a) eqn:T. Qed.

Lemma js_or_idempotent a b : js_or (js_or a b) b = js_or a b.
Proof.
  unfold js_or. destruct (truthy a) eqn:T; [by rewrite T |].
  by destruct (truthy b).
Qed.

Lemma rejected_defaulted options : rejected (defaulted options) <-> rejected options.
Proof. unfold rejected. simpl. by rewrite !js_or_idempotent. Qed.

(** X5.  Options that have passed validation are stable: validating them
    again accepts them and changes nothing.  Their five required fields
    are strings, their two branches are truthy, and the branches differ
    whenever [createBranch] or [createPullRequest] is set. *)
Theorem validated_options_are_stable (options options' : Options)
    (w w' : World Store) :
  validateOptions options w = (Ok options', w') ->
  validateOptions options' w' = (Ok options', w') /\
  is_string (opt_user options') = true /\
  is_string (opt_repo options') = true /\
  is_string (opt_localPath options') = true /\
  is_string (opt_repoPath options') = true /\
  is_string (opt_message options') = true /\
  truthy (opt_branch options') = true /\
  truthy (opt_baseBranch options') = true /\
  (truthy (opt_createBranch options') = true \/
   truthy (opt_createPullRequest options') = true ->
   opt_baseBranch options' <> opt_branch options').
Proof.
  intros E.
  destruct (rejected_dec options) as [R | N].
  { destruct (validateOptions_rejected options w R) as [e E'].
    rewrite E in E'. done. }
  rewrite (validateOptions_accepted options w N) in E.
  injection E as <- <-.
  assert (~ rejected (defaulted options)) as N'
      by (by rewrite rejected_defaulted).
  split.
  { rewrite (validateOptions_accepted _ w N').
    unfold defaulted. simpl. by rewrite !js_or_idempotent. }
  unfold rejected in N. simpl.
  destruct (is_string (opt_user options)); [| tauto].
  destruct (is_string (opt_repo options)); [| tauto].
  destruct (is_string (opt_localPath options)); [| tauto].
  destruct (is_string (opt_repoPath options)); [| tauto].
  destruct (is_string (opt_message options)); [| tauto].
  rewrite !js_or_truthy. repeat split; try done.
  intros H Heq. tauto.
Qed.

(** ** What a sync leaves behind *)

Section Footprint.

Variable R : list Event -> list ConsoleLine -> Prop.
Context `{!Additive R}.

Lemma Traced_silent {A} (p : M Store A) :
  (forall w r w', p w = (r, w') -> calls w' = calls w /\ console w' = console w) ->
  Traced R p.
Proof.
  intros H w r w' E. destruct (H _ _ _ E) as [C L].
  exists [], []. rewrite !app_nil_r. repeat split; try done.
  apply additive_nil.
Qed.

Lemma Traced_ret {A} (a : A) : Traced (Store := Store) R (ret a).
Proof. apply Traced_silent. intros w r w' E. by inversion E. Qed.

Lemma Traced_throw {A} e : Traced (Store := Store) (A := A) R (throw e).
Proof. apply Traced_silent. intros w r w' E. by inversion E. Qed.

Lemma Traced_lift {A} (x : JsError + A) : Traced (Store := Store) R (lift x).
Proof. destruct x; [apply Traced_throw | apply Traced_ret]. Qed.

Lemma Traced_deref l : Traced (Store := Store) R (deref l).
Proof.
  apply Traced_silent. intros w r w' E. unfold deref in E.
  destruct (heap w !! l); by inversion E.
Qed.

Lemma Traced_assign l t : Traced (Store := Store) R (assign l t).
Proof. apply Traced_silent. intros w r w' E. by inversion E. Qed.

Lemma Traced_new_object t : Traced (Store := Store) R (new_object t).
Proof. apply Traced_silent. intros w r w' E. by inversion E. Qed.

Lemma Traced_bind {A B} (p : M Store A) (k : A -> M Store B) :
  Traced R p -> (forall a, Traced R (k a)) -> Traced R (bind p k).
Proof.
  intros Hp Hk w r w' E.
  apply bind_inv in E as [(a & w1 & E1 & E2) | (e & E1 & ->)].
  - destruct (Hp _ _ _ E1) as (evs1 & lines1 & C1 & L1 & R1).
    destruct (Hk a _ _ _ E2) as (evs2 & lines2 & C2 & L2 & R2).
    exists (evs1 ++ evs2)%list, (lines1 ++ lines2)%list.
    rewrite C2, C1, L2, L1, !app_assoc. repeat split; try done.
    by apply additive_app.
  - exact (Hp _ _ _ E1).
Qed.

Lemma Traced_catch {A} (p : M Store A) (h : JsError -> M Store A) :
  Traced R p -> (forall e, Traced R (h e)) -> Traced R (catch p h).
Proof.
  intros Hp Hh w r w' E. unfold catch in E.
  destruct (p w) as [[a | e] w1] eqn:E1.
  - inversion E; subst. exact (Hp _ _ _ E1).
  - destruct (Hp _ _ _ E1) as (evs1 & lines1 & C1 & L1 & R1).
    destruct (Hh e _ _ _ E) as (evs2 & lines2 & C2 & L2 & R2).
    exists (evs1 ++ evs2)%list, (lines1 ++ lines2)%list.
    rewrite C2, C1, L2, L1, !app_assoc. repeat split; try done.
    by apply additive_app.
Qed.

Lemma Traced_promise_all_map {A S}
    (f : string -> S -> M Store (A * S)) filenames :
  (forall filename s, Traced R (f filename s)) ->
  forall s, Traced R (promise_all_map f filenames s).
Proof.
  intros Hf. induction filenames as [| filename rest IH]; intros s; simpl.
  - apply Traced_ret.
  - intros w r w' E.
    destruct (f filename s w) as [r1 w1] eqn:E1.
    destruct (promise_all_map f rest _ w1) as [rs w2] eqn:E2.
    destruct (Hf _ _ _ _ _ E1) as (evs1 & lines1 & C1 & L1 & R1).
    destruct (IH _ _ _ _ E2) as (evs2 & lines2 & C2 & L2 & R2).
    assert (w' = w2) as -> by (by inversion E).
    exists (evs1 ++ evs2)%list, (lines1 ++ lines2)%list.
    rewrite C2, C1, L2, L1, !app_assoc. repeat split; try done.
    by apply additive_app.
Qed.

Variable options : Options.
Hypothesis leaves : Leaves R options.

Lemma Traced_debug format args :
  Traced (Store := Store) R (debug options format args).
Proof.
  intros w r w' E. rewrite debug_run in E. inversion E; subst.
  exists [], (debug_lines options (Log format args)).
  rewrite app_nil_r. unfold logged, debug_lines.
  split; [by destruct (truthy _) |]. split.
  - destruct (truthy _); simpl; [done | by rewrite app_nil_r].
  - apply (leaf_debug _ _ leaves).
Qed.

Lemma Traced_warn msg :
  Traced (Store := Store) R (console_write (Warn msg)).
Proof.
  intros w r w' E. inversion E; subst. exists [], [Warn msg]. simpl.
  rewrite app_nil_r. repeat split; try done. apply (leaf_warn _ _ leaves).
Qed.

Lemma Traced_gitData {A} rq
    (method : Js -> Js -> Store -> (JsError + A) * Store) shape :
  request_name rq <> "pullRequests.create" ->
  Traced R (gitData options rq method shape).
Proof.
  intros Hrq w r w' E. rewrite gitData_run in E. inversion E; subst.
  eexists [_], (debug_lines options
                  (LogGitdata (request_name rq) (loggedParams rq))).
  rewrite calls_after_call. split; [done |]. split.
  - unfold after_call, logged, debug_lines. simpl.
    destruct (truthy _); simpl; [done | by rewrite app_nil_r].
  - by apply (leaf_gitdata _ _ leaves).
Qed.

Lemma Traced_pullRequestsAsync title body :
  Traced R (pullRequestsAsync github options title body).
Proof.
  intros w r w' E. unfold pullRequestsAsync in E.
  destruct (pullRequests_create _ _ _ _ _ _ _ _) as [answer store'].
  inversion E; subst; clear E. simpl.
  eexists [_], []. rewrite app_nil_r. repeat split; try done.
  apply (leaf_pull _ _ leaves).
Qed.

Ltac traced :=
  repeat first
    [ apply Traced_ret | apply Traced_throw | apply Traced_lift
    | apply Traced_deref | apply Traced_assign | apply Traced_new_object
    | apply Traced_warn | apply Traced_debug
    | apply Traced_pullRequestsAsync
    | apply Traced_gitData; discriminate
    | apply Traced_bind; [| intros ?]
    | apply Traced_catch; [| intros ?]
    | match goal with
      | |- Traced _ (match ?x with _ => _ end) => destruct x
      | |- Traced _ (if ?x then _ else _) => destruct x
      end ].

Lemma Traced_getTree treeCache treeSha :
  Traced R (getTree github options treeCache treeSha).
Proof. unfold getTree, gitData_getTree. traced. Qed.

Lemma Traced_existingTreesForPath pathParts :
  forall rootTree treeCache,
    Traced R (existingTreesForPath github options rootTree pathParts treeCache).
Proof.
  induction pathParts as [| path rest IH]; intros; simpl.
  - traced.
  - apply Traced_bind; [traced |]. intros root.
    destruct (list_find _ _) as [[i nextTreeInfo] |]; [| traced].
    apply Traced_bind; [apply Traced_getTree |]. intros nextTree.
    apply Traced_bind; [apply IH |]. intros sub. traced.
Qed.

Lemma Traced_createTreeForPath treesForPath pathParts :
  Traced R (createTreeForPath github options treesForPath pathParts).
Proof.
  unfold createTreeForPath. generalize (rev pathParts) as revPathParts.
  intros revPathParts. revert treesForPath.
  induction revPathParts as [| lastPath rest IH]; intros; simpl.
  - traced.
  - destruct (slice_from_minus2 _); [| traced].
    destruct (last _); [| traced].
    do 4 (apply Traced_bind; [traced |]; intros ?).
    apply Traced_bind; [unfold gitData_createTree; traced |]. intros newTree.
    apply IH.
Qed.

Lemma Traced_createTreeForSingleDir localPath baseTree :
  Traced R (createTreeForSingleDir github fs options localPath baseTree).
Proof.
  unfold createTreeForSingleDir.
  destruct localPath; try apply Traced_throw.
  apply Traced_bind; [traced |]. intros filenames.
  apply Traced_bind.
  { apply Traced_promise_all_map. intros.
    unfold createEntryFor, gitData_createBlob. traced. }
  intros made. apply Traced_bind; [traced |]. intros children.
  unfold gitData_createTree. traced.
Qed.

Lemma Traced_createNewTreeForPath treesForPath pathParts :
  Traced R (createNewTreeForPath github fs options treesForPath pathParts).
Proof.
  unfold createNewTreeForPath.
  apply Traced_bind; [traced |]. intros _.
  apply Traced_bind.
  { destruct (bool_decide _); [| traced].
    apply Traced_createTreeForSingleDir. }
  intros newTargetTree. apply Traced_createTreeForPath.
Qed.

Lemma Traced_pipeline pathParts :
  Traced R (pipeline github fs options pathParts).
Proof.
  unfold pipeline. apply Traced_bind.
  { unfold resolveBranch, getBranchOrNull, createBranch,
      gitData_getReference, gitData_createReference. traced. }
  intros branch. apply Traced_bind.
  { unfold rebuild, getLatestCommit, gitData_getCommit.
    apply Traced_bind; [traced |]. intros commit.
    apply Traced_bind; [unfold gitData_getTree; traced |]. intros rootTree.
    apply Traced_bind; [apply Traced_existingTreesForPath |]. intros found.
    apply Traced_bind; [apply Traced_createNewTreeForPath |]. intros.
    traced. }
  intros built. apply Traced_bind; [| intros; traced].
  unfold publish. destruct (built.2); [| traced].
  apply Traced_bind; [traced |]. intros root.
  destruct (bool_decide _); [traced |].
  apply Traced_bind.
  { unfold commitChanges, gitData_createCommit, gitData_updateReference.
    traced. }
  intros _. destruct (truthy _); [| traced].
  unfold createPullRequest. traced.
Qed.

End Footprint.

Lemma Traced_syncToGitHub (R : list Event -> list ConsoleLine -> Prop)
    (options : Options) :
  Leaves R (defaulted options) ->
  Traced R (syncToGitHub github fs options).
Proof.
  intros L. pose proof (leaf_additive _ _ L) as Add.
  unfold syncToGitHub. apply Traced_bind; [done | |].
  { change (debug options "Sync github started" [])
      with (debug (Store := Store) (defaulted options) "Sync github started" []).
    by apply Traced_debug. }
  intros _ w r w' E.
  destruct (rejected_dec options) as [Rj | N].
  - destruct (validateOptions_rejected options w Rj) as [e E'].
    erewrite bind_throw in E by exact E'. inversion E; subst.
    exists [], []. rewrite !app_nil_r. repeat split; try done.
    apply additive_nil.
  - erewrite bind_ok in E by (by apply validateOptions_accepted).
    revert E. simpl. destruct (opt_repoPath options) as [| | | | repoPath |];
      try (intros E; inversion E; subst; exists [], [];
           rewrite !app_nil_r; repeat split; try done; apply additive_nil).
    apply (Traced_pipeline R (defaulted options) L).
Qed.

Global Instance made_for_additive options : Additive (made_for options).
Proof.
  split; unfold made_for; [constructor |].
  intros. by apply Forall_app.
Qed.

Lemma made_for_leaves options : Leaves (made_for options) options.
Proof.
  split; [apply _ | | | |]; unfold made_for; intros;
    by repeat constructor.
Qed.

Lemma gitdata_lines_app l1 l2 :
  gitdata_lines (l1 ++ l2) = (gitdata_lines l1 ++ gitdata_lines l2)%list.
Proof. apply omap_app. Qed.

Global Instance console_mirrors_additive options :
  Additive (console_mirrors options).
Proof.
  split; unfold console_mirrors.
  - split; [by destruct (truthy _) | constructor].
  - intros evs1 lines1 evs2 lines2 [G1 W1] [G2 W2]. split.
    + rewrite gitdata_lines_app, G1, G2. unfold through_wrapper.
      destruct (truthy _); [| done]. by rewrite filter_app, map_app.
    + intros T. apply Forall_app. auto.
Qed.

Lemma console_mirrors_leaves options : Leaves (console_mirrors options) options.
Proof.
  split; [apply _ | | | |]; unfold console_mirrors, debug_lines.
  - intros. destruct (truthy _); split; done.
  - intros. split; [by destruct (truthy _) |]. intros _. by repeat constructor.
  - intros rq out Hrq. unfold through_wrapper.
    rewrite filter_cons. simpl.
    destruct (decide (request_name rq <> "pullRequests.create")); [| done].
    destruct (truthy _); split; done.
  - intros. split; [by destruct (truthy _) | by constructor].
Qed.

Lemma syncToGitHub_console_mirrors options w :
  let run := syncToGitHub github fs options w in
  exists evs lines,
    calls run.2 = (calls w ++ evs)%list /\
    console run.2 = (console w ++ lines)%list /\
    console_mirrors options evs lines.
Proof.
  intros run.
  destruct (Traced_syncToGitHub (console_mirrors (defaulted options)) options
              (console_mirrors_leaves _) w run.1 run.2)
    as (evs & lines & C & L & M); [apply surjective_pairing |].
  by exists evs, lines.
Qed.

(** X6.  A sync calls the store for the user and the repository of its
    options only. *)
Theorem sync_calls_its_repository_only (options : Options) (w : World Store) :
  let run := syncToGitHub github fs options w in
  exists evs,
    calls run.2 = (calls w ++ evs)%list /\
    Forall (fun ev => ev_user ev = opt_user options /\
                      ev_repo ev = opt_repo options) evs.
Proof.
  intros run.
  destruct (Traced_syncToGitHub (made_for (defaulted options)) options
              (made_for_leaves _) w run.1 run.2)
    as (evs & lines & C & L & M); [apply surjective_pairing |].
  by exists evs.
Qed.

(** X7.  The console mirrors the calls.  With [debug] set, the [gitdata]
    lines a sync writes are the calls it makes through the wrapper, one
    line per call in the order of the calls, with the name of the operation
    and the logged parameters.  Without [debug], a sync writes nothing but
    the warnings about skipped directories. *)
Theorem sync_console_mirrors_calls (options : Options) (w : World Store) :
  let run := syncToGitHub github fs options w in
  exists evs lines,
    calls run.2 = (calls w ++ evs)%list /\
    console run.2 = (console w ++ lines)%list /\
    gitdata_lines lines
    = (if truthy (opt_debug options)
       then map (fun ev => (request_name (ev_request ev),
                            loggedParams (ev_request ev)))
                (through_wrapper evs)
       else []) /\
    (truthy (opt_debug options) = false -> Forall is_warning lines).
Proof. apply syncToGitHub_console_mirrors. Qed.

(** X8.  The content of a blob is never written to the console: a line
    about [createBlob] carries the length of the content in its place. *)
Theorem blob_content_is_never_logged (options : Options) (w : World Store) :
  let run := syncToGitHub github fs options w in
  exists lines,
    console run.2 = (console w ++ lines)%list /\
    forall name content encoding,
      LogGitdata name (CreateBlob content encoding) ∈ lines ->
      exists n : nat, content = "[" +:+ pretty n +:+ " characters]".
Proof.
  intros run.
  destruct (syncToGitHub_console_mirrors options w)
    as (evs & lines & _ & L & G & _).
  exists lines. split; [exact L |]. intros name content encoding Hin.
  assert ((name, CreateBlob content encoding) ∈ gitdata_lines lines) as Hg.
  { unfold gitdata_lines. apply list_elem_of_omap.
    by exists (LogGitdata name (CreateBlob content encoding)). }
  rewrite G in Hg. destruct (truthy _); [| by apply elem_of_nil in Hg].
  apply list_elem_of_fmap in Hg as (ev & [= _ Hp] & _).
  destruct (ev_request ev); try discriminate Hp.
  injection Hp as -> _. eauto.
Qed.

(** ** The order of the writes *)

Lemma rebuild_reads_commit options pathParts branch w r w' :
  rebuild github fs options pathParts branch w = (r, w') ->
  exists evs,
    calls w' = (calls w ++ evs)%list /\
    Forall (fun ev => request_name (ev_request ev) ∈ read_and_upload_names)
      evs /\
    forall commit newRootTree,
      r = Ok (commit, newRootTree) ->
      mkEvent (opt_user options) (opt_repo options)
        (GetCommit (r_object_sha branch)) (inr (CommitResponse commit)) ∈ evs.
Proof.
  intros E.
  destruct (Emits_rebuild github fs read_and_upload_names options pathParts
              branch ltac:(emits_in) ltac:(emits_in) ltac:(emits_in)
              ltac:(emits_in) _ _ _ E) as (evs & C & F).
  exists evs. split; [done |]. split; [done |].
  intros commit newRootTree ->. unfold rebuild in E.
  apply bind_inv in E as [(commit' & w1 & E1 & E2) | (? & _ & ?)]; [| done].
  unfold getLatestCommit, gitData_getCommit in E1. rewrite gitData_run in E1.
  destruct (gitdata_getCommit github _ _ _ _) as [[e | c] store'];
    [done |]. simpl in E1. inversion E1; subst commit' w1; clear E1.
  assert (Emits read_and_upload_names
            (rootTree <- gitData_getTree github options (c_tree_sha c) ;;
             found <- existingTreesForPath github options rootTree pathParts
                        None ;;
             newRootTree <- createNewTreeForPath github fs options found.1
                              pathParts ;;
             ret (c, newRootTree))) as Hrest.
  { apply Emits_bind; [apply Emits_gitData_getTree; emits_in |]. intros.
    apply Emits_bind; [apply Emits_existingTreesForPath; emits_in |]. intros.
    apply Emits_bind; [apply Emits_createNewTreeForPath; emits_in |]. intros.
    apply Emits_ret. }
  destruct (Hrest _ _ _ E2) as (evs2 & C2 & _).
  rewrite calls_after_call in C2. rewrite C2, <- app_assoc in C.
  apply app_inv_head in C. subst evs.
  assert (commit = c) as ->.
  { apply bind_inv in E2 as [(? & ? & _ & E2) | (? & _ & ?)]; [| done].
    apply bind_inv in E2 as [(? & ? & _ & E2) | (? & _ & ?)]; [| done].
    apply bind_inv in E2 as [(? & ? & _ & E2) | (? & _ & ?)]; [| done].
    by inversion E2. }
  apply list_elem_of_here.
Qed.

Lemma publish_tail options message commit newRootTree w r w' :
  opt_message options = str message ->
  publish github options commit newRootTree w = (r, w') ->
  exists tail,
    calls w' = (calls w ++ tail)%list /\
    WriteTail options commit tail /\
    (r = Ok tt ->
     Forall (fun ev =>
               request_name (ev_request ev) <> "pullRequests.create" ->
               exists response, ev_outcome ev = inr response) tail).
Proof.
  intros Hm E. unfold publish in E.
  destruct newRootTree as [newRootTree |]; last first.
  { inversion E; subst. exists []. rewrite app_nil_r.
    repeat split; [constructor | constructor]. }
  unfold bind at 1, deref at 1 in E.
  destruct (heap w !! newRootTree) as [root |] eqn:Hroot; last first.
  { inversion E; subst. exists []. rewrite app_nil_r.
    repeat split; [constructor | constructor]. }
  case_bool_decide as Hsha.
  { rewrite debug_run in E. inversion E; subst. exists [].
    rewrite calls_logged, app_nil_r. repeat split; constructor. }
  unfold commitChanges in E.
  unfold bind at 1, bind at 1, deref at 1 in E. rewrite Hroot in E.
  unfold bind at 1, gitData_createCommit in E. rewrite gitData_run in E.
  destruct (gitdata_createCommit github _ _ _ _ _ _)
    as [[e | newCommit] store1]; cbn [fst snd settle outcome] in E.
  { inversion E; subst. eexists [_]. rewrite calls_after_call.
    split; [done |]. split; [by apply writes_commit_rejected | done]. }
  unfold gitData_updateReference in E. rewrite gitData_run in E.
  rewrite store_after_call in E.
  destruct (gitdata_updateReference github _ _ _ _ _)
    as [[e | updated] store2]; cbn [fst snd settle outcome] in E.
  { inversion E; subst. eexists [_; _]. rewrite !calls_after_call.
    rewrite <- app_assoc. split; [done |].
    split; [by apply writes_update | done]. }
  destruct (truthy (opt_createPullRequest options)) eqn:T.
  - match type of E with
    | createPullRequest _ _ ?x = _ => set (w2 := x) in *
    end.
    destruct (pullRequests_create github (opt_user options) (opt_repo options)
                (pull_title message) (pull_body message)
                (opt_baseBranch options) (opt_branch options) (store w2))
      as [answer store3] eqn:P.
    rewrite (createPullRequest_run github options message w2 answer store3
               Hm P) in E.
    eexists [_; _; _]. split; [| split].
    + assert (calls w' = calls (after_pull options message answer store3 w2))
        as ->.
      { destruct answer as [err | u]; [| by inversion E].
        destruct (already_exists (promisified err)); inversion E; subst;
          [by rewrite calls_logged | done]. }
      unfold after_pull, w2. cbn [calls]. rewrite !calls_after_call.
      rewrite <- !app_assoc. reflexivity.
    + by apply writes_pull.
    + intros _. repeat constructor; eauto; done.
  - inversion E; subst. eexists [_; _]. rewrite !calls_after_call.
    rewrite <- app_assoc. split; [done |].
    split; [by apply writes_update |]. intros _. repeat constructor; eauto.
Qed.

(** X9.  The writes of a sync come last and in one order.  The calls of a
    sync are reads and uploads (references looked up or created for the
    bootstrap, the commit, trees, blobs) followed by at most three writes:
    [createCommit], then [updateReference], then the creation of the pull
    request.  The commit is created only for a root tree whose hash
    differs from the tree of the commit read for the branch, and has that
    commit as its only parent; the reference is moved only to a commit the
    store has just accepted; the pull request is asked for only once the
    reference has been moved and only if [createPullRequest] is set.  When
    the sync is fulfilled, every write before the pull request was
    accepted. *)
Theorem sync_writes_come_last (options : Options) (w : World Store) :
  let run := syncToGitHub github fs options w in
  exists pre tail,
    calls run.2 = (calls w ++ pre ++ tail)%list /\
    Forall (fun ev => request_name (ev_request ev) ∈ read_and_upload_names)
      pre /\
    (tail = [] \/
     exists sha commit,
       mkEvent (opt_user options) (opt_repo options) (GetCommit sha)
         (inr (CommitResponse commit)) ∈ pre /\
       WriteTail (defaulted options) commit tail) /\
    (run.1 = Ok tt ->
     Forall (fun ev =>
               request_name (ev_request ev) <> "pullRequests.create" ->
               exists response, ev_outcome ev = inr response) tail).
Proof.
  intros run.
  assert (syncToGitHub github fs options w = (run.1, run.2)) as E
      by apply surjective_pairing.
  destruct run as [r w']. cbn [fst snd] in *.
  destruct (rejected_dec options) as [Rj | N].
  { exists [], []. rewrite !app_nil_r.
    unfold syncToGitHub in E. erewrite bind_ok in E by apply debug_run.
    destruct (validateOptions_rejected options
                (logged options (Log "Sync github started" []) w) Rj)
      as [e E'].
    erewrite bind_throw in E by exact E'. inversion E; subst r w'.
    rewrite calls_logged. repeat split; try constructor; try done. }
  destruct (syncToGitHub_accepted github fs options w N)
    as (repoPath & Hrp & Esync).
  assert (exists message, opt_message (defaulted options) = str message)
    as [message Hm].
  { assert (is_string (opt_message options) = true) as S.
    { destruct (is_string (opt_message options)) eqn:S; [done |].
      exfalso. apply N. unfold rejected. tauto. }
    simpl. destruct (opt_message options); try done. eauto. }
  rewrite Esync in E. unfold pipeline in E.
  set (o := defaulted options) in *.
  set (w0 := logged options (Log "Sync github started" []) w) in *.
  assert (calls w0 = calls w) as C0 by apply calls_logged.
  assert (opt_user o = opt_user options /\ opt_repo o = opt_repo options)
    as [Hu Hr] by done.
  clearbody o w0.
  apply bind_inv in E as [(branch & w1 & E1 & E2) | (e & E1 & ->)].
  2:{ destruct (Emits_resolveBranch github read_and_upload_names o
                  ltac:(emits_in) ltac:(emits_in) _ _ _ E1) as (evs1 & C1 & F1).
      exists evs1, []. rewrite app_nil_r, C1, C0.
      repeat split; try done. by left. }
  destruct (Emits_resolveBranch github read_and_upload_names o
              ltac:(emits_in) ltac:(emits_in) _ _ _ E1) as (evs1 & C1 & F1).
  apply bind_inv in E2 as [(built & w2 & E2 & E3) | (e & E2 & ->)].
  2:{ destruct (rebuild_reads_commit _ _ _ _ _ _ E2) as (evs2 & C2 & F2 & _).
      exists (evs1 ++ evs2)%list, []. rewrite app_nil_r, C2, C1, C0, app_assoc.
      repeat split; try done; [by apply Forall_app | by left]. }
  destruct (rebuild_reads_commit _ _ _ _ _ _ E2) as (evs2 & C2 & F2 & G2).
  destruct built as [commit newRootTree]. cbn [fst snd] in E3.
  specialize (G2 commit newRootTree eq_refl).
  apply bind_inv in E3 as [([] & w3 & E3 & E4) | (e & E3 & ->)].
  - destruct (publish_tail _ _ _ _ _ _ _ Hm E3) as (tail & C3 & T3 & A3).
    rewrite debug_run in E4. inversion E4; subst r w'.
    exists (evs1 ++ evs2)%list, tail.
    rewrite calls_logged, C3, C2, C1, C0, <- !app_assoc.
    split; [done |]. split; [by apply Forall_app |]. split.
    + right. exists (r_object_sha branch), commit. split; [| done].
      rewrite <- Hu, <- Hr. apply elem_of_app. by right.
    + intros _. by apply A3.
  - destruct (publish_tail _ _ _ _ _ _ _ Hm E3) as (tail & C3 & T3 & A3).
    exists (evs1 ++ evs2)%list, tail.
    rewrite C3, C2, C1, C0, <- !app_assoc.
    split; [done |]. split; [by apply Forall_app |]. split.
    + right. exists (r_object_sha branch), commit. split; [| done].
      rewrite <- Hu, <- Hr. apply elem_of_app. by right.
    + done.
Qed.

(** X10.  The pull request is cut from the commit message.
    [createPullRequest] makes exactly one call, the creation of a pull
    request from [options.branch] into [options.baseBranch].  Its title is
    the first line of the commit message and never holds a line break; a
    message of one line is the title, with an empty body; otherwise the
    message is the title, a line break and the body, so the body keeps the
    later line breaks.  The promise is fulfilled when the store accepts
    the request or refuses it with an error whose text holds
    "already exists"; otherwise it is rejected, with the store's error if
    that is an object and with the [Error] made of it if it is a
    primitive. *)
Theorem pull_request_is_cut_from_message (options : Options)
    (message : string) (w : World Store) :
  opt_message options = str message ->
  let run := createPullRequest github options w in
  exists title body out,
    calls run.2 =
      (calls w ++
       [mkEvent (opt_user options) (opt_repo options)
          (PullRequestsCreate title body (opt_baseBranch options)
             (opt_branch options)) out])%list /\
    occurs newline title = false /\
    (if occurs newline message
     then message = title +:+ String newline body
     else title = message /\ body = "") /\
    match out with
    | inr _ => run.1 = Ok tt
    | inl err =>
        ((exists pre post,
            rejection_text err = Some (pre +:+ "already exists" +:+ post)) /\
         run.1 = Ok tt) \/
        (~ (exists pre post,
              rejection_text err = Some (pre +:+ "already exists" +:+ post))
         /\
         run.1 = Throw match err with
                       | ErrorObject _ _ => err
                       | ErrorPrimitive c s => Error (String c s)
                       end)
    end.
Proof.
  intros Hm run. subst run.
  destruct (pullRequests_create github (opt_user options) (opt_repo options)
              (pull_title message) (pull_body message)
              (opt_baseBranch options) (opt_branch options) (store w))
    as [answer store'] eqn:P.
  rewrite (createPullRequest_run github options message w answer store' Hm P).
  destruct (pull_title_and_body message) as [Ht Hb].
  exists (pull_title message), (pull_body message),
    (outcome (fun _ => PullRequestResponse) answer).
  split; [| split; [done | split; [done |]]].
  - destruct answer as [err | u]; [| done].
    destruct (already_exists (promisified err)); [| done].
    cbn [snd]. by rewrite calls_logged.
  - destruct answer as [err | u]; [| done]. cbn [outcome].
    rewrite already_exists_promisified.
    destruct (rejection_text err) as [text |] eqn:Hx.
    + destruct (regexp_test "already exists" text) eqn:Hre; cbn [fst].
      * left. split; [| done].
        apply regexp_test_iff in Hre as (pre & post & ->). eauto.
      * right. split; [| by destruct err].
        intros (pre & post & [= ->]).
        assert (regexp_test "already exists"
                  (pre +:+ "already exists" +:+ post) = true) as Hyes
            by (apply regexp_test_iff; eauto).
        by rewrite Hyes in Hre.
    + right. cbn [fst]. split; [by intros (? & ? & ?) | by destruct err].
Qed.

(** ** What the resolver leaves in the cache *)

(** X11.  What the resolver leaves in the cache.  When
    [existingTreesForPath] is fulfilled, the cache it filled is the cache
    it was given with every tree of the chain recorded under the tree's own
    hash, from the root down.  The cache holds the trees of the chain
    themselves, not copies; every tree of the chain can be found again
    under its hash; every other entry is one the cache already had; the
    trees of the chain are pairwise distinct records, all but the root
    created by the resolution. *)
Theorem resolver_records_its_chain (options : Options) (rootTree : nat)
    (pathParts : list string) (treeCache : option (gmap Sha nat))
    (w : World Store) (chain : list nat) (cache' : gmap Sha nat)
    (w' : World Store) :
  cache_ok (heap w) (default ∅ treeCache) ->
  is_Some (heap w !! rootTree) ->
  existingTreesForPath github options rootTree pathParts treeCache w
  = (Ok (chain, cache'), w') ->
  cache' = recorded (heap w') (default ∅ treeCache) chain /\
  (forall sha l,
     cache' !! sha = Some l ->
     default ∅ treeCache !! sha = Some l \/
     (l ∈ chain /\ exists t, heap w' !! l = Some t /\ t_sha t = sha)) /\
  (forall l t,
     l ∈ chain -> heap w' !! l = Some t ->
     exists l', cache' !! t_sha t = Some l' /\ l' ∈ chain) /\
  NoDup chain /\
  (forall l, l ∈ chain -> l = rootTree \/ length (heap w) <= l).
Proof.
  intros Hc Hroot E.
  pose proof (existingTreesForPath_recorded github _ _ _ _ _ _ _ _ Hc Hroot E) as ->.
  destruct (existingTreesForPath_distinct github options pathParts _ _ _ _ _ _
              Hc Hroot E) as (Hnd & rest & -> & Hge).
  split; [done |]. split; [apply recorded_lookup |].
  split; [apply recorded_holds |]. split; [done |].
  intros l Hin. apply elem_of_cons in Hin as [-> | Hin]; [by left |].
  right. rewrite Forall_forall in Hge. by apply Hge.
Qed.

(** ** The tree made of a local directory *)

Lemma createTreeForSingleDir_cases options localPath baseTree base w r w' :
  (forall b, baseTree = Some b -> heap w !! b = Some base) ->
  createTreeForSingleDir github fs options (str localPath) baseTree w
  = (r, w') ->
  exists blobs,
    Forall (fun ev => request_name (ev_request ev) = "createBlob") blobs /\
    ((exists e,
        r = Throw e /\ calls w' = (calls w ++ blobs)%list /\
        heap w' = heap w) \/
     (exists filenames children out,
        fs_readdir fs localPath = inr filenames /\
        Forall2 (LocalChild fs localPath blobs) filenames children /\
        calls w' =
          (calls w ++ blobs ++
           [mkEvent (opt_user options) (opt_repo options)
              (CreateTree
                 (children ++
                  match baseTree with
                  | Some _ =>
                      map Some
                        (kept_from_base (created_paths children ∪ ∅) base)
                  | None => []
                  end)) out])%list /\
        match out with
        | inl e => r = Throw (promisified e) /\ heap w' = heap w
        | inr response =>
            exists t,
              response = TreeResponse t /\ r = Ok (length (heap w)) /\
              heap w' = (heap w ++ [t])%list
        end)).
Proof.
  intros Hb E.
  destruct (fs_readdir fs localPath) as [e | filenames] eqn:Hd.
  { unfold createTreeForSingleDir in E. rewrite Hd in E.
    inversion E; subst. exists []. split; [constructor |]. left.
    exists (promisified e). by rewrite app_nil_r. }
  destruct (promise_all_map (createEntryFor github fs options localPath)
              filenames ∅ w) as [made w1] eqn:Em.
  pose proof (promise_all_map_createEntryFor_heap github fs _ _ _ _ _ _ _ Em) as Hh.
  destruct (Emits_promise_all_map ["createBlob"]
              (createEntryFor github fs options localPath) filenames
              ltac:(intros; apply Emits_createEntryFor; apply list_elem_of_here)
              ∅ _ _ _ Em) as (blobs & C & F).
  exists blobs. split.
  { eapply Forall_impl; [exact F |]. intros ev Hin.
    by apply list_elem_of_singleton in Hin. }
  destruct made as [[children pathExists] | e].
  - right.
    rewrite (createTreeForSingleDir_submits github fs options localPath
               baseTree filenames children pathExists w w1 base Hd Em Hb) in E.
    destruct (promise_all_map_createEntryFor github fs _ _ _ _ _ _ _ _ Em)
      as (_ & evs & C' & L & ->).
    rewrite C in C'. apply app_inv_head in C'. subst evs.
    match type of E with
    | gitData_createTree _ _ ?request _ = _ => set (tree := request) in *
    end.
    destruct (gitdata_createTree github (opt_user options) (opt_repo options)
                tree (store w1)) as [[e | t] store'] eqn:A;
      rewrite (gitData_createTree_run github options tree w1 _ _ A) in E;
      inversion E; subst r w'; clear E.
    + exists filenames, children, (inl e). split; [done |]. split; [done |].
      rewrite calls_after_call, heap_after_call, C, <- app_assoc.
      by repeat split.
    + exists filenames, children, (inr (TreeResponse t)).
      split; [done |]. split; [done |]. cbn [calls heap].
      rewrite C, <- app_assoc, Hh. split; [done |]. by exists t.
  - left. exists e. unfold createTreeForSingleDir in E. rewrite Hd in E.
    unfold bind at 1, lift, ret in E.
    erewrite bind_throw in E by exact Em. inversion E; subst. eauto.
Qed.

(** X12.  A local directory becomes one tree, after its files.
    [createTreeForSingleDir] without a base tree first uploads the files
    and then asks for one tree; the [createTree] request is its last call
    and the only one that is not a [createBlob].  The request is made only
    if the directory could be listed and every name in it could be
    handled; it then holds one child per name of the listing, in the order
    of the listing: [null] for a sub-directory, and for a file a blob entry
    under the file's name, with mode 100644 and the hash the store answered
    for the file's content.  The promise is fulfilled with the tree the
    store answered, as a new record, and rejected with the store's error,
    as the promisified method passes it on, if the request was refused; if
    no request was made it is rejected and no tree has been created. *)
Theorem local_directory_becomes_one_tree (options : Options)
    (localPath : string) (w : World Store) :
  let run :=
    createTreeForSingleDir github fs options (str localPath) None w in
  exists blobs,
    Forall (fun ev => request_name (ev_request ev) = "createBlob") blobs /\
    ((exists e,
        run.1 = Throw e /\ calls run.2 = (calls w ++ blobs)%list /\
        heap run.2 = heap w) \/
     (exists filenames children out,
        fs_readdir fs localPath = inr filenames /\
        Forall2 (LocalChild fs localPath blobs) filenames children /\
        calls run.2 =
          (calls w ++ blobs ++
           [mkEvent (opt_user options) (opt_repo options)
              (CreateTree children) out])%list /\
        match out with
        | inl e => run.1 = Throw (promisified e) /\ heap run.2 = heap w
        | inr response =>
            exists t,
              response = TreeResponse t /\ run.1 = Ok (length (heap w)) /\
              heap run.2 = (heap w ++ [t])%list
        end)).
Proof.
  intros run.
  assert (createTreeForSingleDir github fs options (str localPath) None w
          = (run.1, run.2)) as E by apply surjective_pairing.
  destruct (createTreeForSingleDir_cases options localPath None
              (mkTree 0%N []) w _ _ ltac:(done) E)
    as (blobs & F & [H | (filenames & children & out & H)]);
    exists blobs; (split; [done |]); [by left | right].
  exists filenames, children, out. by rewrite app_nil_r in H.
Qed.

(** X13.  The additive merge, away from the inherited names.  Given a base
    tree none of whose entries is named like a property of
    [Object.prototype], a fulfilled [createTreeForSingleDir] has asked for
    one tree, after the uploads: the children made of the local names, in
    the order of the listing, followed by the entries of the base tree
    whose path is not the path of a created entry, in their order, each
    with its path, its mode, its type and its hash and nothing else.  An
    entry of the base tree is kept even when a local sub-directory of the
    same name was skipped.  The base tree itself is left as it was. *)
Theorem additive_merge_keeps_the_other_entries (options : Options)
    (localPath : string) (baseTree : nat) (base : Tree) (w : World Store)
    (newTree : nat) (w' : World Store) :
  heap w !! baseTree = Some base ->
  Forall (fun e => e_path e ∉ Object_prototype_names) (t_tree base) ->
  createTreeForSingleDir github fs options (str localPath) (Some baseTree) w
  = (Ok newTree, w') ->
  exists filenames children kept blobs t,
    fs_readdir fs localPath = inr filenames /\
    Forall (fun ev => request_name (ev_request ev) = "createBlob") blobs /\
    Forall2 (LocalChild fs localPath blobs) filenames children /\
    Forall2 carried_over
      (filter (fun e => e_path e ∉ created_paths children) (t_tree base))
      kept /\
    calls w' =
      (calls w ++ blobs ++
       [mkEvent (opt_user options) (opt_repo options)
          (CreateTree (children ++ map Some kept))
          (inr (TreeResponse t))])%list /\
    heap w' = (heap w ++ [t])%list /\
    newTree = length (heap w) /\
    heap w' !! baseTree = Some base.
Proof.
  intros Hb Hn E.
  destruct (createTreeForSingleDir_cases options localPath (Some baseTree)
              base w _ _ ltac:(by intros ? [= <-]) E)
    as (blobs & F & [(e & ? & _) | (filenames & children & out & Hd & L & C
                                    & O)]); [done |].
  destruct out as [e | response]; [by destruct O |].
  destruct O as (t & -> & [= ->] & Hh).
  rewrite (kept_from_base_without_inherited_names children base Hn) in C.
  exists filenames, children,
    (map pick
       (filter (fun e => e_path e ∉ created_paths children) (t_tree base))),
    blobs, t.
  split; [done |]. split; [done |]. split; [done |].
  split; [apply Forall2_carried_over_pick |].
  split; [done |]. split; [done |]. split; [done |].
  rewrite Hh. by apply lookup_app_l_Some.
Qed.

(** ** From the local directory to the new root *)

(** X14.  From the local directory to the new root.  In a sync that does
    not preserve the files of the repository, or whose target does not
    exist yet, a fulfilled
    [createNewTreeForPath] has uploaded the files, asked for the tree of
    the local directory alone (nothing of the tree that was at the target
    enters the request), and then climbed from the parent of the target to
    the root with one [createTree] request per segment, each on the
    rebuilt entries of that ancestor.  There are as many ancestors as
    segments, the calls come in this order and there is no other call; the
    tree it is fulfilled with is the store's answer to the last request. *)
Theorem new_root_is_snapshot_then_climb (options : Options)
    (localPath : string) (treesForPath : list nat) (pathParts : list string)
    (w : World Store) (newRoot : option nat) (w' : World Store) :
  opt_localPath options = str localPath ->
  truthy (opt_preserveRepoFiles options) = false \/
  length treesForPath <> length pathParts + 1 ->
  let ancestors := without_existing_leaf treesForPath pathParts in
  NoDup ancestors ->
  (forall parent, parent ∈ ancestors -> is_Some (heap w !! parent)) ->
  createNewTreeForPath github fs options treesForPath pathParts w
  = (Ok newRoot, w') ->
  exists filenames children blobs leaf climb l t,
    length ancestors = length pathParts /\
    fs_readdir fs localPath = inr filenames /\
    Forall2 (LocalChild fs localPath blobs) filenames children /\
    Forall (fun ev => request_name (ev_request ev) = "createBlob") blobs /\
    calls w' =
      (calls w ++ blobs ++
       [mkEvent (opt_user options) (opt_repo options) (CreateTree children)
          (inr (TreeResponse leaf))] ++ climb)%list /\
    RebuildLog (heap w) (opt_user options) (opt_repo options) (t_sha leaf)
      (rev ancestors) (rev pathParts) climb (Some (t_sha t)) /\
    length climb = length pathParts /\
    newRoot = Some l /\ heap w' !! l = Some t.
Proof.
  intros Hl Hp ancestors Hnd Halloc E.
  unfold createNewTreeForPath in E. cbv zeta in E.
  change (if bool_decide (length treesForPath = length pathParts + 1)
          then removelast treesForPath else treesForPath)
    with ancestors in E.
  match type of E with
  | context [createTreeForSingleDir _ _ _ _ ?b] =>
      assert (b = None) as Hbase;
      [destruct Hp as [Hp | Hp];
       [by destruct (bool_decide _), (last treesForPath); rewrite ?Hp
       | by rewrite bool_decide_eq_false_2 by done] |]
  end.
  rewrite Hbase, Hl in E. clear Hbase.
  apply bind_inv in E as [([] & w0 & E0 & E) | (? & _ & ?)]; [| done].
  assert (calls w0 = calls w /\ heap w0 = heap w) as [C0 H0].
  { destruct (bool_decide (length treesForPath = length pathParts + 1));
      [rewrite debug_run in E0 |]; inversion E0; subst;
      by rewrite ?calls_logged, ?heap_logged. }
  apply bind_inv in E as [(leaf & w1 & Es & E) | (? & _ & ?)]; [| done].
  case_bool_decide as Hlen; [| done].
  destruct (createTreeForSingleDir_cases options localPath None
              (mkTree 0%N []) w0 _ _ ltac:(done) Es)
    as (blobs & F & [(? & ? & _) | (filenames & children & out & Hd & L & C1
                                    & O)]); [done |].
  destruct out as [e | response]; [by destruct O |].
  destruct O as (t1 & -> & [= ->] & H1). rewrite app_nil_r in C1.
  unfold createTreeForPath in E.
  rewrite <- (rev_involutive ancestors) in E.
  destruct (createTreeForPath_rev_log github options (heap w) (rev pathParts)
              (rev ancestors) (length (heap w0)) t1 w1 (Ok newRoot) w')
    as (climb & result & C2 & R & l & t & -> & Ht & -> & Hn).
  - by rewrite !length_rev.
  - rewrite rev_is_reverse. by rewrite reverse_Permutation.
  - intros parent Hin. rewrite rev_is_reverse, elem_of_reverse in Hin.
    destruct (Halloc parent Hin) as [old Hold]. exists old.
    split; [done |]. rewrite H1, H0. by apply lookup_app_l_Some.
  - rewrite H1. by apply list_lookup_middle.
  - done.
  - rewrite length_rev in Hn.
    exists filenames, children, blobs, t1, climb, l, t.
    repeat split; try done.
    by rewrite C2, C1, C0, <- !app_assoc.
Qed.

(** ** The branch *)

Lemma resolveBranch_trace options w r w' :
  resolveBranch github options w = (r, w') ->
  exists evs, calls w' = (calls w ++ evs)%list /\ BranchTrace options evs r.
Proof.
  intros E. unfold resolveBranch in E.
  destruct (gitdata_getReference github (opt_user options) (opt_repo options)
              ("heads/" +:+ to_string (opt_branch options)) (store w))
    as [answer store1] eqn:A.
  pose proof (getBranchOrNull_run github options (opt_branch options) w answer
                store1 A) as G.
  destruct answer as [error | branch].
  2:{ erewrite bind_ok in E by exact G. inversion E; subst r w'.
      eexists [_]. rewrite calls_after_call. split; [done |].
      apply branch_found. }
  case_bool_decide as H404; last first.
  { erewrite bind_throw in E by exact G. inversion E; subst r w'.
    eexists [_]. rewrite calls_after_call. split; [done |].
    by apply branch_lookup_failed. }
  erewrite bind_ok in E by exact G.
  destruct (truthy (opt_createBranch options)) eqn:T; last first.
  { inversion E; subst r w'. eexists [_]. rewrite calls_after_call.
    split; [done |]. by apply branch_missing. }
  unfold createBranch, gitData_getReference, gitData_createReference in E.
  unfold bind at 1 in E. rewrite gitData_run, store_after_call in E.
  cbv beta in E.
  destruct (gitdata_getReference github (opt_user options) (opt_repo options)
              ("heads/" +:+ to_string (opt_baseBranch options)) store1)
    as [[baseError | baseBranch] store2] eqn:B; cbn [fst snd settle] in E.
  { inversion E; subst r w'. eexists [_; _].
    rewrite !calls_after_call, <- app_assoc.
    split; [done |]. by apply branch_base_failed. }
  rewrite gitData_run, store_after_call in E. cbv beta in E.
  destruct (gitdata_createReference github (opt_user options)
              (opt_repo options)
              ("refs/heads/" +:+ to_string (opt_branch options))
              (r_object_sha baseBranch) store2) as [answer store3] eqn:Cr.
  cbn [fst snd] in E. inversion E; subst r w'. eexists [_; _; _].
  rewrite !calls_after_call, <- !app_assoc.
  split; [done |]. by apply branch_created.
Qed.

(** X15.  The branch is created only when it is missing.  Whatever the
    store answers, the sync settles on its branch in one of five ways: the
    branch is found by one lookup; the lookup fails with a code other than
    404 and its error is the result, whatever [createBranch] says; the
    lookup fails with 404 and [createBranch] is not set, and the result is
    the error "Branch ... does not exist"; the base branch cannot be
    looked up, its error (a 404 included) is the result and nothing is
    created; or the reference is created at the commit of the base branch
    and the store's answer to that request is the result.  So there are
    at most three calls, and [createReference] is asked only after a 404
    for the branch and an answer for the base branch. *)
Theorem branch_is_created_only_when_missing (options : Options)
    (w : World Store) :
  let run := resolveBranch github options w in
  exists evs,
    calls run.2 = (calls w ++ evs)%list /\ BranchTrace options evs run.1.
Proof. intros run. apply resolveBranch_trace, surjective_pairing. Qed.

(** ** What does not depend on [debug] *)

Lemma same_state_refl (w : World Store) : same_state w w.
Proof. by repeat split. Qed.

Lemma Agree_ret {A} (a : A) : Agree (Store := Store) (ret a) (ret a).
Proof. by intros w1 w2 H. Qed.

Lemma Agree_throw {A} e : Agree (Store := Store) (A := A) (throw e) (throw e).
Proof. by intros w1 w2 H. Qed.

Lemma Agree_lift {A} (x : JsError + A) :
  Agree (Store := Store) (lift x) (lift x).
Proof. destruct x; [apply Agree_throw | apply Agree_ret]. Qed.

Lemma Agree_deref l : Agree (Store := Store) (deref l) (deref l).
Proof.
  intros w1 w2 (S & H & C). unfold deref. rewrite H.
  by destruct (heap w2 !! l).
Qed.

Lemma Agree_assign l t : Agree (Store := Store) (assign l t) (assign l t).
Proof.
  intros w1 w2 (S & H & C). unfold assign, same_state. simpl.
  by rewrite S, H, C.
Qed.

Lemma Agree_new_object t :
  Agree (Store := Store) (new_object t) (new_object t).
Proof.
  intros w1 w2 (S & H & C). unfold new_object, same_state. simpl.
  by rewrite S, H, C.
Qed.

Lemma Agree_console_write line line' :
  Agree (Store := Store) (console_write line) (console_write line').
Proof. by intros w1 w2 (S & H & C). Qed.

Lemma Agree_debug o1 o2 format args format' args' :
  Agree (Store := Store) (debug o1 format args) (debug o2 format' args').
Proof.
  intros w1 w2 (S & H & C). unfold debug.
  by destruct (truthy (opt_debug o1)), (truthy (opt_debug o2)).
Qed.

Lemma Agree_bind {A B} (p q : M Store A) (k k' : A -> M Store B) :
  Agree p q -> (forall a, Agree (k a) (k' a)) -> Agree (bind p k) (bind q k').
Proof.
  intros Hp Hk w1 w2 H. unfold bind.
  destruct (Hp w1 w2 H) as [Hr Hs].
  destruct (p w1) as [[a | e] w1'], (q w2) as [[a' | e'] w2'];
    simpl in Hr, Hs; inversion Hr; subst; [by apply Hk | done].
Qed.

Lemma Agree_catch {A} (p q : M Store A) (h h' : JsError -> M Store A) :
  Agree p q -> (forall e, Agree (h e) (h' e)) -> Agree (catch p h) (catch q h').
Proof.
  intros Hp Hh w1 w2 H. unfold catch.
  destruct (Hp w1 w2 H) as [Hr Hs].
  destruct (p w1) as [[a | e] w1'], (q w2) as [[a' | e'] w2'];
    simpl in Hr, Hs; inversion Hr; subst; [done | by apply Hh].
Qed.

Lemma Agree_promise_all_map {A S}
    (f g : string -> S -> M Store (A * S)) filenames :
  (forall filename s, Agree (f filename s) (g filename s)) ->
  forall s, Agree (promise_all_map f filenames s)
              (promise_all_map g filenames s).
Proof.
  intros Hf. induction filenames as [| filename rest IH]; intros s; simpl.
  - apply Agree_ret.
  - intros w1 w2 H.
    destruct (Hf filename s w1 w2 H) as [Hr Hs].
    destruct (f filename s w1) as [r1 w1'], (g filename s w2) as [r2 w2'].
    simpl in Hr, Hs. subst r2.
    match goal with
    | |- context [promise_all_map f rest ?s1 w1'] =>
        destruct (IH s1 w1' w2' Hs) as [Hr' Hs'];
        destruct (promise_all_map f rest s1 w1') as [rs1 w1''],
                 (promise_all_map g rest s1 w2') as [rs2 w2'']
    end.
    simpl in Hr', Hs'. by subst rs2.
Qed.

Lemma Agree_gitData {A} o1 o2 rq
    (method : Js -> Js -> Store -> (JsError + A) * Store) shape :
  opt_user o1 = opt_user o2 -> opt_repo o1 = opt_repo o2 ->
  Agree (gitData o1 rq method shape) (gitData o2 rq method shape).
Proof.
  intros Hu Hr w1 w2 (S & H & C). rewrite !gitData_run. cbn [fst snd].
  unfold same_state.
  rewrite !store_after_call, !heap_after_call, !calls_after_call.
  by rewrite Hu, Hr, S, H, C.
Qed.

Lemma Agree_pullRequestsAsync d options title body :
  Agree (pullRequestsAsync github (with_debug d options) title body)
    (pullRequestsAsync github options title body).
Proof.
  intros w1 w2 (S & H & C). unfold pullRequestsAsync.
  cbn [with_debug opt_user opt_repo opt_baseBranch opt_branch]. rewrite S.
  destruct (pullRequests_create _ _ _ _ _ _ _ _) as [answer store'].
  unfold same_state. simpl. by rewrite H, C.
Qed.

Ltac agree :=
  repeat first
    [ apply Agree_ret | apply Agree_throw | apply Agree_lift
    | apply Agree_deref | apply Agree_assign | apply Agree_new_object
    | apply Agree_console_write | apply Agree_debug
    | apply Agree_pullRequestsAsync
    | apply Agree_gitData; reflexivity
    | apply Agree_bind; [| intros ?]
    | apply Agree_catch; [| intros ?]
    | match goal with
      | |- Agree (match ?x with _ => _ end) _ => destruct x
      | |- Agree (if ?x then _ else _) _ => destruct x
      end ].

Ltac fields :=
  cbn [with_debug opt_user opt_repo opt_localPath opt_repoPath opt_message
       opt_preserveRepoFiles opt_branch opt_baseBranch opt_createBranch
       opt_createPullRequest].

Lemma Agree_getTree d options treeCache treeSha :
  Agree (getTree github (with_debug d options) treeCache treeSha)
    (getTree github options treeCache treeSha).
Proof. unfold getTree, gitData_getTree. agree. Qed.

Lemma Agree_existingTreesForPath d options pathParts :
  forall rootTree treeCache,
    Agree
      (existingTreesForPath github (with_debug d options) rootTree pathParts
         treeCache)
      (existingTreesForPath github options rootTree pathParts treeCache).
Proof.
  induction pathParts as [| path rest IH]; intros; simpl.
  - agree.
  - apply Agree_bind; [agree |]. intros root.
    destruct (list_find _ _) as [[i nextTreeInfo] |]; [| agree].
    apply Agree_bind; [apply Agree_getTree |]. intros nextTree.
    apply Agree_bind; [apply IH |]. intros sub. agree.
Qed.

Lemma Agree_createTreeForPath d options treesForPath pathParts :
  Agree
    (createTreeForPath github (with_debug d options) treesForPath pathParts)
    (createTreeForPath github options treesForPath pathParts).
Proof.
  unfold createTreeForPath. generalize (rev pathParts) as revPathParts.
  intros revPathParts. revert treesForPath.
  induction revPathParts as [| lastPath rest IH]; intros; simpl.
  - agree.
  - destruct (slice_from_minus2 _); [| agree].
    destruct (last _); [| agree].
    do 4 (apply Agree_bind; [agree |]; intros ?).
    apply Agree_bind; [unfold gitData_createTree; agree |]. intros newTree.
    apply IH.
Qed.

Lemma Agree_createTreeForSingleDir d options localPath baseTree :
  Agree
    (createTreeForSingleDir github fs (with_debug d options) localPath
       baseTree)
    (createTreeForSingleDir github fs options localPath baseTree).
Proof.
  unfold createTreeForSingleDir.
  destruct localPath; try apply Agree_throw.
  apply Agree_bind; [agree |]. intros filenames.
  apply Agree_bind.
  { apply Agree_promise_all_map. intros.
    unfold createEntryFor, gitData_createBlob. agree. }
  intros made. apply Agree_bind; [agree |]. intros children.
  unfold gitData_createTree. agree.
Qed.

Lemma Agree_createNewTreeForPath d options treesForPath pathParts :
  Agree
    (createNewTreeForPath github fs (with_debug d options) treesForPath
       pathParts)
    (createNewTreeForPath github fs options treesForPath pathParts).
Proof.
  unfold createNewTreeForPath. fields.
  apply Agree_bind; [agree |]. intros _.
  apply Agree_bind.
  { destruct (bool_decide _); [| agree].
    apply Agree_createTreeForSingleDir. }
  intros newTargetTree. apply Agree_createTreeForPath.
Qed.

Lemma Agree_pipeline d options pathParts :
  Agree (pipeline github fs (with_debug d options) pathParts)
    (pipeline github fs options pathParts).
Proof.
  unfold pipeline. apply Agree_bind.
  { unfold resolveBranch, getBranchOrNull, createBranch,
      gitData_getReference, gitData_createReference. fields. agree. }
  intros branch. apply Agree_bind.
  { unfold rebuild, getLatestCommit, gitData_getCommit.
    apply Agree_bind; [agree |]. intros commit.
    apply Agree_bind; [unfold gitData_getTree; agree |]. intros rootTree.
    apply Agree_bind; [apply Agree_existingTreesForPath |]. intros found.
    apply Agree_bind; [apply Agree_createNewTreeForPath |]. intros.
    agree. }
  intros built. apply Agree_bind; [| intros; agree].
  unfold publish. destruct (built.2); [| agree].
  apply Agree_bind; [agree |]. intros root.
  destruct (bool_decide _); [agree |].
  apply Agree_bind.
  { unfold commitChanges, gitData_createCommit, gitData_updateReference.
    fields. agree. }
  intros _. fields. destruct (truthy _); [| agree].
  unfold createPullRequest. fields. agree.
Qed.

(** X16.  [debug] changes the console and nothing else.  Whatever value the
    option [debug] is given, a sync settles in the same way (fulfilled, or
    rejected with the same error), makes the same calls with the same
    outcomes in the same order, and leaves the same store and the same
    trees behind. *)
Theorem debug_changes_the_console_only (options : Options) (d : Js)
    (w : World Store) :
  let run := syncToGitHub github fs options w in
  let other := syncToGitHub github fs (with_debug d options) w in
  other.1 = run.1 /\
  calls other.2 = calls run.2 /\
  store other.2 = store run.2 /\
  heap other.2 = heap run.2.
Proof.
  intros run other.
  assert (Agree (syncToGitHub github fs (with_debug d options))
            (syncToGitHub github fs options)) as H.
  { unfold syncToGitHub. apply Agree_bind; [apply Agree_debug |]. intros _.
    intros w1 w2 Hw.
    destruct (rejected_dec options) as [Rj | N].
    - destruct (validateOptions_rejected options w2 Rj) as [e E2].
      assert (validateOptions (with_debug d options) w1 = (Throw e, w1))
        as E1.
      { revert E2. unfold validateOptions. fields. cbv zeta.
        repeat (match goal with
                | |- context [if ?b then _ else _] => destruct b
                end; try by intros [= <-]); by intros [=]. }
      erewrite bind_throw by exact E1. erewrite bind_throw by exact E2. done.
    - assert (~ rejected (with_debug d options)) as N' by done.
      erewrite bind_ok by (by apply validateOptions_accepted).
      erewrite (bind_ok (validateOptions options))
        by (by apply validateOptions_accepted).
      change (defaulted (with_debug d options))
        with (with_debug d (defaulted options)).
      cbn [with_debug opt_repoPath].
      destruct (opt_repoPath (defaulted options)); try by apply Agree_throw.
      by apply (Agree_pipeline d (defaulted options)). }
  destruct (H w w (same_state_refl w)) as (Hr & S & Hh & C).
  by repeat split.
Qed.

(** ** Why a sync is rejected *)

Lemma Cause_mono options evs0 evs evs1 e :
  ~ rejected options ->
  Cause fs options evs e -> Cause fs options (evs0 ++ evs ++ evs1) e.
Proof.
  intros N C. destruct C as [msg Rj | | | ev e Hin Ho | |];
    [done | by constructor | by constructor | | | ].
  - apply cause_store with ev; [| done].
    apply elem_of_app. right. apply elem_of_app. by left.
  - by eapply cause_readdir.
  - by eapply cause_file.
Qed.

Lemma validateOptions_throw options (w : World Store) e w' :
  validateOptions options w = (Throw e, w') -> exists msg, e = Error msg.
Proof.
  unfold validateOptions. cbv zeta.
  repeat (match goal with
          | |- context [if ?b then _ else _] => destruct b
          end; try (intros [= <- <-]; by eexists)); by intros [=].
Qed.

Lemma gitData_throw {A} options rq
    (method : Js -> Js -> Store -> (JsError + A) * Store) shape w e w' :
  gitData options rq method shape w = (Throw e, w') ->
  exists ev e0,
    calls w' = (calls w ++ [ev])%list /\ ev_outcome ev = inl e0 /\
    e = promisified e0.
Proof.
  rewrite gitData_run.
  destruct (method _ _ _) as [[e' | a] store']; cbn [fst snd settle outcome];
    intros [= <- <-]. eexists _, e'. by rewrite calls_after_call.
Qed.

Lemma createEntryFor_throw options localPath filename pathExists w e w' :
  createEntryFor github fs options localPath filename pathExists w
  = (Throw e, w') ->
  exists evs e0,
    calls w' = (calls w ++ evs)%list /\ e = promisified e0 /\
    ((fs_stat fs (path_join fs localPath filename) = inl e0 \/
      fs_readFile fs (path_join fs localPath filename) = inl e0) \/
     exists ev, ev ∈ evs /\ ev_outcome ev = inl e0).
Proof.
  unfold createEntryFor.
  destruct (fs_stat fs (path_join fs localPath filename))
    as [e' | [|]] eqn:Hs; cbn [lift].
  - intros [= <- <-]. exists [], e'. rewrite app_nil_r.
    split; [done |]. split; [done |]. left. by left.
  - by intros [=].
  - rewrite bind_ret_l.
    destruct (fs_readFile fs (path_join fs localPath filename))
      as [e' | content] eqn:Hr; cbn [lift].
    + intros [= <- <-]. exists [], e'. rewrite app_nil_r.
      split; [done |]. split; [done |]. left. by right.
    + rewrite bind_ret_l. intros E.
      apply bind_inv in E as [(? & ? & _ & ?) | (e' & E & [= ->])]; [done |].
      unfold gitData_createBlob in E.
      destruct (gitData_throw _ _ _ _ _ _ _ E) as (ev & e0 & C & O & ->).
      exists [ev], e0. split; [done |]. split; [done |]. right. exists ev.
      split; [apply list_elem_of_here | done].
Qed.

Lemma promise_all_map_throw options localPath filenames :
  forall pathExists w e w',
    promise_all_map (createEntryFor github fs options localPath) filenames
      pathExists w = (Throw e, w') ->
    exists evs e0,
      calls w' = (calls w ++ evs)%list /\ e = promisified e0 /\
      ((exists filename,
          filename ∈ filenames /\
          (fs_stat fs (path_join fs localPath filename) = inl e0 \/
           fs_readFile fs (path_join fs localPath filename) = inl e0)) \/
       exists ev, ev ∈ evs /\ ev_outcome ev = inl e0).
Proof.
  induction filenames as [| filename rest IH]; intros pathExists w e w';
    simpl; [by intros [=] |].
  destruct (createEntryFor github fs options localPath filename pathExists w)
    as [r1 w1] eqn:E1.
  destruct (promise_all_map _ rest _ w1) as [rs w2] eqn:E2.
  destruct (Emits_promise_all_map ["createBlob"]
              (createEntryFor github fs options localPath) rest
              ltac:(intros; apply Emits_createEntryFor; apply list_elem_of_here)
              _ _ _ _ E2) as (evs2 & C2 & _).
  destruct r1 as [[child pe1] | e1].
  - destruct rs as [[l pe2] | e2]; intros [= <- <-].
    destruct (createEntryFor_spec _ _ _ _ _ _ _ _ _ E1) as (_ & evs1 & C1 & _).
    destruct (IH _ _ _ _ E2) as (evs2' & e0 & C2' & He & H).
    rewrite C2 in C2'. apply app_inv_head in C2'. subst evs2'.
    exists (evs1 ++ evs2)%list, e0.
    split; [by rewrite C2, C1, app_assoc |]. split; [done |].
    destruct H as [(f & Hin & H) | (ev & Hin & H)].
    + left. exists f. split; [by apply list_elem_of_further | done].
    + right. exists ev. split; [| done]. apply elem_of_app. by right.
  - intros [= <- <-].
    destruct (createEntryFor_throw _ _ _ _ _ _ _ E1)
      as (evs1 & e0 & C1 & He & H).
    exists (evs1 ++ evs2)%list, e0.
    split; [by rewrite C2, C1, app_assoc |]. split; [done |].
    destruct H as [H | (ev & Hin & H)].
    + left. exists filename. split; [apply list_elem_of_here | done].
    + right. exists ev. split; [| done]. apply elem_of_app. by left.
Qed.

Lemma createTreeForSingleDir_throw options localPath baseTree w e w' :
  opt_localPath options = str localPath ->
  (forall b, baseTree = Some b -> is_Some (heap w !! b)) ->
  createTreeForSingleDir github fs options (str localPath) baseTree w
  = (Throw e, w') ->
  exists evs, calls w' = (calls w ++ evs)%list /\ Cause fs options evs e.
Proof.
  intros Hl Hb E.
  destruct (fs_readdir fs localPath) as [e' | filenames] eqn:Hd.
  { unfold createTreeForSingleDir in E. rewrite Hd in E.
    inversion E; subst. exists []. rewrite app_nil_r. split; [done |].
    by eapply cause_readdir. }
  destruct (promise_all_map (createEntryFor github fs options localPath)
              filenames ∅ w) as [[[children pathExists] | e'] w1] eqn:Em.
  - assert (exists base, forall b, baseTree = Some b -> heap w !! b = Some base)
      as [base Hbase].
    { destruct baseTree as [b |].
      - destruct (Hb b eq_refl) as [base Hbase]. exists base.
        by intros ? [= <-].
      - by exists (mkTree 0%N []). }
    rewrite (createTreeForSingleDir_submits github fs options localPath
               baseTree filenames children pathExists w w1 base Hd Em Hbase)
      in E.
    destruct (promise_all_map_createEntryFor github fs _ _ _ _ _ _ _ _ Em)
      as (_ & evs & C & _).
    unfold gitData_createTree in E.
    apply bind_inv in E as [(? & ? & _ & ?) | (e' & E & [= ->])]; [done |].
    destruct (gitData_throw _ _ _ _ _ _ _ E) as (ev & e0 & C' & O & ->).
    exists (evs ++ [ev])%list. split; [by rewrite C', C, app_assoc |].
    apply cause_store with ev; [| done].
    apply elem_of_app. right. apply list_elem_of_here.
  - unfold createTreeForSingleDir in E. rewrite Hd in E.
    unfold bind at 1, lift, ret in E.
    erewrite bind_throw in E by exact Em. inversion E; subst e' w1.
    destruct (promise_all_map_throw _ _ _ _ _ _ _ Em)
      as (evs & e0 & C & -> & [(f & Hin & H) | (ev & Hin & H)]); exists evs;
      (split; [done |]).
    + by eapply cause_file.
    + by eapply cause_store.
Qed.

Lemma RebuildLog_last h user repo childSha parents segments evs sha :
  RebuildLog h user repo childSha parents segments evs (Some sha) ->
  last (created_trees evs) = Some sha \/ (evs = [] /\ Some sha = Some childSha).
Proof.
  remember (Some sha) as result eqn:Hr.
  induction 1 as [| ? ? ? ? ? ? ? answer evs' ? ? ? ? IH |]; subst.
  - by right.
  - left. destruct (IH eq_refl) as [La | [-> [= ->]]].
    + change (last (t_sha answer :: created_trees evs') = Some sha).
      by rewrite last_cons, La.
    + reflexivity.
  - done.
Qed.

Lemma createNewTreeForPath_settles options localPath treesForPath pathParts
    w r w' :
  opt_localPath options = str localPath ->
  NoDup treesForPath ->
  (forall l, l ∈ treesForPath -> is_Some (heap w !! l)) ->
  createNewTreeForPath github fs options treesForPath pathParts w = (r, w') ->
  exists evs,
    calls w' = (calls w ++ evs)%list /\
    match r with
    | Ok newRoot =>
        exists l t,
          newRoot = Some l /\ heap w' !! l = Some t /\
          last (created_trees evs) = Some (t_sha t)
    | Throw e => Cause fs options evs e
    end.
Proof.
  intros Hl Hnd Halloc E.
  unfold createNewTreeForPath in E. cbv zeta in E.
  set (full := bool_decide (length treesForPath = length pathParts + 1)) in *.
  set (ancestors := if full then removelast treesForPath else treesForPath)
    in *.
  assert (NoDup ancestors /\
          forall l, l ∈ ancestors -> is_Some (heap w !! l)) as [Hnd' Halloc'].
  { unfold ancestors. clear E. destruct full; [| done]. split.
    - rewrite removelast_firstn_len.
      eapply sublist_NoDup; [done | apply sublist_take].
    - intros l Hin. by apply Halloc, elem_of_removelast. }
  rewrite Hl in E.
  apply bind_inv in E as [([] & w0 & E0 & E) | (? & E0 & ?)]; last first.
  { destruct full; [by rewrite debug_run in E0 | done]. }
  assert (calls w0 = calls w /\ heap w0 = heap w) as [C0 H0].
  { destruct full; [rewrite debug_run in E0 |]; inversion E0; subst;
      by rewrite ?calls_logged, ?heap_logged. }
  case_bool_decide as Hlen; last first.
  { inversion E; subst. exists []. rewrite app_nil_r. split; [done |].
    apply cause_parent. }
  match type of E with
  | context [createTreeForSingleDir _ _ _ _ ?b] => set (baseTree := b) in *
  end.
  assert (forall b, baseTree = Some b -> is_Some (heap w0 !! b)) as Hb.
  { intros b Hbt. rewrite H0. apply Halloc. unfold baseTree in Hbt.
    destruct full; [| done].
    destruct (last treesForPath) as [t |] eqn:La; [| done].
    destruct (truthy _); [| done]. inversion Hbt; subst.
    apply last_Some in La as [l' ->]. apply elem_of_app. right.
    apply list_elem_of_here. }
  apply bind_inv in E as [(leaf & w1 & Es & E) | (e' & Es & ->)];
    last first.
  { destruct (createTreeForSingleDir_throw _ _ _ _ _ _ Hl Hb Es)
      as (evs & C & Ca).
    exists evs. by rewrite C, C0. }
  assert (exists base,
            forall b, baseTree = Some b -> heap w0 !! b = Some base)
    as [base Hbase].
  { destruct baseTree as [b |].
    - destruct (Hb b eq_refl) as [base Hbase]. exists base.
      by intros ? [= <-].
    - by exists (mkTree 0%N []). }
  destruct (createTreeForSingleDir_cases options localPath baseTree base w0
              _ _ Hbase Es)
    as (blobs & F & [(? & ? & _) | (filenames & children & out & Hd & L & C1
                                    & O)]); [done |].
  destruct out as [? | response]; [by destruct O |].
  destruct O as (t1 & -> & [= ->] & H1).
  unfold createTreeForPath in E.
  rewrite <- (rev_involutive ancestors) in E.
  destruct (createTreeForPath_rev_log github options (heap w) (rev pathParts)
              (rev ancestors) (length (heap w0)) t1 w1 r w')
    as (climb & result & C2 & R & P).
  - by rewrite !length_rev.
  - rewrite rev_is_reverse. by rewrite reverse_Permutation.
  - intros parent Hin. rewrite rev_is_reverse, elem_of_reverse in Hin.
    destruct (Halloc' parent Hin) as [old Hold]. exists old.
    split; [done |]. rewrite H1, H0. by apply lookup_app_l_Some.
  - rewrite H1. by apply list_lookup_middle.
  - done.
  - eexists. split; [by rewrite C2, C1, C0, <- !app_assoc |].
    destruct r as [newRoot | e].
    + destruct P as (l & t & -> & Ht & -> & _). exists l, t.
      split; [done |]. split; [done |].
      rewrite app_assoc. unfold created_trees. rewrite omap_app.
      apply RebuildLog_last in R as [R | [-> [= Heq]]].
      * fold (created_trees climb). rewrite last_app, R. done.
      * rewrite app_nil_r, omap_app. simpl. by rewrite last_snoc, Heq.
    + destruct P as (_ & evs0 & rq & e0 & -> & ->).
      eapply cause_store;
        [rewrite !elem_of_app; right; right; right; apply list_elem_of_here
        | reflexivity].
Qed.

Lemma rebuild_settles options localPath pathParts branch w r w' :
  ~ rejected options ->
  opt_localPath options = str localPath ->
  rebuild github fs options pathParts branch w = (r, w') ->
  exists evs,
    calls w' = (calls w ++ evs)%list /\
    match r with
    | Ok built =>
        exists l t,
          built.2 = Some l /\ heap w' !! l = Some t /\
          last (created_trees evs) = Some (t_sha t)
    | Throw e => Cause fs options evs e
    end.
Proof.
  intros N Hl E. unfold rebuild in E.
  apply bind_inv in E as [(commit & v1 & F1 & E) | (e' & F1 & ->)].
  2:{ unfold getLatestCommit, gitData_getCommit in F1.
      destruct (gitData_throw _ _ _ _ _ _ _ F1) as (ev & e0 & C & O & ->).
      exists [ev]. split; [done |].
      eapply cause_store; [apply list_elem_of_here | done]. }
  assert (exists evsA, calls v1 = (calls w ++ evsA)%list) as [evsA CA].
  { unfold getLatestCommit, gitData_getCommit in F1.
    rewrite gitData_run in F1. injection F1 as _ <-.
    eexists. apply calls_after_call. }
  assert (forall (p v' : World Store) evs r',
            calls p = (calls w ++ evs)%list ->
            (exists evs', calls v' = (calls p ++ evs')%list /\
                          match r' with
                          | Ok built =>
                              exists l t,
                                (built : Commit * option nat).2 = Some l /\
                                heap v' !! l = Some t /\
                                last (created_trees evs') = Some (t_sha t)
                          | Throw e => Cause fs options evs' e
                          end) ->
            exists evs', calls v' = (calls w ++ evs')%list /\
                         match r' with
                         | Ok built =>
                             exists l t,
                               built.2 = Some l /\
                               heap v' !! l = Some t /\
                               last (created_trees evs') = Some (t_sha t)
                         | Throw e => Cause fs options evs' e
                         end) as Hglue.
  { intros p v' evs r' Cp (evs' & Cv & Ca).
    exists (evs ++ evs')%list.
    split; [by rewrite Cv, Cp, <- !app_assoc |].
    destruct r' as [built | e'].
    - destruct Ca as (l & t & Hb & Ht & La). exists l, t.
      split; [done |]. split; [done |].
      unfold created_trees in *. by rewrite omap_app, last_app, La.
    - rewrite <- (app_nil_r evs'). by apply Cause_mono. }
  apply bind_inv in E as [(rootTree & v2 & F2 & E) | (e' & F2 & ->)].
  2:{ unfold gitData_getTree in F2.
      apply bind_inv in F2 as [(? & ? & _ & ?) | (e'' & F2 & [= <-])];
        [done |].
      destruct (gitData_throw _ _ _ _ _ _ _ F2) as (ev & e0 & C & O & ->).
      apply (Hglue v1 w' evsA (Throw (promisified e0))); [done |].
      exists [ev]. split; [done |].
      eapply cause_store; [apply list_elem_of_here | done]. }
  destruct (gitdata_getTree github (opt_user options) (opt_repo options)
              (c_tree_sha commit) (store v1)) as [[? | t] store2] eqn:G;
    rewrite (gitData_getTree_run github options _ v1 _ _ G) in F2; [done |].
  inversion F2; subst rootTree v2; clear F2.
  match type of E with
  | bind _ _ ?x = _ => set (v2 := x) in *
  end.
  assert (calls v2 = (calls w ++ evsA ++
            [mkEvent (opt_user options) (opt_repo options)
               (GetTree (c_tree_sha commit))
               (inr (TreeResponse t))])%list) as CB.
  { unfold v2. cbn [calls]. by rewrite CA, <- app_assoc. }
  assert (heap v2 !! length (heap v1) = Some t) as Hroot.
  { unfold v2. cbn [heap]. by apply list_lookup_middle. }
  apply bind_inv in E as [(found & v3 & F3 & E) | (e' & F3 & ->)].
  2:{ destruct (existingTreesForPath_spec github options _ _ None v2 _ _
                  ltac:(done) ltac:(eauto) F3)
        as (new & evs & _ & C & sha & evs0 & e0 & -> & ->).
      apply (Hglue v2 w' _ (Throw (promisified e0)) CB).
      eexists. split; [done |].
      eapply cause_store;
        [apply elem_of_app; right; apply list_elem_of_here | reflexivity]. }
  destruct found as [chain cache].
  destruct (existingTreesForPath_spec github options _ _ None v2 _ _
              ltac:(done) ltac:(eauto) F3)
    as (new & evs & _ & C & Rs & _ & _).
  destruct (existingTreesForPath_distinct github options _ _ None v2 _ _ _
              ltac:(done) ltac:(eauto) F3) as (Hnd & _).
  pose proof (Resolved_allocated _ _ _ _ _ Rs) as Halloc.
  cbn [fst] in E.
  apply bind_inv in E as [(newRoot & v4 & F4 & E) | (e' & F4 & ->)].
  - inversion E; subst r w'; clear E.
    eapply (Hglue v3 v4 _ (Ok (commit, newRoot))).
    { rewrite C, CB, <- !app_assoc. reflexivity. }
    destruct (createNewTreeForPath_settles _ _ _ _ _ _ _ Hl Hnd Halloc F4)
      as (evs' & C' & P).
    exists evs'. by split.
  - eapply (Hglue v3 w' _ (Throw e')).
    { rewrite C, CB, <- !app_assoc. reflexivity. }
    exact (createNewTreeForPath_settles _ _ _ _ _ _ _ Hl Hnd Halloc F4).
Qed.

Lemma publish_throw options message commit l w e w' :
  opt_message options = str message ->
  is_Some (heap w !! l) ->
  publish github options commit (Some l) w = (Throw e, w') ->
  exists evs,
    calls w' = (calls w ++ evs)%list /\
    exists ev e0, ev ∈ evs /\ ev_outcome ev = inl e0 /\ e = promisified e0.
Proof.
  intros Hm [root Hroot] E. unfold publish in E.
  unfold bind at 1, deref at 1 in E. rewrite Hroot in E.
  case_bool_decide as Hsha; [by rewrite debug_run in E |].
  unfold commitChanges in E.
  unfold bind at 1, bind at 1, deref at 1 in E. rewrite Hroot in E.
  unfold bind at 1, gitData_createCommit in E. rewrite gitData_run in E.
  destruct (gitdata_createCommit github _ _ _ _ _ _)
    as [[e' | newCommit] store1]; cbn [fst snd settle outcome] in E.
  { inversion E; subst. eexists [_]. rewrite calls_after_call.
    split; [done |]. eexists _, e'.
    split; [apply list_elem_of_here | done]. }
  unfold gitData_updateReference in E. rewrite gitData_run in E.
  rewrite store_after_call in E.
  destruct (gitdata_updateReference github _ _ _ _ _)
    as [[e' | updated] store2]; cbn [fst snd settle outcome] in E.
  { inversion E; subst. eexists [_; _]. rewrite !calls_after_call.
    rewrite <- app_assoc. split; [done |]. eexists _, e'.
    split; [apply list_elem_of_further, list_elem_of_here | done]. }
  destruct (truthy (opt_createPullRequest options)) eqn:T; [| done].
  match type of E with
  | createPullRequest _ _ ?x = _ => set (w2 := x) in *
  end.
  destruct (pullRequests_create github (opt_user options) (opt_repo options)
              (pull_title message) (pull_body message)
              (opt_baseBranch options) (opt_branch options) (store w2))
    as [answer store3] eqn:P.
  rewrite (createPullRequest_run github options message w2 answer store3
             Hm P) in E.
  destruct answer as [err | u]; [| done].
  destruct (already_exists (promisified err)); [done |]. inversion E; subst.
  eexists [_; _; _]. split.
  - unfold after_pull, w2. cbn [calls]. rewrite !calls_after_call.
    rewrite <- !app_assoc. reflexivity.
  - eexists _, err.
    split; [do 2 apply list_elem_of_further; apply list_elem_of_here |].
    done.
Qed.

(** X17.  A sync is rejected for a reason outside the code.  Whenever
    [syncToGitHub] is rejected, its error is one of these: an error of the
    validation, before any call; "Branch ... does not exist", when the
    branch is missing and not to be created; "Could not find existing
    parent dir for repo path: ..."; the error with which the store rejected
    one of the calls the sync has made; or the error of the file system on
    listing the local directory, or on the stat or the reading of a file
    listed in it.  The code itself never fails on the way: no tree, branch
    or option it reads is missing when it reads it. *)
Theorem sync_is_rejected_for_a_cause (options : Options) (w : World Store) :
  let run := syncToGitHub github fs options w in
  match run.1 with
  | Ok _ => True
  | Throw e =>
      exists evs,
        calls run.2 = (calls w ++ evs)%list /\
        Cause fs (defaulted options) evs e
  end.
Proof.
  intros run.
  assert (syncToGitHub github fs options w = (run.1, run.2)) as E
      by apply surjective_pairing.
  destruct run as [[[] | e] w']; cbn [fst snd] in *; [done |].
  destruct (rejected_dec options) as [Rj | N].
  { unfold syncToGitHub in E. erewrite bind_ok in E by apply debug_run.
    destruct (validateOptions_rejected options
                (logged options (Log "Sync github started" []) w) Rj)
      as [e' E'].
    destruct (validateOptions_throw _ _ _ _ E') as [msg ->].
    erewrite bind_throw in E by exact E'. inversion E; subst e w'.
    exists []. rewrite calls_logged, app_nil_r. split; [done |].
    apply cause_options; [by apply rejected_defaulted | done]. }
  destruct (syncToGitHub_accepted github fs options w N)
    as (repoPath & Hrp & Esync).
  assert (exists message, opt_message (defaulted options) = str message)
    as [message Hm].
  { assert (is_string (opt_message options) = true) as S.
    { destruct (is_string (opt_message options)) eqn:S; [done |].
      exfalso. apply N. unfold rejected. tauto. }
    simpl. destruct (opt_message options); try done. eauto. }
  assert (exists localPath, opt_localPath (defaulted options) = str localPath)
    as [localPath Hl].
  { assert (is_string (opt_localPath options) = true) as S.
    { destruct (is_string (opt_localPath options)) eqn:S; [done |].
      exfalso. apply N. unfold rejected. tauto. }
    simpl. destruct (opt_localPath options); try done. eauto. }
  assert (~ rejected (defaulted options)) as N'
      by (by rewrite rejected_defaulted).
  rewrite Esync in E. unfold pipeline in E.
  set (o := defaulted options) in *.
  set (w0 := logged options (Log "Sync github started" []) w) in *.
  assert (calls w0 = calls w) as C0 by apply calls_logged.
  clearbody o w0.
  apply bind_inv in E as [(branch & w1 & E1 & E2) | (e' & E1 & [= <-])].
  2:{ destruct (resolveBranch_trace _ _ _ _ E1) as (evs1 & C1 & T).
      exists evs1. rewrite C1, C0. split; [done |].
      inversion T; subst.
      - eapply cause_store; [apply list_elem_of_here | done].
      - by apply cause_branch.
      - eapply cause_store;
          [apply list_elem_of_further, list_elem_of_here | done].
      - match goal with
        | H : context [settle ?a] |- _ =>
            destruct a as [err | ?]; simpl in H;
            [inversion H; subst | discriminate H]
        end.
        eapply cause_store;
          [do 2 apply list_elem_of_further; apply list_elem_of_here | done]. }
  destruct (resolveBranch_trace _ _ _ _ E1) as (evs1 & C1 & _).
  apply bind_inv in E2 as [(built & w2 & E2 & E3) | (e' & E2 & [= <-])].
  2:{ destruct (rebuild_settles _ _ _ _ _ _ _ N' Hl E2) as (evs2 & C2 & Ca).
      exists (evs1 ++ evs2)%list.
      split; [by rewrite C2, C1, C0, <- !app_assoc |].
      rewrite <- (app_nil_r evs2). by apply Cause_mono. }
  destruct (rebuild_settles _ _ _ _ _ _ _ N' Hl E2)
    as (evs2 & C2 & l & t & Hb & Hroot & _).
  rewrite Hb in E3.
  apply bind_inv in E3 as [([] & w3 & E3 & E4) | (e' & E3 & [= <-])].
  { by rewrite debug_run in E4. }
  destruct (publish_throw _ _ _ _ _ _ _ Hm ltac:(eauto) E3)
    as (evs3 & C3 & ev & e0 & Hin & O & ->).
  exists (evs1 ++ evs2 ++ evs3)%list.
  split; [by rewrite C3, C2, C1, C0, <- !app_assoc |].
  apply cause_store with ev; [| done].
  rewrite !elem_of_app. by right; right.
Qed.

(** ** The commit and the rebuilt root *)

Lemma commitChanges_head options commit l root w r w' :
  heap w !! l = Some root ->
  commitChanges github options commit l w = (r, w') ->
  exists out rest,
    calls w' =
    (calls w ++
     mkEvent (opt_user options) (opt_repo options)
       (CreateCommit (opt_message options) (t_sha root) [c_sha commit]) out
     :: rest)%list.
Proof.
  intros Hroot E. unfold commitChanges in E.
  unfold bind at 1, deref at 1 in E. rewrite Hroot in E.
  unfold gitData_createCommit, gitData_updateReference in E.
  apply bind_inv in E as [(newCommit & w1 & E1 & E2) | (e & E1 & ->)].
  - rewrite gitData_run in E1. injection E1 as _ <-.
    rewrite gitData_run in E2. injection E2 as _ <-.
    rewrite !calls_after_call, <- app_assoc. simpl. eauto.
  - rewrite gitData_run in E1. injection E1 as _ <-.
    rewrite calls_after_call. eauto.
Qed.

Lemma publish_head options commit l root w r w' :
  heap w !! l = Some root ->
  publish github options commit (Some l) w = (r, w') ->
  exists tail,
    calls w' = (calls w ++ tail)%list /\
    (tail = [] \/
     exists out rest,
       tail =
       mkEvent (opt_user options) (opt_repo options)
         (CreateCommit (opt_message options) (t_sha root) [c_sha commit]) out
       :: rest).
Proof.
  intros Hroot E. unfold publish in E.
  unfold bind at 1, deref at 1 in E. rewrite Hroot in E.
  case_bool_decide as Hsha.
  { rewrite debug_run in E. inversion E; subst. exists [].
    rewrite calls_logged, app_nil_r. split; [done | by left]. }
  apply bind_inv in E as [(u & w1 & E1 & E2) | (e & E1 & ->)].
  - destruct (commitChanges_head _ _ _ _ _ _ _ Hroot E1) as (out & rest & C1).
    assert (Emits (Store := Store) all_names
              (if truthy (opt_createPullRequest options)
               then createPullRequest github options else ret tt)) as Hrest.
    { destruct (truthy _); [| apply Emits_ret].
      apply Emits_createPullRequest. emits_in. }
    destruct (Hrest _ _ _ E2) as (rest2 & C2 & _).
    eexists. split; [| right; eauto].
    rewrite C2, C1, <- app_assoc. reflexivity.
  - destruct (commitChanges_head _ _ _ _ _ _ _ Hroot E1) as (out & rest & C1).
    eexists. split; [exact C1 | right; eauto].
Qed.

(** X18.  The commit points at the rebuilt root.  The calls of a sync are
    reads and uploads followed by its writes; if there are writes, the
    first of them is the [createCommit] request, it carries the commit
    message of the options, and its tree is the hash with which the store
    answered the last [createTree] request of the sync: the new root. *)
Theorem commit_points_at_the_rebuilt_root (options : Options)
    (w : World Store) :
  let run := syncToGitHub github fs options w in
  exists pre tail,
    calls run.2 = (calls w ++ pre ++ tail)%list /\
    Forall (fun ev => request_name (ev_request ev) ∈ read_and_upload_names)
      pre /\
    (tail = [] \/
     exists tree parents out rest,
       tail =
       mkEvent (opt_user options) (opt_repo options)
         (CreateCommit (opt_message options) tree parents) out :: rest /\
       last (created_trees pre) = Some tree).
Proof.
  intros run.
  assert (syncToGitHub github fs options w = (run.1, run.2)) as E
      by apply surjective_pairing.
  destruct run as [r w']. cbn [fst snd] in *.
  destruct (rejected_dec options) as [Rj | N].
  { exists [], []. rewrite !app_nil_r.
    unfold syncToGitHub in E. erewrite bind_ok in E by apply debug_run.
    destruct (validateOptions_rejected options
                (logged options (Log "Sync github started" []) w) Rj)
      as [e E'].
    erewrite bind_throw in E by exact E'. inversion E; subst r w'.
    rewrite calls_logged. split; [done |]. split; [constructor | by left]. }
  destruct (syncToGitHub_accepted github fs options w N)
    as (repoPath & Hrp & Esync).
  assert (exists localPath, opt_localPath (defaulted options) = str localPath)
    as [localPath Hl].
  { assert (is_string (opt_localPath options) = true) as S.
    { destruct (is_string (opt_localPath options)) eqn:S; [done |].
      exfalso. apply N. unfold rejected. tauto. }
    simpl. destruct (opt_localPath options); try done. eauto. }
  assert (~ rejected (defaulted options)) as N'
      by (by rewrite rejected_defaulted).
  rewrite Esync in E. unfold pipeline in E.
  change (opt_user options) with (opt_user (defaulted options)).
  change (opt_repo options) with (opt_repo (defaulted options)).
  change (opt_message options) with (opt_message (defaulted options)).
  set (o := defaulted options) in *.
  set (w0 := logged options (Log "Sync github started" []) w) in *.
  assert (calls w0 = calls w) as C0 by apply calls_logged.
  clearbody o w0.
  destruct (resolveBranch github o w0) as [rb w1] eqn:E1.
  destruct (Emits_resolveBranch github read_and_upload_names o
              ltac:(emits_in) ltac:(emits_in) _ _ _ E1) as (evs1 & C1 & F1).
  destruct rb as [branch | e]; last first.
  { erewrite bind_throw in E by exact E1. inversion E; subst r w'.
    exists evs1, []. rewrite app_nil_r, C1, C0.
    split; [done |]. split; [done | by left]. }
  erewrite bind_ok in E by exact E1.
  destruct (rebuild github fs o (compact (split slash repoPath)) branch w1)
    as [rr w2] eqn:E2.
  destruct (rebuild_reads_commit _ _ _ _ _ _ E2) as (evs2 & C2 & F2 & _).
  destruct (rebuild_settles _ _ _ _ _ _ _ N' Hl E2) as (evs2' & C2' & P).
  rewrite C2 in C2'. apply app_inv_head in C2'. subst evs2'.
  destruct rr as [[commit newRoot] | e]; last first.
  { erewrite bind_throw in E by exact E2. inversion E; subst r w'.
    exists (evs1 ++ evs2)%list, []. rewrite app_nil_r, C2, C1, C0, app_assoc.
    split; [done |]. split; [by apply Forall_app | by left]. }
  erewrite bind_ok in E by exact E2. cbn [fst snd] in E, P.
  destruct P as (l & t & -> & Ht & La).
  assert (exists rp w3, publish github o commit (Some l) w2 = (rp, w3) /\
                        calls w' = calls w3) as (rp & w3 & E3 & Cw).
  { destruct (publish github o commit (Some l) w2) as [rp w3] eqn:E3.
    exists rp, w3. split; [done |]. destruct rp as [[] | e].
    - erewrite bind_ok in E by exact E3. rewrite debug_run in E.
      inversion E; subst. by rewrite calls_logged.
    - erewrite bind_throw in E by exact E3. by inversion E; subst. }
  destruct (publish_head _ _ _ _ _ _ _ Ht E3) as (tail & C3 & H).
  exists (evs1 ++ evs2)%list, tail.
  split; [by rewrite Cw, C3, C2, C1, C0, <- !app_assoc |].
  split; [by apply Forall_app |].
  destruct H as [-> | (out & rest & ->)]; [by left | right].
  exists (t_sha t), [c_sha commit], out, rest. split; [done |].
  unfold created_trees in *. by rewrite omap_app, last_app, La.
Qed.

End Further.

(** * The further properties on the example repository *)

(** The segments of [docs/api]. *)
Lemma pathParts_of_join_witness :
  compact (split slash (join "/" ["docs"; "api"])) = ["docs"; "api"].
Proof.
  apply pathParts_of_join.
  repeat constructor; discriminate.
Defined.

(** The options of the example, once defaulted, pass validation
    unchanged. *)
Lemma validated_options_are_stable_witness :
  validateOptions (defaulted Example.changed) Example.start
  = (Ok (defaulted Example.changed), Example.start) /\
  truthy (opt_branch (defaulted Example.changed)) = true.
Proof.
  edestruct (validated_options_are_stable Example.changed
               (defaulted Example.changed) Example.start Example.start)
    as (H1 & _ & _ & _ & _ & _ & H7 & _).
  - vm_compute. reflexivity.
  - split; [exact H1 | exact H7].
Defined.

(** The pull request of the example: its message has one line, which is
    the title.  Refused with the plain string
    [A pull request already exists for Asana:feature.], the step is
    fulfilled all the same. *)
Lemma pull_request_is_cut_from_message_witness :
  (exists out,
     calls (createPullRequest Mock.github
              (defaulted Example.with_pull_request) Example.start).2
     = [mkEvent (str "Asana") (str "node-sync-to-github")
          (PullRequestsCreate "Sync the docs" "" (str "master")
             (str "feature")) out]) /\
  let run :=
    createPullRequest Mock.github (defaulted Example.with_pull_request)
      (Mock.start (Mock.repository (inl Example.duplicate_text))) in
  calls run.2
  = [mkEvent (str "Asana") (str "node-sync-to-github")
       (PullRequestsCreate "Sync the docs" "" (str "master") (str "feature"))
       (inl Example.duplicate_text)] /\
  run.1 = Ok tt.
Proof.
  split.
  - destruct (pull_request_is_cut_from_message Mock.github
                (defaulted Example.with_pull_request) "Sync the docs"
                Example.start)
      as (title & body & out & C & _ & Hb & _).
    + reflexivity.
    + change (title = "Sync the docs" /\ body = "") in Hb.
      destruct Hb as [-> ->]. exists out. exact C.
  - intros run.
    destruct (pull_request_is_cut_from_message Mock.github
                (defaulted Example.with_pull_request) "Sync the docs"
                (Mock.start (Mock.repository (inl Example.duplicate_text))))
      as (title & body & out & C & _ & Hb & Ho).
    + reflexivity.
    + change (title = "Sync the docs" /\ body = "") in Hb.
      destruct Hb as [-> ->]. fold run in C, Ho.
      assert (out = inl Example.duplicate_text) as ->.
      { assert (calls run.2
                = [mkEvent (str "Asana") (str "node-sync-to-github")
                     (PullRequestsCreate "Sync the docs" "" (str "master")
                        (str "feature")) (inl Example.duplicate_text)]) as V
            by (vm_compute; reflexivity).
        rewrite V in C. by injection C as <-. }
      split; [exact C |].
      destruct Ho as [[_ H] | [N _]]; [exact H |].
      exfalso. apply N.
      exists "A pull request ", " for Asana:feature.". reflexivity.
Defined.

(** Resolving [docs] in the example repository: the cache holds the root
    and [docs] under their hashes. *)
Lemma resolver_records_its_chain_witness :
  let run :=
    existingTreesForPath Mock.github Example.changed 0 ["docs"] None
      Example.with_root in
  exists cache',
    run.1 = Ok ([0; 1], cache') /\
    cache' = recorded (heap run.2) ∅ [0; 1] /\
    NoDup [0; 1].
Proof.
  intros run.
  set (cache' := match run.1 with Ok found => found.2 | Throw _ => ∅ end).
  assert (run = (Ok ([0; 1], cache'), run.2)) as E
      by (vm_compute; reflexivity).
  destruct (resolver_records_its_chain Mock.github Example.changed 0 ["docs"]
              None Example.with_root [0; 1] cache' run.2)
    as (H1 & _ & _ & H4 & _).
  - intros sha l H. cbn [default] in H. by rewrite lookup_empty in H.
  - eexists. vm_compute. reflexivity.
  - exact E.
  - exists cache'. split; [by rewrite E |]. split; [exact H1 | exact H4].
Defined.

(** An additive snapshot of the local directory [other] over the root
    tree of the example: one new tree, made of the new file and of the
    three entries of the root, each with its mode, type and hash. *)
Lemma additive_merge_keeps_the_other_entries_witness :
  exists w' t,
    createTreeForSingleDir Mock.github Mock.disk Example.preserve_same
      (str "other") (Some 0) Example.with_root = (Ok 1, w') /\
    heap w' = (heap Example.with_root ++ [t])%list /\
    requests_since Example.with_root w' =
      [CreateBlob "3" "utf-8";
       CreateTree
         [Some (Mock.file "b.txt" 1000%N); Some (Mock.dir "docs" 201%N);
          Some (Mock.file "README" 301%N); Some (Mock.dir "x" 202%N)]].
Proof.
  assert (createTreeForSingleDir Mock.github Mock.disk Example.preserve_same
            (str "other") (Some 0) Example.with_root
          = (Ok 1,
             (createTreeForSingleDir Mock.github Mock.disk
                Example.preserve_same (str "other") (Some 0)
                Example.with_root).2)) as E
      by (vm_compute; reflexivity).
  edestruct (additive_merge_keeps_the_other_entries Mock.github Mock.disk
               Example.preserve_same "other" 0)
    with (w := Example.with_root)
    as (filenames & children & kept & blobs & t & _ & _ & _ & _ & C & H & _).
  - vm_compute. reflexivity.
  - repeat (constructor;
            [cbn [e_path]; intros H; unfold Object_prototype_names in H;
             repeat (apply elem_of_cons in H as [H | H]; [discriminate H |]);
             by apply elem_of_nil in H |]).
    constructor.
  - exact E.
  - eexists _, t. split; [exact E |]. split; [exact H |].
    vm_compute. reflexivity.
Defined.

(** The rebuild for [docs] in the example: the upload of [a.txt], the
    snapshot of the local directory, then one request for the root, which
    points [docs] at the snapshot and carries [README] and [x] over with
    their hashes. *)
Lemma new_root_is_snapshot_then_climb_witness :
  let resolved :=
    (existingTreesForPath Mock.github Example.changed 0 ["docs"] None
       Example.with_root).2 in
  let run :=
    createNewTreeForPath Mock.github Mock.disk Example.changed [0; 1]
      ["docs"] resolved in
  exists (climb : list Event) l,
    length climb = 1 /\ run.1 = Ok (Some l) /\
    requests_since resolved run.2 =
      [CreateBlob "2" "utf-8";
       CreateTree [Some (Mock.file "a.txt" 1000%N)];
       CreateTree
         [Some (Mock.dir "docs" 1001%N); Some (Mock.file "README" 301%N);
          Some (Mock.dir "x" 202%N)]].
Proof.
  intros resolved run.
  assert (run = (Ok (Some 3), run.2)) as E by (vm_compute; reflexivity).
  destruct (new_root_is_snapshot_then_climb Mock.github Mock.disk
              Example.changed "changed" [0; 1] ["docs"] resolved (Some 3)
              run.2)
    as (filenames & children & blobs & leaf & climb & l & t & _ & _ & _ & _
        & _ & _ & Hn & Hl & _).
  - reflexivity.
  - left. reflexivity.
  - apply NoDup_singleton.
  - intros parent Hin. change (parent ∈ [0]) in Hin.
    apply list_elem_of_singleton in Hin. subst parent.
    eexists. vm_compute. reflexivity.
  - exact E.
  - exists climb, 3. split; [exact Hn |]. split; [by rewrite E |].
    vm_compute. reflexivity.
Defined.

(** A pull request refused with the plain string
    [A pull request already exists for Asana:feature.]: the step is
    fulfilled; refused with [Service Unavailable], it is not. *)
Lemma already_exists_iff_message_contains_witness :
  (createPullRequest Mock.github (defaulted Example.with_pull_request)
     (Mock.start (Mock.repository (inl Example.duplicate_text)))).1 = Ok tt /\
  (createPullRequest Mock.github (defaulted Example.with_pull_request)
     (Mock.start (Mock.repository (inl Example.unavailable_text)))).1
  <> Ok tt.
Proof.
  split.
  - eapply (already_exists_iff_message_contains Mock.github
              (defaulted Example.with_pull_request) "Sync the docs"
              (Mock.start (Mock.repository (inl Example.duplicate_text)))
              Example.duplicate_text).
    + reflexivity.
    + vm_compute. reflexivity.
    + exists "A pull request ", " for Asana:feature.". reflexivity.
  - intros H.
    eapply (already_exists_iff_message_contains Mock.github
              (defaulted Example.with_pull_request) "Sync the docs"
              (Mock.start (Mock.repository (inl Example.unavailable_text)))
              Example.unavailable_text) in H.
    + destruct H as (pre & post & H).
      assert (regexp_test "already exists" "Service Unavailable" = true) as T.
      { apply regexp_test_iff. exists pre, post.
        by injection H as ->. }
      vm_compute in T. discriminate T.
    + reflexivity.
    + vm_compute. reflexivity.
Defined.
